(** * Receipt splitter: bill-splitting and settlement computation

    A shallow embedding of the business logic of [frontend/src/App.tsx]
    (derived amounts, [calculateOwed], the participant and price handlers
    and the payment summary), of the negotiation front end, and of the
    settlement and negotiation contracts that the front ends only call over
    HTTP.

    Conventions of the embedding.
    - A JavaScript string is a [string] whose characters stand for code
      units below 256.
    - A JavaScript number is an IEEE 754 binary64 value, a [spec_float]
      with precision 53 and maximal exponent 1024: every operation rounds
      to the nearest value, ties to even, overflows to an infinity and
      propagates [NaN] as the hardware does.
    - An object literal used as a dictionary is the finite map of its own
      properties together with the keys it inherits from
      [Object.prototype]: assigning to [__proto__] creates no property,
      and reading an inherited key yields a function or an object, never
      [undefined].
    - The decimals of the specification (the contracts of the back end,
      which is not part of the sources) are exact rationals.
    - A tolerance is a statement on real numbers: a double stands for
      the real [m × 2^e] it encodes, and its distance to the exact
      result is bounded by the rounding error of the operations.
    - React state is a record threaded through the handlers; a handler
      reads the state of the render it was created in and returns the
      state after its batched updates. *)

From Stdlib Require Import Ascii String QArith Qcanon SpecFloat.
From Stdlib Require Import Rbase Rfunctions Lra.
From stdpp Require Import numbers strings gmap fin_maps list.

Local Open Scope string_scope.
Local Open Scope list_scope.

(** ** Strings *)

Module JsString.

(** WhiteSpace and LineTerminator code units below 256:
    TAB, LF, VT, FF, CR, SP and NBSP. *)
Definition isWhiteSpace (c : ascii) : bool :=
  let n := nat_of_ascii c in
  (n =? 9)%nat || (n =? 10)%nat || (n =? 11)%nat || (n =? 12)%nat
  || (n =? 13)%nat || (n =? 32)%nat || (n =? 160)%nat.

(** The class [\d]. *)
Definition isDigit (c : ascii) : bool :=
  let n := nat_of_ascii c in (48 <=? n)%nat && (n <=? 57)%nat.

Definition digitValue (c : ascii) : Z := Z.of_nat (nat_of_ascii c) - 48.

(** [String.prototype.trimStart] *)
Fixpoint trimStart (s : string) : string :=
  match s with
  | EmptyString => EmptyString
  | String c rest => if isWhiteSpace c then trimStart rest else s
  end.

(** [String.prototype.trimEnd] *)
Fixpoint trimEnd (s : string) : string :=
  match s with
  | EmptyString => EmptyString
  | String c rest =>
      match trimEnd rest with
      | EmptyString => if isWhiteSpace c then EmptyString else String c EmptyString
      | kept => String c kept
      end
  end.

(** [String.prototype.trim] *)
Definition trim (s : string) : string := trimEnd (trimStart s).

(** ToBoolean on a string: only the empty string is falsy. *)
Definition truthy (s : string) : bool :=
  match s with EmptyString => false | String _ _ => true end.

(** [s || d] on strings. *)
Definition orElse (s d : string) : string := if truthy s then s else d.

(** Every character of [s] satisfies [p]. *)
Fixpoint all (p : ascii → bool) (s : string) : bool :=
  match s with
  | EmptyString => true
  | String c rest => p c && all p rest
  end.

(** The longest prefix of decimal digits and what follows it. *)
Fixpoint spanDigits (s : string) : string * string :=
  match s with
  | EmptyString => (EmptyString, EmptyString)
  | String c rest =>
      if isDigit c
      then let '(ds, tl) := spanDigits rest in (String c ds, tl)
      else (EmptyString, s)
  end.

(** The regular expression [/^\d*\.?\d*$/], as [RegExp.prototype.test]. *)
Definition numericPattern (s : string) : bool :=
  let '(_, afterInt) := spanDigits s in
  let afterDot :=
    match afterInt with
    | String "." rest => rest
    | _ => afterInt
    end in
  let '(_, tl) := spanDigits afterDot in
  negb (truthy tl).

End JsString.

(** ** Numbers *)

Module JsNumber.
Import JsString.

(** The binary64 format. *)
Definition prec : Z := 53.
Definition emax : Z := 1024.

(** The Number type: [S754_zero s] is +0 or -0, [S754_infinity s] an
    infinity, [S754_finite s m e] the value (-1)^s × m × 2^e, and
    [S754_nan] the one NaN a program can observe. *)
Abbreviation number := spec_float.

Abbreviation NaN := S754_nan.

(** [a + b], [a * b] and [a / b]. *)
Definition add (a b : number) : number := SFadd prec emax a b.
Definition mul (a b : number) : number := SFmul prec emax a b.
Definition div (a b : number) : number := SFdiv prec emax a b.

(** [a === b] on numbers: [NaN] is equal to nothing, +0 equals -0. *)
Definition strictEq (a b : number) : bool := SFeqb a b.

(** [a < b] and [a > b] on numbers: false when either side is [NaN]. *)
Definition lt (a b : number) : bool := SFltb a b.

Definition gt (a b : number) : bool := lt b a.

Definition isNaN (a : number) : bool :=
  match a with S754_nan => true | _ => false end.

(** The Number value of an integer literal. *)
Definition ofZ (z : Z) : number := binary_normalize prec emax z 0 false.

(** A value of the format: the mantissa of a finite number has at most
    53 bits and is normalised, the exponent is in range. *)
Definition representable (a : number) : bool := valid_binary prec emax a.

(** The sign bit is clear, or the value is [NaN]: what a sum, product
    or quotient of amounts that are not negative is. *)
Definition signClear (a : number) : bool :=
  match a with
  | S754_nan => true
  | S754_zero s | S754_infinity s | S754_finite s _ _ => negb s
  end.

(** The rational a finite number stands for. *)
Definition exact (a : number) : option Q :=
  match a with
  | S754_zero _ => Some 0%Q
  | S754_finite s m e =>
      Some ((if s then Qopp else id) (inject_Z (Zpos m) * Qpower 2 e)%Q)
  | _ => None
  end.

(** Value of a digit string read in base ten, most significant first. *)
Fixpoint digitsValue (acc : Z) (ds : string) : Z :=
  match ds with
  | EmptyString => acc
  | String c rest => digitsValue (10 * acc + digitValue c) rest
  end.

(** The Number value of [m × 10^k] for a natural number [m]: the
    quotient or product, rounded once. *)
Definition scaled (m k : Z) : number :=
  match m with
  | Zpos p =>
      match k with
      | Zneg d => div (S754_finite false p 0) (S754_finite false (10 ^ d) 0)
      | _ => ofZ (m * 10 ^ k)
      end
  | _ => S754_zero false
  end.

(** ExponentPart at the head of [s]: [e] or [E], an optional sign and at
    least one digit; its value, 0 when there is none. *)
Definition exponentOf (s : string) : Z :=
  match s with
  | String c rest =>
      if Ascii.eqb c "e" || Ascii.eqb c "E"
      then
        match rest with
        | String "-" ds => - digitsValue 0 (fst (spanDigits ds))
        | String "+" ds => digitsValue 0 (fst (spanDigits ds))
        | ds => digitsValue 0 (fst (spanDigits ds))
        end
      else 0
  | EmptyString => 0
  end.

(** The longest prefix of [s] that is a StrUnsignedDecimalLiteral:
    [Infinity], [digits], [digits.], [digits.digits] or [.digits], the
    last four with an optional exponent; its Number value, if there is
    such a prefix. *)
Definition unsignedDecimal (s : string) : option number :=
  if String.prefix "Infinity" s then Some (S754_infinity false)
  else
    let '(ip, afterInt) := spanDigits s in
    let '(fp, afterFrac) :=
      match afterInt with
      | String "." rest => spanDigits rest
      | _ => (EmptyString, afterInt)
      end in
    if truthy ip || truthy fp
    then Some (scaled (digitsValue 0 (ip +:+ fp))
                 (exponentOf afterFrac - Z.of_nat (String.length fp)))
    else None.

(** [parseFloat]: skip leading white space, read an optional sign and
    the longest decimal literal that follows; [NaN] when there is none. *)
Definition parseFloat (input : string) : number :=
  match trimStart input with
  | String "-" rest =>
      match unsignedDecimal rest with
      | Some v => SFopp v
      | None => NaN
      end
  | String "+" rest =>
      match unsignedDecimal rest with
      | Some v => v
      | None => NaN
      end
  | s =>
      match unsignedDecimal s with
      | Some v => v
      | None => NaN
      end
  end.

End JsNumber.

Declare Scope js_scope.
Delimit Scope js_scope with js.
Infix "+" := JsNumber.add : js_scope.
Infix "*" := JsNumber.mul : js_scope.
Infix "/" := JsNumber.div : js_scope.
Infix "===" := JsNumber.strictEq (at level 70, no associativity) : js_scope.
Notation "0" := (JsNumber.ofZ 0) : js_scope.
Notation "100" := (JsNumber.ofZ 100) : js_scope.

(** ** Objects used as dictionaries *)

Module JsObject.
Import JsNumber.

(** The own properties of an object created by [{}] whose values are
    numbers. *)
Abbreviation t := (gmap string number).

(** The properties of [Object.prototype]: eleven functions and the
    accessor [__proto__]. *)
Definition prototypeKeys : list string :=
  ["constructor"; "hasOwnProperty"; "isPrototypeOf"; "propertyIsEnumerable";
   "toLocaleString"; "toString"; "valueOf"; "__defineGetter__";
   "__defineSetter__"; "__lookupGetter__"; "__lookupSetter__"; "__proto__"].

(** What [o[key]] evaluates to. *)
Inductive Value : Type :=
| Undefined
| Number (n : number)
| Inherited.

(** [o[key]]: the own property, else the inherited function or object,
    else [undefined]. *)
Definition get (o : t) (key : string) : Value :=
  match o !! key with
  | Some n => Number n
  | None => if bool_decide (key ∈ prototypeKeys) then Inherited else Undefined
  end.

(** [o[key] = n] for a number [n]: the setter of [__proto__] ignores a
    value that is neither an object nor [null]; every other key becomes
    or stays an own property. *)
Definition set (key : string) (n : number) (o : t) : t :=
  if bool_decide (key = "__proto__") then o else <[key := n]> o.

End JsObject.

(** ** Decimals of the specification *)

Module Decimal.

(** Modelled from the spec: a "decimal" of section 3, an exact amount,
    or [NaN] for a number that is no amount. *)
Inductive decimal : Type :=
| NaN
| Num (q : Qc).

(** |x| on rationals. *)
Definition Qcabs (x : Qc) : Qc := if decide (x < 0)%Qc then (- x)%Qc else x.

End Decimal.

(** * Doubles as real numbers

    What is needed to compare the result of a computation in doubles
    with the exact result: the real value of a double, the position of
    a real between two neighbouring multiples of a power of two (as
    the rounding functions of the format take it), and the two
    constants of the format's error bound. *)

Module Rounding.
Local Open Scope R_scope.

(** Powers of two as reals. *)
Definition pow2 (e : Z) : R := powerRZ 2 e.

(** The position of a real [x] between [m × 2^e] and [(m + 1) × 2^e]. *)
Definition inbetween (m e : Z) (l : location) (x : R) : Prop :=
  match l with
  | loc_Exact => x = IZR m * pow2 e
  | loc_Inexact Lt => IZR m * pow2 e < x < (IZR m + / 2) * pow2 e
  | loc_Inexact Eq => x = (IZR m + / 2) * pow2 e
  | loc_Inexact Gt => (IZR m + / 2) * pow2 e < x < (IZR m + 1) * pow2 e
  end.

(** Unit roundoff and the underflow threshold of binary64. *)
Definition u : R := pow2 (-53).
Definition eta : R := pow2 (-1075).

(** A zero or a positive finite number whose exponent is in range. *)
Definition nonnegFinite (r : spec_float) : Prop :=
  (∃ s, r = S754_zero s)
  ∨ ∃ m e, r = S754_finite false m e ∧ (-1074 <= e)%Z.

(** The real number a double stands for ([0] for an infinity and for
    [NaN], which stand for none). *)
Definition realOf (a : spec_float) : R :=
  match a with
  | S754_finite s m e => (if s then -1 else 1) * IZR (Zpos m) * pow2 e
  | _ => 0
  end.

(** The error a rounding may make: none on an exact input that needs
    no shift, half a unit in the last place otherwise. *)
Definition roundError (m e : Z) (l : location) : R :=
  let t := fexp JsNumber.prec JsNumber.emax (Zdigits2 m + e) in
  match l with
  | loc_Exact => if (t <=? e)%Z then 0 else / 2 * pow2 t
  | _ => / 2 * pow2 t
  end.

(** The result of an operation on numbers that are not negative: an
    infinity when the exact result is large, a number close to the
    exact result otherwise. *)
Definition rounds (r : spec_float) (x slack : R) : Prop :=
  (r = S754_infinity false ∧ pow2 972 <= x * (1 + u) + slack)
  ∨ (nonnegFinite r ∧ Rabs (realOf r - x) <= u * x + slack).

(** [Number.isFinite] *)
Definition isFinite (a : spec_float) : bool :=
  match a with
  | S754_zero _ | S754_finite _ _ _ => true
  | _ => false
  end.

(** The exact sum of a list of reals. *)
Definition sumR (l : list R) : R := foldr Rplus 0 l.

(** Numbers that stand for no positive real: zeros, infinities, NaN. *)
Definition null (a : spec_float) : Prop :=
  match a with S754_finite _ _ _ => False | _ => True end.

(** The largest number of roundings on the way from the prices to a sum
    of the owed amounts that the tolerance of the specification allows
    for, and the relative error they amount to. *)
Definition roundings : Z := 4000000004.
Definition drift : R := 4000000004 / 9007199254740992.

End Rounding.
(** ** The bill: [frontend/src/App.tsx] *)

Module Item.
(** [interface Item] *)
Record t : Type := mk {
  id : string;
  quantity : JsNumber.number;
  name : string;
  price : JsNumber.number;
  assignedTo : string
}.

(** [{ ...i, price: newPrice }] *)
Definition withPrice (newPrice : JsNumber.number) (i : t) : t :=
  mk (id i) (quantity i) (name i) newPrice (assignedTo i).

(** [{ ...item, assignedTo: who }] *)
Definition withAssignedTo (who : string) (i : t) : t :=
  mk (id i) (quantity i) (name i) (price i) who.
End Item.

Module Person.
(** [interface Person] *)
Record t : Type := mk {
  id : string;
  name : string
}.
End Person.

Module Transaction.
(** [interface Transaction]; optional fields are [option]s. *)
Record t : Type := mk {
  from : string;
  fromAddress : option string;
  to : string;
  toAddress : option string;
  amount : JsNumber.number;
  status : string;
  result : option string;
  error : option string
}.
End Transaction.

Module PaymentInstruction.
(** One "[from] pays [to]: [amount]" line. *)
Record t : Type := mk {
  from : string;
  to : string;
  amount : JsNumber.number
}.
End PaymentInstruction.

Module App.
Import JsString JsNumber.
Local Open Scope js_scope.

(** The [useState] cells of the component. *)
Record State : Type := mkState {
  items : list Item.t;
  people : list Person.t;
  paidBy : string;
  taxPercent : string;
  tipPercent : string;
  newPersonName : string;
  isLoading : bool;
  error : string;
  isProcessingPayment : bool;
  transactions : list Transaction.t;
  showTransactions : bool
}.

(** [useState] initial values. *)
Definition initial : State :=
  mkState [] [] "" "5" "20" "" false "" false [] false.

Definition setItems (v : list Item.t) (st : State) : State :=
  mkState v (people st) (paidBy st) (taxPercent st) (tipPercent st)
    (newPersonName st) (isLoading st) (error st) (isProcessingPayment st)
    (transactions st) (showTransactions st).

Definition setPeople (v : list Person.t) (st : State) : State :=
  mkState (items st) v (paidBy st) (taxPercent st) (tipPercent st)
    (newPersonName st) (isLoading st) (error st) (isProcessingPayment st)
    (transactions st) (showTransactions st).

Definition setPaidBy (v : string) (st : State) : State :=
  mkState (items st) (people st) v (taxPercent st) (tipPercent st)
    (newPersonName st) (isLoading st) (error st) (isProcessingPayment st)
    (transactions st) (showTransactions st).

Definition setNewPersonName (v : string) (st : State) : State :=
  mkState (items st) (people st) (paidBy st) (taxPercent st) (tipPercent st)
    v (isLoading st) (error st) (isProcessingPayment st)
    (transactions st) (showTransactions st).

(** [list.reduce((sum, item) => sum + item.price, 0)] *)
Definition sumPrices (l : list Item.t) : number :=
  foldl (λ sum item, sum + Item.price item) 0 l.

(** Lines 45-48: the derived amounts. *)
Definition subtotal (st : State) : number := sumPrices (items st).

Definition taxAmount (st : State) : number :=
  subtotal st * (parseFloat (orElse (taxPercent st) "0") / 100).

Definition tipAmount (st : State) : number :=
  (subtotal st + taxAmount st) * (parseFloat (orElse (tipPercent st) "0") / 100).

Definition total (st : State) : number :=
  subtotal st + taxAmount st + tipAmount st.

(** [items.filter(item => item.assignedTo === person.name)] *)
Definition personItems (st : State) (who : string) : list Item.t :=
  filter (λ item, Item.assignedTo item = who) (items st).

Definition personSubtotal (st : State) (who : string) : number :=
  sumPrices (personItems st who).

Definition personTaxTipShare (st : State) (who : string) : number :=
  (personSubtotal st who / subtotal st) * (taxAmount st + tipAmount st).

(** Lines 51-64. The body of the [forEach] is one step of the fold. *)
Definition calculateOwed (st : State) : JsObject.t :=
  if subtotal st === 0 then ∅
  else
    foldl (λ (owedMap : JsObject.t) person,
             JsObject.set (Person.name person)
               (personSubtotal st (Person.name person)
                + personTaxTipShare st (Person.name person)) owedMap)
          ∅ (people st).

Definition owedAmounts (st : State) : JsObject.t := calculateOwed st.

(** Lines 117-122. [now] is [Date.now().toString()]. *)
Definition handleAddPerson (now : string) (st : State) : State :=
  if truthy (trim (newPersonName st))
  then setNewPersonName ""
         (setPeople (people st ++ [Person.mk now (trim (newPersonName st))]) st)
  else st.

(** Lines 124-138. *)
Definition handleRemovePerson (personId : string) (st : State) : State :=
  match List.find (λ p, bool_decide (Person.id p = personId)) (people st) with
  | Some personToRemove =>
      let items' :=
        map (λ item,
               if bool_decide (Item.assignedTo item = Person.name personToRemove)
               then Item.withAssignedTo "" item else item) (items st) in
      let people' := filter (λ p, Person.id p ≠ personId) (people st) in
      let paidBy' :=
        if bool_decide (paidBy st = Person.name personToRemove)
        then "" else paidBy st in
      setPaidBy paidBy' (setPeople people' (setItems items' st))
  | None => st
  end.

(** Lines 305-314: [onChange] of the price field of the item [itemId],
    with [val] the text of the field. *)
Definition priceOnChange (itemId : string) (val : string) (st : State) : State :=
  if bool_decide (val = "") || numericPattern val
  then
    let newPrice := if bool_decide (val = "") then 0 else parseFloat val in
    setItems (map (λ i, if bool_decide (Item.id i = itemId)
                        then Item.withPrice newPrice i else i) (items st)) st
  else st.

(** What rendering a part of the page yields: the part, or the
    [TypeError] of calling [toFixed] on a value that has none, which
    aborts the render. *)
Inductive Render (A : Type) : Type :=
| Rendered (a : A)
| TypeError.
Arguments Rendered {A} a.
Arguments TypeError {A}.

(** Rendering a list renders its elements in order; the first
    [TypeError] is the outcome of the whole. *)
Fixpoint renderAll {A B : Type} (f : A → Render B) (l : list A)
  : Render (list B) :=
  match l with
  | [] => Rendered []
  | a :: rest =>
      match f a with
      | Rendered b =>
          match renderAll f rest with
          | Rendered bs => Rendered (b :: bs)
          | TypeError => TypeError
          end
      | TypeError => TypeError
      end
  end.

(** Lines 429-436, one line "[from] pays [to]" with the amount before
    [toFixed(2)]: [owedAmounts[person.name]?.toFixed(2) || '0.00'] shows
    0.00 for [undefined], and calls the [toFixed] of whatever else the
    lookup yields. *)
Definition summaryLine (st : State) (person : Person.t)
  : Render PaymentInstruction.t :=
  match JsObject.get (owedAmounts st) (Person.name person) with
  | JsObject.Number n =>
      Rendered (PaymentInstruction.mk (Person.name person) (paidBy st) n)
  | JsObject.Undefined =>
      Rendered (PaymentInstruction.mk (Person.name person) (paidBy st) 0)
  | JsObject.Inherited => TypeError
  end.

(** Lines 424-438, the payment summary. Nothing is rendered unless
    there is an item (line 287), a payer and a participant. *)
Definition paymentSummary (st : State) : Render (list PaymentInstruction.t) :=
  if bool_decide (0 < length (items st))%nat
     && truthy (paidBy st)
     && bool_decide (0 < length (people st))%nat
  then
    renderAll (summaryLine st)
      (filter (λ person, Person.name person ≠ paidBy st) (people st))
  else Rendered [].

End App.

(** ** Settlement orchestrator

    The endpoint [/request-payment] is served by the back end; the front
    end only posts to it and renders the [Transaction]s it answers. *)

Module Settlement.
Import JsNumber.

(** Modelled from the spec: what the external payment executor of
    section 6 answers for one instruction; a failure is data. *)
Inductive Outcome : Type :=
| Paid (receipt : option string)
| Refused (reason : string).

Section Orchestrator.
(** The state of the outside world (balances, the payment service),
    which every call to the executor may change. *)
Variable World : Type.
Variable execute : PaymentInstruction.t → World → Outcome * World.
(** Participant name to payment address. *)
Variable resolve : string → option string.

(** Modelled from the spec: the [TransactionResult] recorded for one
    instruction (section 3 and section 4.4); the back end that builds
    it is not part of the sources. A failed result carries the
    error, a successful one the optional receipt. *)
Definition toResult (i : PaymentInstruction.t) (o : Outcome) : Transaction.t :=
  match o with
  | Paid receipt =>
      Transaction.mk (PaymentInstruction.from i) (resolve (PaymentInstruction.from i))
        (PaymentInstruction.to i) (resolve (PaymentInstruction.to i))
        (PaymentInstruction.amount i) "success" receipt None
  | Refused reason =>
      Transaction.mk (PaymentInstruction.from i) (resolve (PaymentInstruction.from i))
        (PaymentInstruction.to i) (resolve (PaymentInstruction.to i))
        (PaymentInstruction.amount i) "failed" None (Some reason)
  end.

(** Modelled from the spec: [settle(instructions)] of section 6, the
    orchestrator of section 4.4, whose code (the back end) is not part
    of the sources. Every instruction is handed to the executor once,
    in order, without retry, and its result is recorded whatever the
    outcome. *)
Fixpoint settle (instructions : list PaymentInstruction.t) (w : World)
  : list Transaction.t * World :=
  match instructions with
  | [] => ([], w)
  | i :: rest =>
      let '(o, w1) := execute i w in
      let '(results, w2) := settle rest w1 in
      (toResult i o :: results, w2)
  end.

(** Modelled from the spec, with [settle]: the world in which the
    instruction of index [k] is attempted. *)
Definition worldBefore (k : nat) (instructions : list PaymentInstruction.t)
    (w : World) : World :=
  snd (settle (take k instructions) w).

(** The counts shown under the results ([App.tsx], lines 542-549),
    obtained by filtering on [status]. *)
Definition successCount (results : list Transaction.t) : nat :=
  length (filter (λ t, Transaction.status t = "success") results).

Definition failureCount (results : list Transaction.t) : nat :=
  length (filter (λ t, Transaction.status t = "failed") results).
End Orchestrator.
End Settlement.

(** ** Negotiation variant

    The endpoint [/negotiate-payment] is served by the back end; the
    negotiation front end posts the items and the stances and shows
    [transcript], [final_amounts] and [total] of the answer. *)

Module Negotiation.
Import Decimal.

(** [interface NegotiationMessage] *)
Record NegotiationMessage : Type := mkMessage {
  person : JsNumber.number;
  message : string
}.

(** Modelled from the spec: a value read from the answer of the
    reasoning collaborator of section 6, before validation. *)
Inductive Json : Type :=
| JNull
| JString (s : string)
| JNumber (n : decimal).

(** Modelled from the spec: the parsed answer, transcript and the two
    final amounts (section 4.5). *)
Record Reply : Type := mkReply {
  replyTranscript : list NegotiationMessage;
  replyPerson1 : Json;
  replyPerson2 : Json
}.

(** [final_amounts] as the front end reads it: [person1], [person2]. *)
Record FinalAmounts : Type := mkFinalAmounts {
  person1 : Qc;
  person2 : Qc
}.

(** What the front end reads from a successful answer. *)
Record Negotiated : Type := mkNegotiated {
  transcript : list NegotiationMessage;
  finalAmounts : FinalAmounts;
  total : Qc
}.

(** Modelled from the spec: the error kind of section 7 that a failed
    validation raises. *)
Inductive Error : Type :=
| ValidationError.

Section Builder.
(** The "small tolerance" of section 4.5; the spec gives no value. *)
Variable tolerance : Qc.

(** Modelled from the spec: the validation of section 4.5, whose code
    (the back end) is not part of the sources: both final amounts are
    numbers, neither is negative, and their sum is the bill total up
    to [tolerance]. *)
Definition validateFinalAmounts (billTotal : Qc) (p1 p2 : Json)
  : FinalAmounts + Error :=
  match p1, p2 with
  | JNumber (Num a), JNumber (Num b) =>
      if bool_decide (0 ≤ a)%Qc && bool_decide (0 ≤ b)%Qc
         && bool_decide (Qcabs (a + b - billTotal) ≤ tolerance)%Qc
      then inl (mkFinalAmounts a b)
      else inr ValidationError
  | _, _ => inr ValidationError
  end.

(** Modelled from the spec: the result of [negotiate] of section 6
    once the collaborator has answered; a failed validation is the
    result of the whole operation. *)
Definition negotiate (billTotal : Qc) (reply : Reply) : Negotiated + Error :=
  match validateFinalAmounts billTotal (replyPerson1 reply) (replyPerson2 reply) with
  | inl amounts => inl (mkNegotiated (replyTranscript reply) amounts billTotal)
  | inr e => inr e
  end.
End Builder.
End Negotiation.
(** ** Vocabulary of the specification *)

Module Spec.
Import JsString JsNumber App.
Local Open Scope js_scope.

Definition names (st : State) : list string := map Person.name (people st).

(** The first, respectively last, character of [s] satisfies [p]. *)
Definition firstIs (p : ascii → bool) (s : string) : bool :=
  match s with
  | EmptyString => false
  | String c _ => p c
  end.

Fixpoint lastIs (p : ascii → bool) (s : string) : bool :=
  match s with
  | EmptyString => false
  | String c EmptyString => p c
  | String _ rest => lastIs p rest
  end.

(** A numeric text as the price and percentage fields accept it:
    digits with at most one decimal point. *)
Definition numeric (s : string) : Prop :=
  ∃ a b, all isDigit a = true ∧ all isDigit b = true
         ∧ (s = a +:+ b ∨ s = a +:+ String "." b).

(** What the theorems on a bill assume of it. *)
Record wellFormed (st : State) : Prop := {
  distinct_ids : NoDup (map Person.id (people st));
  names_trimmed :
    ∀ p, p ∈ people st →
         Person.name p ≠ ""
         ∧ firstIs isWhiteSpace (Person.name p) = false
         ∧ lastIs isWhiteSpace (Person.name p) = false;
  payer_registered : paidBy st = "" ∨ paidBy st ∈ names st
}.

(** The user actions that change the bill, each with the handler the
    component runs for it. *)
Inductive Event : Type :=
| TypeName (text : string)
| AddPerson (now : string)
| RemovePerson (personId : string)
| ChoosePayer (who : string)
| Assign (itemId who : string)
| EditPrice (itemId text : string)
| Upload (received : list Item.t).

(** [onChange] of the assignment [select] of an item (lines 320-324). *)
Definition assignOnChange (itemId who : string) (st : State) : State :=
  setItems (map (λ i, if bool_decide (Item.id i = itemId)
                      then Item.withAssignedTo who i else i) (items st)) st.

Definition handle (e : Event) (st : State) : State :=
  match e with
  | TypeName text => setNewPersonName text st
  | AddPerson now => handleAddPerson now st
  | RemovePerson personId => handleRemovePerson personId st
  | ChoosePayer who => setPaidBy who st
  | Assign itemId who => assignOnChange itemId who st
  | EditPrice itemId text => priceOnChange itemId text st
  | Upload received => setItems received st
  end.

(** What the user can do in a state: the payer and the assignee are
    chosen among the participants shown (or "Select", the empty value),
    and the clock has moved on since the last participant was added. *)
Definition offered (e : Event) (st : State) : Prop :=
  match e with
  | ChoosePayer who | Assign _ who => who = "" ∨ who ∈ names st
  | AddPerson now => now ∉ map Person.id (people st)
  | _ => True
  end.

(** The states the component can be in. *)
Inductive reachable : State → Prop :=
| reachable_initial : reachable initial
| reachable_step e st : reachable st → offered e st → reachable (handle e st).

(** The states obtained from the initial one by typing names and adding
    participants only. *)
Inductive reachableByAdd : State → Prop :=
| byAdd_initial : reachableByAdd initial
| byAdd_type text st : reachableByAdd st → reachableByAdd (setNewPersonName text st)
| byAdd_add now st : reachableByAdd st → reachableByAdd (handleAddPerson now st).

(** What a participant owes according to [owedAmounts], 0 without entry. *)
Definition owed (st : State) (who : string) : number :=
  default 0 (owedAmounts st !! who).

(** The instruction list as the specification words it (section 3): one
    instruction per participant who is not the payer and owes more than
    0, directed to the payer. *)
Definition claimedInstructions (st : State) : list PaymentInstruction.t :=
  map (λ person, PaymentInstruction.mk (Person.name person) (paidBy st)
                   (owed st (Person.name person)))
      (filter (λ person, Person.name person ≠ paidBy st
                         ∧ gt (owed st (Person.name person)) 0 = true)
              (people st)).

(** [Σ OwedMap.values()], the exact sum of the values of the object. *)
Definition sumValues (o : JsObject.t) : R :=
  Rounding.sumR (Rounding.realOf <$> (map_to_list o).*2).

(** [a] equals [b] within the relative tolerance [tol]. *)
Definition withinRelative (tol a b : R) : Prop :=
  (Rabs (a - b) <= tol * Rabs b)%R.

(** The tolerance of the specification, [1e-6]. *)
Definition oneMillionth : R := (/ 1000000)%R.

(** The exact sum of the prices of a list of items, and of those of
    them that are assigned to [who]. *)
Definition exactSum (l : list Item.t) : R :=
  Rounding.sumR ((λ item, Rounding.realOf (Item.price item)) <$> l).

Definition exactOf (l : list Item.t) (who : string) : R :=
  exactSum (filter (λ item, Item.assignedTo item = who) l).

(** The bills on which the owed amounts add up to the total: every
    item is assigned to a participant whose name can be a key of the
    object, prices, tax and tip are not negative, the total is a
    number neither tiny nor huge, and the lists are short enough for
    the roundings not to add up to the tolerance. *)
Record conservable (st : State) : Prop := {
  assigned :
    Forall (λ item, Item.assignedTo item ∈ names st
                    ∧ Item.assignedTo item ≠ "__proto__") (items st);
  priced :
    Forall (λ item, representable (Item.price item) = true
                    ∧ lt (Item.price item) 0 = false) (items st);
  taxed : lt (taxAmount st) 0 = false;
  tipped : lt (tipAmount st) 0 = false;
  moderate :
    (Rounding.pow2 (-1000) <= Rounding.realOf (total st)
     <= Rounding.pow2 900)%R;
  countable :
    (Z.of_nat (length (items st)) + Z.of_nat (length (people st))
     <= 4000000000)%Z
}.

End Spec.

(** ** Sample bills *)

Module Examples.
Import JsNumber App.

Definition alice : Person.t := Person.mk "1700000000001" "Alice".
Definition bob : Person.t := Person.mk "1700000000002" "Bob".

Definition billOf (its : list Item.t) (tax tip : string) : State :=
  mkState its [alice; bob] "Bob" tax tip "" false "" false [] false.

(** The end-to-end example of the specification: coffee 4.00 and muffin
    3.00, both Alice's, tax 10 %, tip 20 %, Bob paid. *)
Definition coffeeAndMuffin : State :=
  billOf [Item.mk "1" (ofZ 1) "Coffee" (ofZ 4) "Alice";
          Item.mk "2" (ofZ 1) "Muffin" (ofZ 3) "Alice"] "10" "20".

(** The muffin is not assigned to anybody. *)
Definition unclaimedMuffin : State :=
  billOf [Item.mk "1" (ofZ 1) "Coffee" (ofZ 4) "Alice";
          Item.mk "2" (ofZ 1) "Muffin" (ofZ 3) ""] "10" "20".

(** A bill whose only item costs nothing. *)
Definition freeCoffee : State :=
  billOf [Item.mk "1" (ofZ 1) "Coffee" (ofZ 0) "Alice"] "10" "20".

(** Bob paid and the only item is his own: Alice owes 0. *)
Definition bobsCoffee : State :=
  billOf [Item.mk "1" (ofZ 1) "Coffee" (ofZ 4) "Bob"] "10" "20".

(** "Al" typed and added twice. *)
Definition twoAls : State :=
  handleAddPerson "1700000000002"
    (setNewPersonName "Al"
       (handleAddPerson "1700000000001" (setNewPersonName "Al" initial))).

(** An executor that refuses A's payments and accepts all others. *)
Definition refusesA (i : PaymentInstruction.t) (w : unit)
  : Settlement.Outcome * unit :=
  if bool_decide (PaymentInstruction.from i = "A")
  then (Settlement.Refused "insufficient balance", w)
  else (Settlement.Paid None, w).

(** A tolerance of one cent. *)
Definition oneCent : Qc := Q2Qc (1 # 100).

(** Modelled from the spec: an amount given in cents. *)
Definition amount (cents : Z) : Decimal.decimal :=
  Decimal.Num (Q2Qc (cents # 100)).

End Examples.

(** ** The other handlers of [frontend/src/App.tsx] *)

Module Handlers.
Import JsString JsNumber App.
Local Open Scope js_scope.

Definition setTaxPercent (v : string) (st : State) : State :=
  mkState (items st) (people st) (paidBy st) v (tipPercent st)
    (newPersonName st) (isLoading st) (error st) (isProcessingPayment st)
    (transactions st) (showTransactions st).

Definition setTipPercent (v : string) (st : State) : State :=
  mkState (items st) (people st) (paidBy st) (taxPercent st) v
    (newPersonName st) (isLoading st) (error st) (isProcessingPayment st)
    (transactions st) (showTransactions st).

Definition setIsLoading (v : bool) (st : State) : State :=
  mkState (items st) (people st) (paidBy st) (taxPercent st) (tipPercent st)
    (newPersonName st) v (error st) (isProcessingPayment st)
    (transactions st) (showTransactions st).

Definition setError (v : string) (st : State) : State :=
  mkState (items st) (people st) (paidBy st) (taxPercent st) (tipPercent st)
    (newPersonName st) (isLoading st) v (isProcessingPayment st)
    (transactions st) (showTransactions st).




(** Lines 379-384: [onChange] of the tax field. *)
Definition taxOnChange (val : string) (st : State) : State :=
  if bool_decide (val = "") || numericPattern val
  then setTaxPercent val st else st.

(** Lines 401-406: [onChange] of the tip field. *)
Definition tipOnChange (val : string) (st : State) : State :=
  if bool_decide (val = "") || numericPattern val
  then setTipPercent val st else st.

(** A value caught by [catch (err)]: an [Error] with its message, or
    anything else. *)
Inductive Thrown : Type :=
| ErrorObject (message : string)
| OtherValue.

(** [err instanceof Error ? err.message : fallback] *)
Definition messageOf (fallback : string) (err : Thrown) : string :=
  match err with
  | ErrorObject message => message
  | OtherValue => fallback
  end.

(** [errorData.detail] as [new Error(errorData.detail || failed)] reads
    it: a falsy value, or a truthy one with the string it converts to,
    which is empty for an empty array. *)
Inductive Detail : Type :=
| Falsy
| Truthy (text : string).

(** What the awaited calls of a handler produce: [fetch] or
    [response.json()] rejects, or reading the answer throws; or the
    response is not [ok] and carries [errorData.detail]; or it is [ok]
    and carries [data.success] (as a boolean) and the payload ([None]
    when missing or falsy). *)
Inductive Answer (Payload : Type) : Type :=
| Rejected (err : Thrown)
| NotOk (detail : Detail)
| Ok (success : bool) (payload : option Payload).
Arguments Rejected {Payload} err.
Arguments NotOk {Payload} detail.
Arguments Ok {Payload} success payload.

(** The body of the [try] block of lines 79-103 and 159-182: the payload,
    or what is thrown. *)
Definition tryBlock {Payload : Type} (failed : string) (answer : Answer Payload)
  : Thrown + Payload :=
  match answer with
  | Rejected err => inl err
  | NotOk Falsy => inl (ErrorObject failed)
  | NotOk (Truthy text) => inl (ErrorObject text)
  | Ok true (Some payload) => inr payload
  | Ok _ _ => inl (ErrorObject "Invalid response from server")
  end.

(** Lines 72-115, up to the first [await]; [file] tells whether a file
    was chosen. *)
Definition handleFileChangeStart (file : bool) (st : State) : State :=
  if file then setError "" (setIsLoading true st) else st.

(** Lines 72-115, from the answer on. *)
Definition handleFileChangeFinish (answer : Answer (list Item.t)) (st : State)
  : State :=
  setIsLoading false
    match tryBlock "Failed to process receipt" answer with
    | inr received => setItems received st
    | inl err => setError (messageOf "Failed to upload receipt" err) st
    end.

(** Lines 72-115, when nothing else happens while the answer is awaited. *)
Definition handleFileChange (file : bool) (answer : Answer (list Item.t))
    (st : State) : State :=
  if file
  then handleFileChangeFinish answer (handleFileChangeStart file st)
  else st.

(** Lines 146-155: the body of the payment request. *)
Record RequestData : Type := mkRequestData {
  requestItems : list Item.t;
  requestPeople : list Person.t;
  requestPaidBy : string;
  requestSubtotal : number;
  requestTax : number;
  requestTip : number;
  requestTotal : number;
  requestOwedAmounts : JsObject.t
}.

Definition requestData (st : State) : RequestData :=
  mkRequestData (items st) (people st) (paidBy st) (subtotal st)
    (taxAmount st) (tipAmount st) (total st) (owedAmounts st).





(** Lines 523-533: the badge of one result. *)
Definition badge (t : Transaction.t) : string :=
  if bool_decide (Transaction.status t = "success") then "Success" else "Failed".

(** Lines 128-130: the items after the removal of a participant called
    [name]. *)
Definition unassign (name : string) (its : list Item.t) : list Item.t :=
  map (λ item, if bool_decide (Item.assignedTo item = name)
               then Item.withAssignedTo "" item else item) its.

(** A text accepted by the price, tax and tip fields. *)
Definition accepted (val : string) : Prop := val = "" ∨ Spec.numeric val.

(** Every item is unassigned or assigned to a participant's name. *)
Definition assignmentsRegistered (its : list Item.t) (registry : list Person.t)
  : Prop :=
  ∀ item, item ∈ its →
    Item.assignedTo item = "" ∨ Item.assignedTo item ∈ map Person.name registry.

End Handlers.

(** ** The negotiation front end: the second [App.tsx] *)

Module NegotiationApp.
Import JsString JsNumber Handlers.

(** [final_amounts] as the component reads it. *)
Record Amounts : Type := mkAmounts {
  person1 : number;
  person2 : number
}.

(** The [useState] cells of the component; [finalAmounts] is [None] for
    [null]. *)
Record State : Type := mkState {
  items : list Item.t;
  isLoading : bool;
  error : string;
  person1Input : string;
  person2Input : string;
  person3Input : string;
  isNegotiating : bool;
  transcript : list Negotiation.NegotiationMessage;
  finalAmounts : option Amounts;
  total : number;
  isExecutingPayment : bool;
  transactions : list Transaction.t;
  showTransactions : bool
}.

(** [useState] initial values. *)
Definition initial : State :=
  mkState [] false "" "" "" "" false [] None (ofZ 0) false [] false.

(** The answer of [/negotiate-payment]: [transcript], [final_amounts]
    and [total], the first two [None] when missing or falsy. *)
Record Negotiation : Type := mkNegotiation {
  answeredTranscript : option (list Negotiation.NegotiationMessage);
  answeredAmounts : option Amounts;
  answeredTotal : number
}.

(** Lines 155-158: the body of the payment request. *)
Record ExecuteRequest : Type := mkExecuteRequest {
  person1_amount : number;
  person2_amount : number
}.

(** What the user and the network do to the component. An awaited
    answer arrives as an event of its own: other events may come first. *)
Inductive Event : Type :=
| Person1Typed (text : string)
| Person2Typed (text : string)
| Person3Typed (text : string)
| FileChosen
| UploadAnswered (answer : Answer (list Item.t))
| ArgueClicked
| ArgueAnswered (answer : Answer Negotiation)
| ExecuteClicked
| ExecuteAnswered (answer : Answer (list Transaction.t)).

(** Lines 49-193, handler by handler. *)
Definition handle (e : Event) (st : State) : State :=
  match e with
  | Person1Typed text =>
      mkState (items st) (isLoading st) (error st) text (person2Input st)
        (person3Input st) (isNegotiating st) (transcript st) (finalAmounts st)
        (total st) (isExecutingPayment st) (transactions st) (showTransactions st)
  | Person2Typed text =>
      mkState (items st) (isLoading st) (error st) (person1Input st) text
        (person3Input st) (isNegotiating st) (transcript st) (finalAmounts st)
        (total st) (isExecutingPayment st) (transactions st) (showTransactions st)
  | Person3Typed text =>
      mkState (items st) (isLoading st) (error st) (person1Input st)
        (person2Input st) text (isNegotiating st) (transcript st)
        (finalAmounts st) (total st) (isExecutingPayment st) (transactions st)
        (showTransactions st)
  | FileChosen =>
      (* setIsLoading(true); setError('') *)
      mkState (items st) true "" (person1Input st) (person2Input st)
        (person3Input st) (isNegotiating st) (transcript st) (finalAmounts st)
        (total st) (isExecutingPayment st) (transactions st) (showTransactions st)
  | UploadAnswered answer =>
      match tryBlock "Failed to process receipt" answer with
      | inr received =>
          (* setItems; the negotiation state is reset; finally setIsLoading(false) *)
          mkState received false (error st) (person1Input st) (person2Input st)
            (person3Input st) (isNegotiating st) [] None (total st)
            (isExecutingPayment st) [] false
      | inl err =>
          mkState (items st) false (messageOf "Failed to upload receipt" err)
            (person1Input st) (person2Input st) (person3Input st)
            (isNegotiating st) (transcript st) (finalAmounts st) (total st)
            (isExecutingPayment st) (transactions st) (showTransactions st)
      end
  | ArgueClicked =>
      mkState (items st) (isLoading st) "" (person1Input st) (person2Input st)
        (person3Input st) true [] None (total st) (isExecutingPayment st) [] false
  | ArgueAnswered answer =>
      match tryBlock "Failed to negotiate payments" answer with
      | inr (mkNegotiation (Some turns) (Some amounts) billTotal) =>
          mkState (items st) (isLoading st) (error st) (person1Input st)
            (person2Input st) (person3Input st) false turns (Some amounts)
            billTotal (isExecutingPayment st) (transactions st)
            (showTransactions st)
      | inr _ =>
          mkState (items st) (isLoading st) "Invalid response from server"
            (person1Input st) (person2Input st) (person3Input st) false
            (transcript st) (finalAmounts st) (total st) (isExecutingPayment st)
            (transactions st) (showTransactions st)
      | inl err =>
          mkState (items st) (isLoading st)
            (messageOf "Failed to negotiate payments" err)
            (person1Input st) (person2Input st) (person3Input st) false
            (transcript st) (finalAmounts st) (total st) (isExecutingPayment st)
            (transactions st) (showTransactions st)
      end
  | ExecuteClicked =>
      mkState (items st) (isLoading st) "" (person1Input st) (person2Input st)
        (person3Input st) (isNegotiating st) (transcript st) (finalAmounts st)
        (total st) true [] false
  | ExecuteAnswered answer =>
      match tryBlock "Failed to execute payments" answer with
      | inr received =>
          mkState (items st) (isLoading st) (error st) (person1Input st)
            (person2Input st) (person3Input st) (isNegotiating st)
            (transcript st) (finalAmounts st) (total st) false received true
      | inl err =>
          mkState (items st) (isLoading st)
            (messageOf "Failed to execute payments" err)
            (person1Input st) (person2Input st) (person3Input st)
            (isNegotiating st) (transcript st) (finalAmounts st) (total st)
            false (transactions st) (showTransactions st)
      end
  end.

(** Lines 155-158: [finalAmounts.person1] and [finalAmounts.person2];
    reading them off [null] throws before the request is sent. *)
Definition executeRequest (st : State) : option ExecuteRequest :=
  match finalAmounts st with
  | Some amounts => Some (mkExecuteRequest (person1 amounts) (person2 amounts))
  | None => None
  end.

(** What the buttons allow: the "Execute Payment" button is rendered
    inside [finalAmounts && ...] within [items.length > 0 && ...], and a
    button is disabled while its own request is in flight; the stance
    boxes and the "Argue" button are rendered when there is an item. *)
Definition offered (e : Event) (st : State) : Prop :=
  match e with
  | FileChosen => isLoading st = false
  | ArgueClicked => isNegotiating st = false ∧ items st ≠ []
  | ExecuteClicked =>
      isExecutingPayment st = false ∧ items st ≠ [] ∧ finalAmounts st ≠ None
  | Person1Typed _ | Person2Typed _ | Person3Typed _ => items st ≠ []
  | UploadAnswered _ | ArgueAnswered _ | ExecuteAnswered _ => True
  end.

(** The states the component can be in. *)
Inductive reachable : State → Prop :=
| reachable_initial : reachable initial
| reachable_step e st : reachable st → offered e st → reachable (handle e st).

(** Lines 306 and 232: the transcript is rendered. *)
Definition transcriptShown (st : State) : bool :=
  bool_decide (0 < length (items st))%nat
  && bool_decide (0 < length (transcript st))%nat.

(** Lines 330 and 232: the final amounts and the "Execute Payment" button
    are rendered. *)
Definition amountsShown (st : State) : bool :=
  bool_decide (0 < length (items st))%nat
  && bool_decide (finalAmounts st ≠ None).

(** Line 363: what "Person 3" is said to receive, before [toFixed(2)]. *)
Definition received (amounts : Amounts) : number :=
  add (person1 amounts) (person2 amounts).

End NegotiationApp.

(** ** More sample bills *)

Module Samples.
Import JsNumber App.

(** Two participants called "Al"; the coffee is assigned to that name and
    "Al" is the payer. *)
Definition alsCoffee : State :=
  mkState [Item.mk "1" (ofZ 1) "Coffee" (ofZ 4) "Al"]
    [Person.mk "1700000000001" "Al"; Person.mk "1700000000002" "Al"]
    "Al" "10" "20" "" false "" false [] false.

(** The coffee-and-muffin bill with " Carol " typed in the name field. *)
Definition carolTyped : State :=
  setNewPersonName " Carol " Examples.coffeeAndMuffin.

(** The coffee-and-muffin bill after a lone dot was committed as the
    price of the coffee. *)
Definition dotCoffee : State := priceOnChange "1" "." Examples.coffeeAndMuffin.

(** The negotiation front end after a receipt with one coffee was
    uploaded and a negotiation on it was answered with 6.00 and 3.24. *)
Definition negotiated : NegotiationApp.State :=
  NegotiationApp.handle
    (NegotiationApp.ArgueAnswered
       (Handlers.Ok true
          (Some (NegotiationApp.mkNegotiation
                   (Some [Negotiation.mkMessage (ofZ 1) "I had the coffee."])
                   (Some (NegotiationApp.mkAmounts (parseFloat "6.00")
                            (parseFloat "3.24")))
                   (parseFloat "9.24")))))
    (NegotiationApp.handle NegotiationApp.ArgueClicked
       (NegotiationApp.handle
          (NegotiationApp.UploadAnswered
             (Handlers.Ok true
                (Some [Item.mk "1" (ofZ 1) "Coffee" (ofZ 4) ""])))
          (NegotiationApp.handle NegotiationApp.FileChosen
             NegotiationApp.initial))).

(** A receipt with a discount line: 0.1 and 0.2 for Alice, -0.3 for
    Bob. *)
Definition discount : State :=
  Examples.billOf
    [Item.mk "1" (ofZ 1) "Tea" (parseFloat "0.1") "Alice";
     Item.mk "2" (ofZ 1) "Milk" (parseFloat "0.2") "Alice";
     Item.mk "3" (ofZ 1) "Voucher" (parseFloat "-0.3") "Bob"] "10" "20".

(** A participant called [__proto__] who has the coffee; Alice paid
    and has the muffin. *)
Definition protoCoffee : State :=
  mkState [Item.mk "1" (ofZ 1) "Coffee" (ofZ 4) "__proto__";
           Item.mk "2" (ofZ 1) "Muffin" (ofZ 3) "Alice"]
    [Examples.alice; Person.mk "1700000000002" "__proto__"]
    "Alice" "10" "20" "" false "" false [] false.

(** Bob paid a coffee that costs nothing; the other participant is
    called [constructor]. *)
Definition constructorOwesNothing : State :=
  mkState [Item.mk "1" (ofZ 1) "Coffee" (ofZ 0) "Bob"]
    [Person.mk "1700000000001" "constructor"; Examples.bob]
    "Bob" "10" "20" "" false "" false [] false.

(** Two participants added within the same millisecond: "Al" and "Bo"
    have the same id, and the coffee is Bo's. *)
Definition sameInstant : State :=
  mkState [Item.mk "1" (ofZ 1) "Coffee" (ofZ 4) "Bo"]
    [Person.mk "1700000000001" "Al"; Person.mk "1700000000001" "Bo"]
    "Bo" "10" "20" "" false "" false [] false.

(** Tea and milk for Alice, a scone for Bob: 0.1, 0.2 and 0.3. *)
Definition threeDecimals : State :=
  Examples.billOf
    [Item.mk "1" (ofZ 1) "Tea" (parseFloat "0.1") "Alice";
     Item.mk "2" (ofZ 1) "Milk" (parseFloat "0.2") "Alice";
     Item.mk "3" (ofZ 1) "Scone" (parseFloat "0.3") "Bob"] "10" "20".

(** Two items of 1e308 each, one for Alice and one for Bob. *)
Definition hugePrices : State :=
  Examples.billOf
    [Item.mk "1" (ofZ 1) "Yacht" (parseFloat "1e308") "Alice";
     Item.mk "2" (ofZ 1) "Jet" (parseFloat "1e308") "Bob"] "10" "20".

(** Three items of 5e-324 each, the smallest positive double, for three
    participants; tax 50 %, no tip. *)
Definition tinyPrices : State :=
  mkState [Item.mk "1" (ofZ 1) "Crumb" (parseFloat "5e-324") "Alice";
           Item.mk "2" (ofZ 1) "Crumb" (parseFloat "5e-324") "Bob";
           Item.mk "3" (ofZ 1) "Crumb" (parseFloat "5e-324") "Carol"]
    [Examples.alice; Examples.bob; Person.mk "1700000000003" "Carol"]
    "Bob" "50" "0" "" false "" false [] false.

End Samples.

(** * Properties *)

(** ** Arithmetic of [number] *)

Module NumberFacts.
Import JsNumber.
Local Open Scope js_scope.

(** [NaN] is absorbing. *)
Lemma add_NaN_l (a : number) : NaN + a = NaN.
Proof. reflexivity. Qed.

Lemma add_NaN_r (a : number) : a + NaN = NaN.
Proof. destruct a; reflexivity. Qed.

Lemma mul_NaN_l (a : number) : NaN * a = NaN.
Proof. reflexivity. Qed.

Lemma mul_NaN_r (a : number) : a * NaN = NaN.
Proof. destruct a; reflexivity. Qed.

Lemma div_NaN_l (a : number) : NaN / a = NaN.
Proof. reflexivity. Qed.

Lemma div_NaN_r (a : number) : a / NaN = NaN.
Proof. destruct a; reflexivity. Qed.

(** Adding to +0, the start value of a [reduce], changes nothing but the
    sign of -0. *)
Lemma add_0_l (a : number) : a ≠ S754_zero true → 0 + a = a.
Proof. destruct a as [[]| | |]; intros Ha; try reflexivity. destruct Ha. reflexivity. Qed.

(** [a === 0] holds of the two zeros only. *)
Lemma strictEq_0_iff (a : number) :
  (a === 0) = true ↔ ∃ s, a = S754_zero s.
Proof.
  destruct a as [s|[]| |[] m e]; cbn; split;
    try discriminate; try (intros [? ?]; discriminate).
  - eauto.
  - reflexivity.
Qed.

Lemma gt_0_not_strictEq_0 (a : number) : gt a 0 = true → (a === 0) = false.
Proof. destruct a as [s|[]| |[] m e]; cbn; congruence. Qed.

(** A number whose sign bit is clear is not below 0. *)
Lemma signClear_not_lt_0 (a : number) : signClear a = true → lt a 0 = false.
Proof. destruct a as [[]|[]| |[] m e]; cbn; congruence. Qed.

(** Shifting a mantissa that is not negative to the right keeps it so. *)
Lemma iter_pos_invariant {A : Type} (P : A → Prop) (f : A → A) :
  (∀ x, P x → P (f x)) → ∀ n x, P x → P (SpecFloat.iter_pos f n x).
Proof.
  intros Hf. induction n as [n IH|n IH|]; intros x Hx; cbn; auto.
Qed.

Lemma shr_1_nonneg (mrs : shr_record) :
  (0 ≤ shr_m mrs)%Z → (0 ≤ shr_m (shr_1 mrs))%Z.
Proof.
  destruct mrs as [[|[p|p|]|p] r s]; cbn; intros H; try lia.
Qed.

Lemma shr_nonneg (mrs : shr_record) (e n : Z) :
  (0 ≤ shr_m mrs)%Z → (0 ≤ shr_m (fst (shr mrs e n)))%Z.
Proof.
  intros H. destruct n as [|p|p]; cbn [shr fst]; try exact H.
  apply (iter_pos_invariant (λ x, (0 ≤ shr_m x)%Z)); [apply shr_1_nonneg|exact H].
Qed.

Lemma shr_fexp_nonneg (m e : Z) (l : location) :
  (0 ≤ m)%Z → (0 ≤ shr_m (fst (shr_fexp prec emax m e l)))%Z.
Proof.
  intros H. unfold shr_fexp. apply shr_nonneg.
  destruct l as [|[]]; exact H.
Qed.

Lemma round_nearest_even_nonneg (m : Z) (l : location) :
  (0 ≤ m)%Z → (0 ≤ round_nearest_even m l)%Z.
Proof.
  intros H. destruct l as [|[]]; cbn; try lia. destruct (Z.even m); lia.
Qed.

(** Rounding a magnitude gives a zero, a finite number or an infinity
    of the sign asked for. *)
Lemma binary_round_aux_sign (s : bool) (m e : Z) (l : location) :
  (0 ≤ m)%Z →
  signClear (binary_round_aux prec emax s m e l) = negb s
  ∧ binary_round_aux prec emax s m e l ≠ NaN.
Proof.
  intros H. unfold binary_round_aux.
  pose proof (shr_fexp_nonneg m e l H) as H1.
  destruct (shr_fexp prec emax m e l) as [mrs1 e1]. cbn [fst] in H1.
  pose proof (shr_fexp_nonneg _ e1 loc_Exact
                (round_nearest_even_nonneg _ (loc_of_shr_record mrs1) H1)) as H2.
  destruct (shr_fexp prec emax _ e1 loc_Exact) as [mrs2 e2]. cbn [fst] in H2.
  destruct (shr_m mrs2) as [|p|p]; [| |lia].
  - split; [reflexivity|discriminate].
  - destruct (e2 <=? emax - prec)%Z; split; (reflexivity || discriminate).
Qed.

Lemma binary_round_sign (s : bool) (m : positive) (e : Z) :
  signClear (binary_round prec emax s m e) = negb s
  ∧ binary_round prec emax s m e ≠ NaN.
Proof.
  unfold binary_round.
  destruct (shl_align m e _) as [mz ez]. apply binary_round_aux_sign. lia.
Qed.

(** The Number value of a natural number has its sign bit clear. *)
Lemma ofZ_signClear (z : Z) : (0 ≤ z)%Z → signClear (ofZ z) = true ∧ ofZ z ≠ NaN.
Proof.
  intros Hz. unfold ofZ, binary_normalize. destruct z as [|p|p]; [| |lia].
  - split; [reflexivity|discriminate].
  - apply (binary_round_sign false).
Qed.

(** Sums, products and quotients of numbers whose sign bit is clear
    have their sign bit clear. *)
Lemma add_signClear (a b : number) :
  signClear a = true → signClear b = true → signClear (a + b) = true.
Proof.
  destruct a as [[]|[]| |[] ma ea]; try discriminate;
    destruct b as [[]|[]| |[] mb eb]; try discriminate; try reflexivity.
  intros _ _. unfold add, SFadd. cbn [cond_Zopp].
  destruct (shl_align ma ea _) as [m1 e1], (shl_align mb eb _) as [m2 e2].
  cbn [fst]. cbn [Z.add binary_normalize].
  apply (binary_round_sign false).
Qed.

Lemma mul_signClear (a b : number) :
  signClear a = true → signClear b = true → signClear (a * b) = true.
Proof.
  destruct a as [[]|[]| |[] ma ea]; try discriminate;
    destruct b as [[]|[]| |[] mb eb]; try discriminate; try reflexivity.
  intros _ _. unfold mul, SFmul. cbn [xorb].
  apply (binary_round_aux_sign false). lia.
Qed.

Lemma div_core_nonneg (m1 m2 : positive) (e1 e2 : Z) :
  (0 ≤ fst (fst (SFdiv_core_binary prec emax (Zpos m1) e1 (Zpos m2) e2)))%Z.
Proof.
  unfold SFdiv_core_binary.
  set (s := (e1 - e2 - _)%Z).
  set (m := match s with Z0 => Zpos m1 | Zpos _ => Z.shiftl (Zpos m1) s
                       | Zneg _ => Z0 end).
  assert (0 ≤ m)%Z as Hm.
  { unfold m. destruct s; [lia| |lia]. apply Z.shiftl_nonneg. lia. }
  pose proof (Z.div_pos m (Zpos m2) Hm ltac:(lia)) as Hq.
  unfold Z.div in Hq. destruct (Z.div_eucl m (Zpos m2)) as [q r]. exact Hq.
Qed.

Lemma div_signClear (a b : number) :
  signClear a = true → signClear b = true → signClear (a / b) = true.
Proof.
  destruct a as [[]|[]| |[] ma ea]; try discriminate;
    destruct b as [[]|[]| |[] mb eb]; try discriminate; try reflexivity.
  intros _ _. unfold div, SFdiv. cbn [xorb].
  pose proof (div_core_nonneg ma mb ea eb) as Hq.
  destruct (SFdiv_core_binary prec emax (Zpos ma) ea (Zpos mb) eb) as [[q e] l].
  apply (binary_round_aux_sign false). exact Hq.
Qed.

(** A quotient of two positive finite numbers is not [NaN]. *)
Lemma div_finite_not_NaN (ma mb : positive) (ea eb : Z) :
  S754_finite false ma ea / S754_finite false mb eb ≠ NaN.
Proof.
  unfold div, SFdiv. cbn [xorb].
  pose proof (div_core_nonneg ma mb ea eb) as Hq.
  destruct (SFdiv_core_binary prec emax (Zpos ma) ea (Zpos mb) eb) as [[q e] l].
  apply (binary_round_aux_sign false). exact Hq.
Qed.

End NumberFacts.

(** ** [trim] *)

Module StringFacts.
Import JsString Spec.

Lemma truthy_true_iff (s : string) : truthy s = true ↔ s ≠ "".
Proof. destruct s; simpl; split; congruence. Qed.

Lemma truthy_false_iff (s : string) : truthy s = false ↔ s = "".
Proof. destruct s; simpl; split; congruence. Qed.

Lemma app_String (c : ascii) (a b : string) :
  String c a +:+ b = String c (a +:+ b).
Proof. reflexivity. Qed.

(** [trimStart] removes a prefix made of white space only. *)
Lemma trimStart_split (s : string) :
  ∃ w, all isWhiteSpace w = true ∧ s = w +:+ trimStart s.
Proof.
  induction s as [|c s [w [Hw Hs]]]; simpl.
  - exists "". split; reflexivity.
  - destruct (isWhiteSpace c) eqn:Hc.
    + exists (String c w). simpl. rewrite Hc, Hw. split; [reflexivity|].
      rewrite app_String, <- Hs. reflexivity.
    + exists "". split; reflexivity.
Qed.

Lemma trimStart_first (s : string) : firstIs isWhiteSpace (trimStart s) = false.
Proof.
  induction s as [|c s IH]; simpl; [reflexivity|].
  destruct (isWhiteSpace c) eqn:Hc; [exact IH|]. simpl. exact Hc.
Qed.

Lemma trimStart_empty_iff (s : string) :
  trimStart s = "" ↔ all isWhiteSpace s = true.
Proof.
  induction s as [|c s IH]; simpl; [tauto|].
  destruct (isWhiteSpace c); simpl; [exact IH|]. split; discriminate.
Qed.

(** [trimEnd] removes a suffix made of white space only. *)
Lemma trimEnd_split (s : string) :
  ∃ w, all isWhiteSpace w = true ∧ s = trimEnd s +:+ w.
Proof.
  induction s as [|c s [w [Hw Hs]]]; simpl.
  - exists "". split; reflexivity.
  - destruct (trimEnd s) as [|d kept] eqn:Hk.
    + destruct (isWhiteSpace c) eqn:Hc.
      * exists (String c w). simpl. rewrite Hc, Hw. split; [reflexivity|].
        rewrite Hs at 1. reflexivity.
      * exists w. split; [exact Hw|]. rewrite app_String, <- Hs. reflexivity.
    + exists w. split; [exact Hw|]. rewrite app_String, <- Hs. reflexivity.
Qed.

Lemma trimEnd_last (s : string) : lastIs isWhiteSpace (trimEnd s) = false.
Proof.
  induction s as [|c s IH]; simpl; [reflexivity|].
  destruct (trimEnd s) as [|d kept] eqn:Hk.
  - destruct (isWhiteSpace c) eqn:Hc; simpl; [reflexivity|exact Hc].
  - exact IH.
Qed.

Lemma trimEnd_empty_iff (s : string) :
  trimEnd s = "" ↔ all isWhiteSpace s = true.
Proof.
  induction s as [|c s IH]; simpl; [tauto|].
  destruct (trimEnd s) as [|d kept] eqn:Hk.
  - destruct (isWhiteSpace c); simpl.
    + split; [intros _; apply IH; reflexivity|reflexivity].
    + split; discriminate.
  - split; [discriminate|].
    rewrite andb_true_iff. intros [_ H]. apply IH in H. discriminate.
Qed.

(** [trimEnd] keeps a first character that is not white space. *)
Lemma trimEnd_first (s : string) :
  firstIs isWhiteSpace s = false → firstIs isWhiteSpace (trimEnd s) = false.
Proof.
  destruct s as [|c s]; simpl; [reflexivity|]. intros Hc.
  destruct (trimEnd s); [rewrite Hc|]; simpl; exact Hc.
Qed.

(** [trim] yields the empty string exactly on white-space-only input. *)
Lemma trim_empty_iff (s : string) :
  trim s = "" ↔ all isWhiteSpace s = true.
Proof.
  unfold trim. rewrite trimEnd_empty_iff, <- (trimStart_empty_iff s).
  pose proof (trimStart_first s) as Hf.
  destruct (trimStart s) as [|c t]; simpl in *; [split; reflexivity|].
  rewrite Hf. simpl. split; discriminate.
Qed.

(** [trim] removes white space on both sides and nothing else. *)
Lemma trim_split (s : string) :
  ∃ w1 w2, all isWhiteSpace w1 = true ∧ all isWhiteSpace w2 = true
           ∧ s = w1 +:+ trim s +:+ w2.
Proof.
  destruct (trimStart_split s) as [w1 [H1 Hs]].
  destruct (trimEnd_split (trimStart s)) as [w2 [H2 Ht]].
  exists w1, w2. repeat split; [exact H1|exact H2|].
  unfold trim. rewrite <- Ht. exact Hs.
Qed.

Lemma trim_first (s : string) : firstIs isWhiteSpace (trim s) = false.
Proof. apply trimEnd_first, trimStart_first. Qed.

Lemma trim_last (s : string) : lastIs isWhiteSpace (trim s) = false.
Proof. apply trimEnd_last. Qed.

End StringFacts.

(** ** Allocation: derived amounts and [calculateOwed] *)

Module Allocation.
Import JsString JsNumber App Spec NumberFacts.
Local Open Scope js_scope.

(** The [reduce] over a list in two parts continues on the second part
    from the sum of the first. *)
Lemma sumPrices_app (l1 l2 : list Item.t) :
  sumPrices (l1 ++ l2)
  = foldl (λ sum item, sum + Item.price item) (sumPrices l1) l2.
Proof. unfold sumPrices. apply foldl_app. Qed.

(** Once [NaN], a running sum stays [NaN]. *)
Lemma foldl_add_NaN (l : list Item.t) :
  foldl (λ sum item, sum + Item.price item) NaN l = NaN.
Proof. induction l as [|i l IH]; [reflexivity|exact IH]. Qed.

(** Lookup in the object built by the [forEach] of [calculateOwed]:
    [__proto__] never becomes a key, every other name does. *)
Lemma lookup_foldl_set (f : string → number) (l : list Person.t)
    (m : JsObject.t) (who : string) :
  foldl (λ (owedMap : JsObject.t) person,
           JsObject.set (Person.name person) (f (Person.name person)) owedMap)
        m l !! who
  = if bool_decide (who ∈ map Person.name l ∧ who ≠ "__proto__")
    then Some (f who) else m !! who.
Proof.
  revert m. induction l as [|p l IH]; intros m; cbn [foldl map].
  - rewrite bool_decide_false; [reflexivity|].
    intros [[]%elem_of_nil _].
  - rewrite IH. clear IH. unfold JsObject.set.
    destruct (decide (who ∈ map Person.name l ∧ who ≠ "__proto__"))
      as [[Hin Hwho]|Hout].
    + rewrite !bool_decide_true; [reflexivity| |].
      * split; [apply list_elem_of_further, Hin|exact Hwho].
      * split; assumption.
    + rewrite (bool_decide_false _ Hout).
      destruct (decide (Person.name p = "__proto__")) as [Hproto|Hproto];
        [rewrite (bool_decide_true _ Hproto)
        |rewrite (bool_decide_false _ Hproto)].
      * rewrite bool_decide_false; [reflexivity|].
        intros [[Heq|Hin]%elem_of_cons Hwho]; [congruence|].
        apply Hout. split; assumption.
      * destruct (decide (who = Person.name p)) as [->|Hne].
        -- rewrite lookup_insert_eq, bool_decide_true; [reflexivity|].
           split; [apply list_elem_of_here|exact Hproto].
        -- rewrite lookup_insert_ne by congruence.
           rewrite bool_decide_false; [reflexivity|].
           intros [[Heq|Hin]%elem_of_cons Hwho]; [exact (Hne Heq)|].
           apply Hout. split; assumption.
Qed.

(** Lookup in the object returned by [calculateOwed] for a subtotal
    that is not a zero. *)
Lemma calculateOwed_lookup (st : State) (who : string) :
  (subtotal st === 0) = false →
  calculateOwed st !! who =
    if bool_decide (who ∈ names st ∧ who ≠ "__proto__")
    then Some (personSubtotal st who + personTaxTipShare st who)
    else None.
Proof.
  intros Hzero. unfold calculateOwed. rewrite Hzero.
  rewrite (lookup_foldl_set
             (λ n, personSubtotal st n + personTaxTipShare st n)).
  rewrite lookup_empty. reflexivity.
Qed.

(** C1, as the code has it. [calculateOwed] returns the empty object when
    [subtotal === 0], which holds of +0 and -0 only, so that it never
    divides by a zero; otherwise, [__proto__] apart, the keys of the
    object are the participants' names - one entry per name, however many
    participants have it - and the entry of a name is
    personSubtotal + (personSubtotal / subtotal) × (taxAmount + tipAmount)
    in double arithmetic, personSubtotal being the [reduce] from 0, in
    item order, over the prices of the items assigned to that name. *)
Theorem calculateOwed_entries (st : State) :
  let sum := foldl (λ sum item, sum + Item.price item) 0 in
  if sum (items st) === 0 then calculateOwed st = ∅
  else
    (∀ s, sum (items st) ≠ S754_zero s)
    ∧ ∀ who, who ≠ "__proto__" →
        calculateOwed st !! who =
          if bool_decide (who ∈ names st)
          then
            let personSubtotal :=
              sum (filter (λ item, Item.assignedTo item = who) (items st)) in
            Some (personSubtotal
                  + personSubtotal / sum (items st)
                    * (taxAmount st + tipAmount st))
          else None.
Proof.
  cbv zeta. fold (sumPrices (items st)). fold (subtotal st).
  destruct (subtotal st === 0) eqn:Hzero.
  { unfold calculateOwed. rewrite Hzero. reflexivity. }
  split.
  - intros s Hs. rewrite Hs in Hzero. destruct s; discriminate Hzero.
  - intros who Hwho. rewrite (calculateOwed_lookup st who Hzero).
    destruct (decide (who ∈ names st)) as [Hin|Hout].
    + rewrite !bool_decide_true by auto. reflexivity.
    + rewrite !bool_decide_false by tauto. reflexivity.
Qed.

(** On the receipt with a discount line the subtotal is 2^-54, not a
    zero, and the object has two entries: 0.3960000000000001 for Alice
    and -0.396 for Bob. *)
Lemma calculateOwed_entries_example :
  calculateOwed Samples.discount !! "Alice"
  = Some (S754_finite false 7133701809754867 (-54))
  ∧ calculateOwed Samples.discount !! "Bob"
    = Some (S754_finite true 7133701809754866 (-54))
  ∧ calculateOwed Samples.discount !! "Carol" = None.
Proof.
  pose proof (calculateOwed_entries Samples.discount) as H.
  cbv zeta in H.
  replace (foldl (λ sum item, sum + Item.price item) 0
             (items Samples.discount) === 0) with false in H
    by (vm_compute; reflexivity).
  destruct H as [_ H]. split_and!.
  - rewrite (H "Alice") by discriminate. vm_compute. reflexivity.
  - rewrite (H "Bob") by discriminate. vm_compute. reflexivity.
  - rewrite (H "Carol") by discriminate. vm_compute. reflexivity.
Defined.

(** C1 as stated fails: with two participants called "Al" the object
    has one entry, not one per participant. *)
Lemma namesakes_share_one_entry :
  length (people Samples.alsCoffee) = 2%nat
  ∧ (subtotal Samples.alsCoffee === 0) = false
  ∧ size (calculateOwed Samples.alsCoffee) = 1%nat.
Proof. vm_compute. auto. Qed.

(** C3, as the code has it. subtotal is the [reduce] of the item prices
    from 0, taxAmount is subtotal × (taxPercent / 100), tipAmount is
    (subtotal + taxAmount) × (tipPercent / 100) - so the tip is charged on
    the tax as well - and total is (subtotal + taxAmount) + tipAmount,
    every operation rounded to the nearest double. The percentages are
    the numbers [parseFloat] reads from the two text fields, an empty field
    counting as 0. On the example of the specification (prices 4 and 3,
    tax 10, tip 20) the subtotal is 7, the tax 0.7000000000000001, the tip
    1.54, which is not 7 × 0.2, and the total 9.24. *)
Theorem derived_amounts (st : State) :
  let taxRate := parseFloat (orElse (taxPercent st) "0") in
  let tipRate := parseFloat (orElse (tipPercent st) "0") in
  subtotal st = foldl (λ sum item, sum + Item.price item) 0 (items st)
  ∧ taxAmount st = subtotal st * (taxRate / 100)
  ∧ tipAmount st = (subtotal st + taxAmount st) * (tipRate / 100)
  ∧ total st = subtotal st + taxAmount st + tipAmount st
  ∧ (map Item.price (items st) = [ofZ 4; ofZ 3] →
     taxPercent st = "10" → tipPercent st = "20" →
     subtotal st = S754_finite false 7881299347898368 (-50)
     ∧ taxAmount st = S754_finite false 6305039478318695 (-53)
     ∧ tipAmount st = S754_finite false 6935543426150564 (-52)
     ∧ tipAmount st ≠ subtotal st * (tipRate / 100)
     ∧ total st = S754_finite false 5201657569612923 (-49)).
Proof.
  cbv zeta. split_and!; try reflexivity.
  intros Hprices Htax Htip.
  assert (subtotal st = S754_finite false 7881299347898368 (-50)) as Hsub.
  { unfold subtotal, sumPrices.
    destruct (items st) as [|i1 [|i2 [|i3 l]]]; try discriminate Hprices.
    injection Hprices as H1 H2. cbn [foldl]. rewrite H1, H2.
    vm_compute. reflexivity. }
  unfold total, tipAmount, taxAmount. rewrite Hsub, Htax, Htip.
  split_and!; try (vm_compute; reflexivity).
  vm_compute. discriminate.
Qed.

(** C3 as stated fails. On the example of the specification the subtotal
    is 7 and the tax percentage 10, but the tax the code computes is not
    7 × 10 / 100: it exceeds 0.7, and it differs from the double nearest
    to 0.7, which is what (7 × 10) / 100 gives in double arithmetic. *)
Lemma tax_is_not_the_decimal_product :
  subtotal Examples.coffeeAndMuffin = ofZ 7
  ∧ parseFloat (orElse (taxPercent Examples.coffeeAndMuffin) "0") = ofZ 10
  ∧ match exact (taxAmount Examples.coffeeAndMuffin) with
    | Some tax => (7 * 10 / 100 < tax)%Q
    | None => False
    end
  ∧ ofZ 7 * ofZ 10 / 100 = parseFloat "0.7"
  ∧ (taxAmount Examples.coffeeAndMuffin === parseFloat "0.7") = false.
Proof. vm_compute. auto. Qed.

End Allocation.

(** * Rounding: the operations on doubles against the exact ones *)

Module RoundingFacts.
Import Rounding.
Local Open Scope R_scope.
Local Abbreviation prec := JsNumber.prec.
Local Abbreviation emax := JsNumber.emax.
Local Abbreviation add := JsNumber.add.
Local Abbreviation mul := JsNumber.mul.
Local Abbreviation div := JsNumber.div.

Lemma pow2_pos (e : Z) : 0 < pow2 e.
Proof. apply powerRZ_lt. lra. Qed.

Lemma pow2_add (a b : Z) : pow2 (a + b) = pow2 a * pow2 b.
Proof. apply powerRZ_add. lra. Qed.

Lemma pow2_succ (e : Z) : pow2 (e + 1) = 2 * pow2 e.
Proof. rewrite pow2_add. unfold pow2 at 2. simpl. lra. Qed.

Lemma pow2_IZR (k : Z) : (0 <= k)%Z → pow2 k = IZR (2 ^ k).
Proof.
  intros Hk. unfold pow2. destruct k as [|p|p]; [reflexivity| |lia].
  unfold powerRZ. rewrite pow_IZR, positive_nat_Z. reflexivity.
Qed.

Lemma pow2_ge_1 (k : Z) : (0 <= k)%Z → 1 <= pow2 k.
Proof.
  intros Hk. rewrite (pow2_IZR k Hk). apply IZR_le.
  pose proof (Z.pow_pos_nonneg 2 k ltac:(lia) Hk). lia.
Qed.

Lemma pow2_le (a b : Z) : (a <= b)%Z → pow2 a <= pow2 b.
Proof.
  intros Hab. replace b with (a + (b - a))%Z by lia. rewrite pow2_add.
  pose proof (pow2_ge_1 (b - a) ltac:(lia)). pose proof (pow2_pos a). nra.
Qed.

Lemma pow2_lt (a b : Z) : (a < b)%Z → pow2 a < pow2 b.
Proof.
  intros Hab. replace b with (a + 1 + (b - a - 1))%Z by lia.
  rewrite pow2_add, pow2_succ.
  pose proof (pow2_ge_1 (b - a - 1) ltac:(lia)). pose proof (pow2_pos a). nra.
Qed.

Lemma inbetween_bounds (m e : Z) (l : location) (x : R) :
  inbetween m e l x → IZR m * pow2 e <= x < (IZR m + 1) * pow2 e.
Proof.
  pose proof (pow2_pos e). destruct l as [|[]]; cbn; intros; nra.
Qed.

Lemma shr_1_inbetween (mrs : shr_record) (e : Z) (x : R) :
  (0 <= shr_m mrs)%Z →
  inbetween (shr_m mrs) e (loc_of_shr_record mrs) x →
  (0 <= shr_m (shr_1 mrs))%Z
  ∧ inbetween (shr_m (shr_1 mrs)) (e + 1) (loc_of_shr_record (shr_1 mrs)) x.
Proof.
  intros Hm. pose proof (pow2_pos e) as He.
  destruct mrs as [m r s]. cbn [shr_m] in *.
  destruct m as [|[p|p|]|p]; [| | | |lia].
  - destruct r, s; unfold inbetween; cbn [shr_1 shr_m loc_of_shr_record orb];
      rewrite ?pow2_succ; intros H; (split; [lia|]); nra.
  - assert (IZR (Z.pos p~1) = 2 * IZR (Z.pos p) + 1) as Heq
      by (rewrite <- mult_IZR, <- plus_IZR; f_equal).
    destruct r, s; unfold inbetween; cbn [shr_1 shr_m loc_of_shr_record orb];
      rewrite ?Heq, ?pow2_succ; intros H; (split; [lia|]); nra.
  - assert (IZR (Z.pos p~0) = 2 * IZR (Z.pos p)) as Heq
      by (rewrite <- mult_IZR; f_equal).
    destruct r, s; unfold inbetween; cbn [shr_1 shr_m loc_of_shr_record orb];
      rewrite ?Heq, ?pow2_succ; intros H; (split; [lia|]); nra.
  - destruct r, s; unfold inbetween; cbn [shr_1 shr_m loc_of_shr_record orb];
      rewrite ?pow2_succ; intros H; (split; [lia|]); nra.
Qed.

Lemma iter_shr_1_inbetween (p : positive) :
  ∀ (mrs : shr_record) (e : Z) (x : R),
    (0 <= shr_m mrs)%Z →
    inbetween (shr_m mrs) e (loc_of_shr_record mrs) x →
    (0 <= shr_m (SpecFloat.iter_pos shr_1 p mrs))%Z
    ∧ inbetween (shr_m (SpecFloat.iter_pos shr_1 p mrs)) (e + Zpos p)
        (loc_of_shr_record (SpecFloat.iter_pos shr_1 p mrs)) x.
Proof.
  induction p as [p IH|p IH|]; intros mrs e x Hm Hx; cbn [SpecFloat.iter_pos].
  - destruct (shr_1_inbetween mrs e x Hm Hx) as [Hm1 Hx1].
    destruct (IH _ _ _ Hm1 Hx1) as [Hm2 Hx2].
    destruct (IH _ _ _ Hm2 Hx2) as [Hm3 Hx3].
    split; [exact Hm3|].
    replace (e + Z.pos p~1)%Z with (e + 1 + Z.pos p + Z.pos p)%Z by lia.
    exact Hx3.
  - destruct (IH _ _ _ Hm Hx) as [Hm2 Hx2].
    destruct (IH _ _ _ Hm2 Hx2) as [Hm3 Hx3].
    split; [exact Hm3|].
    replace (e + Z.pos p~0)%Z with (e + Z.pos p + Z.pos p)%Z by lia.
    exact Hx3.
  - apply shr_1_inbetween; assumption.
Qed.

Lemma loc_of_record_of_loc (m : Z) (l : location) :
  loc_of_shr_record (shr_record_of_loc m l) = l
  ∧ shr_m (shr_record_of_loc m l) = m.
Proof. destruct l as [|[]]; split; reflexivity. Qed.

(** Shifting right by [n] places, or not at all when [n] is not positive. *)
Lemma shr_inbetween (m e n : Z) (l : location) (x : R) :
  (0 <= m)%Z → inbetween m e l x →
  let '(mrs, e') := shr (shr_record_of_loc m l) e n in
  (0 <= shr_m mrs)%Z
  ∧ e' = (e + Z.max n 0)%Z
  ∧ inbetween (shr_m mrs) e' (loc_of_shr_record mrs) x
  ∧ ((n <= 0)%Z → shr_m mrs = m ∧ loc_of_shr_record mrs = l).
Proof.
  intros Hm Hx.
  destruct (loc_of_record_of_loc m l) as [Hl Hmm].
  unfold shr. destruct n as [|p|p].
  - rewrite Hl, Hmm. replace (e + Z.max 0 0)%Z with e by lia. auto.
  - destruct (iter_shr_1_inbetween p (shr_record_of_loc m l) e x) as [H1 H2].
    + rewrite Hmm. exact Hm.
    + rewrite Hl, Hmm. exact Hx.
    + replace (e + Z.max (Z.pos p) 0)%Z with (e + Z.pos p)%Z by lia.
      split; [exact H1|]. split; [reflexivity|]. split; [exact H2|lia].
  - rewrite Hl, Hmm. replace (e + Z.max (Z.neg p) 0)%Z with e by lia. auto.
Qed.

Lemma round_nearest_even_spec (m e : Z) (l : location) (x : R) :
  inbetween m e l x →
  Rabs (IZR (round_nearest_even m l) * pow2 e - x) <= / 2 * pow2 e
  ∧ (m <= round_nearest_even m l <= m + 1)%Z
  ∧ (l = loc_Exact → round_nearest_even m l = m).
Proof.
  pose proof (pow2_pos e) as He. intros Hx.
  destruct l as [|[]]; cbn [round_nearest_even inbetween] in *.
  - split; [|split; [lia|reflexivity]]. rewrite Hx.
    replace (IZR m * pow2 e - IZR m * pow2 e) with 0 by lra.
    rewrite Rabs_R0. lra.
  - split; [|split; [destruct (Z.even m); lia|discriminate]].
    destruct (Z.even m); rewrite ?plus_IZR; apply Rabs_le; nra.
  - split; [|split; [lia|discriminate]]. apply Rabs_le. nra.
  - split; [|split; [lia|discriminate]]. rewrite plus_IZR. apply Rabs_le. nra.
Qed.

(** The number of binary digits. *)
Lemma digits2_pos_spec (p : positive) :
  (2 ^ (Zpos (digits2_pos p) - 1) <= Zpos p < 2 ^ Zpos (digits2_pos p))%Z.
Proof.
  induction p as [p IH|p IH|]; cbn [digits2_pos].
  - rewrite Pos2Z.inj_succ.
    replace (Z.succ (Z.pos (digits2_pos p)) - 1)%Z
      with (Z.succ (Z.pos (digits2_pos p) - 1)) by lia.
    rewrite !Z.pow_succ_r by lia. lia.
  - rewrite Pos2Z.inj_succ.
    replace (Z.succ (Z.pos (digits2_pos p)) - 1)%Z
      with (Z.succ (Z.pos (digits2_pos p) - 1)) by lia.
    rewrite !Z.pow_succ_r by lia. lia.
  - cbn. lia.
Qed.

Lemma Zdigits2_nonneg (m : Z) : (0 <= Zdigits2 m)%Z.
Proof. destruct m; cbn; lia. Qed.

Lemma Zdigits2_spec (m : Z) :
  (0 < m)%Z → pow2 (Zdigits2 m - 1) <= IZR m < pow2 (Zdigits2 m).
Proof.
  intros Hm. destruct m as [|p|p]; try lia. cbn [Zdigits2].
  pose proof (digits2_pos_spec p) as [H1 H2].
  rewrite !pow2_IZR by lia. split; [apply IZR_le|apply IZR_lt]; assumption.
Qed.

Lemma Zdigits2_upper (m : Z) : (0 <= m)%Z → IZR m < pow2 (Zdigits2 m).
Proof.
  intros Hm. destruct (Z.eq_dec m 0)%Z as [->|Hne].
  - cbn. lra.
  - apply Zdigits2_spec. lia.
Qed.

(** An integer below [2^k] has at most [k] digits. *)
Lemma Zdigits2_le (m k : Z) :
  (0 <= m)%Z → (0 <= k)%Z → IZR m < pow2 k → (Zdigits2 m <= k)%Z.
Proof.
  intros Hm Hk Hlt. destruct (Z.eq_dec m 0)%Z as [->|Hne]; [exact Hk|].
  destruct (Zdigits2_spec m ltac:(lia)) as [Hlow _].
  destruct (Z_lt_le_dec k (Zdigits2 m))%Z as [Hgt|]; [|assumption].
  pose proof (pow2_le k (Zdigits2 m - 1) ltac:(lia)). lra.
Qed.

Lemma Rabs_bound (a b : R) : Rabs a <= b → - b <= a <= b.
Proof. unfold Rabs. destruct (Rcase_abs a); lra. Qed.

Lemma u_pos : 0 < u.
Proof. apply pow2_pos. Qed.

Lemma eta_pos : 0 < eta.
Proof. apply pow2_pos. Qed.

Lemma fexp_eq (k : Z) : fexp prec emax k = Z.max (k - 53) (-1074).
Proof. reflexivity. Qed.

(** Half a unit in the last place of the target format is within the
    relative and absolute error bounds. *)
Lemma half_ulp_bound (m e : Z) (x : R) :
  (0 <= m)%Z → IZR m * pow2 e <= x →
  (e <= fexp prec emax (Zdigits2 m + e))%Z →
  / 2 * pow2 (fexp prec emax (Zdigits2 m + e)) <= u * x + eta.
Proof.
  intros Hm Hx Hn. rewrite fexp_eq in *.
  pose proof u_pos as Hu. pose proof eta_pos as Heta.
  pose proof (pow2_pos e) as He.
  assert (0 <= x) as Hx0.
  { apply Rle_trans with (2 := Hx). apply Rmult_le_pos; [apply IZR_le; lia|lra]. }
  destruct (Z.max_spec (Zdigits2 m + e - 53) (-1074))%Z as [[Hlt ->]|[Hge ->]].
  - replace (-1074)%Z with (-1075 + 1)%Z by lia. rewrite pow2_succ.
    fold eta. nra.
  - destruct (Z.eq_dec m 0)%Z as [->|Hne]; [cbn in *; lia|].
    destruct (Zdigits2_spec m ltac:(lia)) as [Hlow _].
    replace (Zdigits2 m + e - 53)%Z with (-53 + ((Zdigits2 m - 1) + e) + 1)%Z
      by lia.
    rewrite pow2_succ, !pow2_add. fold u.
    assert (pow2 (Zdigits2 m - 1) * pow2 e <= x) by nra.
    nra.
Qed.

Lemma Zdigits2_pow53 : Zdigits2 (2 ^ 53) = 54%Z.
Proof. reflexivity. Qed.

Lemma roundError_nonneg (m e : Z) (l : location) : 0 <= roundError m e l.
Proof.
  unfold roundError.
  pose proof (pow2_pos (fexp prec emax (Zdigits2 m + e))).
  destruct l as [|c]; [destruct (_ <=? _)%Z|]; lra.
Qed.

(** Rounding a position to the format: the result is an infinity only
    for a large magnitude, and otherwise a finite number within the
    rounding error. *)
Lemma round_aux_spec (m e : Z) (l : location) (x : R) :
  (0 <= m)%Z → inbetween m e l x →
  l = loc_Exact ∨ (e <= fexp prec emax (Zdigits2 m + e))%Z →
  (binary_round_aux prec emax false m e l = S754_infinity false
   ∧ pow2 972 <= x + roundError m e l)
  ∨ (nonnegFinite (binary_round_aux prec emax false m e l)
     ∧ Rabs (realOf (binary_round_aux prec emax false m e l) - x)
       <= roundError m e l).
Proof.
  intros Hm Hx Hprecise.
  pose proof (pow2_pos e) as He.
  pose proof (inbetween_bounds m e l x Hx) as [Hxlow Hxhigh].
  assert (0 <= x) as Hx0.
  { apply Rle_trans with (2 := Hxlow).
    apply Rmult_le_pos; [apply IZR_le; lia|lra]. }
  unfold binary_round_aux, shr_fexp, roundError.
  set (t := fexp prec emax (Zdigits2 m + e)).
  assert (-1074 <= t)%Z as Htmin by (unfold t; rewrite fexp_eq; clear; lia).
  pose proof (shr_inbetween m e (t - e) l x Hm Hx) as Hshift.
  destruct (shr (shr_record_of_loc m l) e (t - e)) as [mrs1 e1].
  destruct Hshift as (Hm1 & He1 & Hx1 & Hsame).
  set (m1 := shr_m mrs1) in *. set (l1 := loc_of_shr_record mrs1) in *.
  destruct (round_nearest_even_spec m1 e1 l1 x Hx1) as (Herr & Hm2 & Hexact).
  set (m2 := round_nearest_even m1 l1) in *.
  pose proof (pow2_pos e1) as He1pos.
  pose proof (pow2_pos t) as Htpos.
  (* the error of the first rounding *)
  assert (Rabs (IZR m2 * pow2 e1 - x)
          <= match l with
             | loc_Exact => if (t <=? e)%Z then 0 else / 2 * pow2 t
             | _ => / 2 * pow2 t
             end) as Herror.
  { assert (l = loc_Exact → (t <= e)%Z → Rabs (IZR m2 * pow2 e1 - x) <= 0)
      as Hnone.
    { intros -> Hte. destruct (Hsame ltac:(lia)) as [Hmm Hll]. fold l1 in Hll.
      rewrite (Hexact Hll). rewrite Hll in Hx1. cbn in Hx1. rewrite Hx1.
      replace (IZR m1 * pow2 e1 - IZR m1 * pow2 e1) with 0 by lra.
      rewrite Rabs_R0. lra. }
    assert ((e <= t)%Z → Rabs (IZR m2 * pow2 e1 - x) <= / 2 * pow2 t) as Hhalf.
    { intros Het. replace t with e1 by lia. exact Herr. }
    destruct l as [|c].
    - destruct (t <=? e)%Z eqn:Hte.
      + apply Hnone; [reflexivity|]. apply Z.leb_le, Hte.
      + apply Hhalf. apply Z.leb_gt in Hte. lia.
    - apply Hhalf. destruct Hprecise as [Hl|Hle]; [discriminate Hl|].
      fold t in Hle. exact Hle. }
  (* the second shift changes nothing, or halves 2^53 *)
  set (n2 := (fexp prec emax (Zdigits2 m2 + e1) - e1)%Z).
  assert (0 <= m2)%Z as Hm2nonneg by lia.
  assert ((n2 <= 0)%Z ∨ (n2 = 1%Z ∧ m2 = (2 ^ 53)%Z)) as Hn2.
  { destruct (Z_lt_le_dec (t - e) 0)%Z as [Hneg|Hnonneg].
    - left. destruct Hprecise as [->|Hle]; [|fold t in Hle; lia].
      destruct (Hsame ltac:(lia)) as [Hmm Hll]. fold l1 in Hll. fold m1 in Hmm.
      unfold n2. rewrite (Hexact Hll), Hmm.
      replace e1 with e by lia. fold t. lia.
    - assert (e1 = t) as Het by lia.
      assert (IZR m1 < pow2 53) as Hm1small.
      { pose proof (inbetween_bounds m1 e1 l1 x Hx1) as [Hlow1 _].
        pose proof (Zdigits2_upper m Hm) as Hdig.
        assert (IZR m + 1 <= pow2 (Zdigits2 m)) as Hdig1.
        { rewrite pow2_IZR by apply Zdigits2_nonneg.
          rewrite pow2_IZR in Hdig by apply Zdigits2_nonneg.
          apply lt_IZR in Hdig. rewrite <- plus_IZR. apply IZR_le. lia. }
        assert (x < pow2 (Zdigits2 m + e)) as Hxd
          by (rewrite pow2_add; nra).
        assert (pow2 (Zdigits2 m + e) <= pow2 (e1 + 53)) as Hde.
        { apply pow2_le. rewrite Het. unfold t. rewrite fexp_eq.
          clear. lia. }
        rewrite (pow2_add e1 53) in Hde.
        apply Rmult_lt_reg_l with (pow2 e1); [exact He1pos|]. lra. }
      assert (m1 < 2 ^ 53)%Z as Hm1Z.
      { apply lt_IZR. rewrite <- pow2_IZR by lia. exact Hm1small. }
      destruct (Z.eq_dec m2 (2 ^ 53))%Z as [Heq|Hne].
      + right. split; [|exact Heq]. unfold n2. rewrite Heq, Zdigits2_pow53.
        rewrite fexp_eq. lia.
      + left. unfold n2. rewrite fexp_eq.
        assert (Zdigits2 m2 <= 53)%Z.
        { apply Zdigits2_le; [exact Hm2nonneg|lia|].
          rewrite pow2_IZR by lia. apply IZR_lt. lia. }
        lia. }
  fold n2.
  (* the value after the second shift *)
  assert (∃ m3 e3, shr (shr_record_of_loc m2 loc_Exact) e1 n2 = (m3, e3)
                   ∧ (0 <= shr_m m3)%Z
                   ∧ (e1 <= e3)%Z
                   ∧ IZR (shr_m m3) * pow2 e3 = IZR m2 * pow2 e1) as Hsecond.
  { destruct Hn2 as [Hle|[Hone Hbig]].
    - pose proof (shr_inbetween m2 e1 n2 loc_Exact (IZR m2 * pow2 e1)
                    Hm2nonneg eq_refl) as Hshift2.
      destruct (shr (shr_record_of_loc m2 loc_Exact) e1 n2) as [mrs2 e2].
      destruct Hshift2 as (Hm3 & He2 & _ & Hsame2).
      destruct (Hsame2 Hle) as [Hmm _].
      exists mrs2, e2. split; [reflexivity|]. split; [exact Hm3|].
      split; [lia|].
      rewrite Hmm. replace e2 with e1 by lia. reflexivity.
    - rewrite Hone, Hbig.
      change (2 ^ 53)%Z with 9007199254740992%Z.
      exists (Build_shr_record 4503599627370496 false false), (e1 + 1)%Z.
      split; [reflexivity|]. cbn [shr_m]. split; [lia|]. split; [lia|].
      rewrite pow2_succ.
      replace (IZR 9007199254740992) with (2 * IZR 4503599627370496)
        by (rewrite <- mult_IZR; f_equal).
      lra. }
  destruct Hsecond as (mrs3 & e3 & -> & Hm3 & He3 & Hvalue).
  assert (-1074 <= e3)%Z as He3min.
  { destruct (Z_lt_le_dec (t - e) 0)%Z as [Hneg|Hnonneg]; lia. }
  destruct (shr_m mrs3) as [|p|p] eqn:Hp; [| |lia].
  - right. split; [left; eauto|].
    cbn [realOf]. rewrite <- Hvalue in Herror.
    replace (IZR 0 * pow2 e3) with 0 in Herror by lra. exact Herror.
  - destruct (e3 <=? emax - prec)%Z eqn:Hfit.
    + right. split; [right; eauto|]. cbn [realOf].
      rewrite <- Hvalue in Herror.
      replace (1 * IZR (Z.pos p) * pow2 e3) with (IZR (Z.pos p) * pow2 e3)
        by lra.
      exact Herror.
    + left. split; [reflexivity|].
      apply Z.leb_gt in Hfit. unfold emax, prec in Hfit.
      rewrite <- Hvalue in Herror.
      assert (pow2 972 <= IZR (Z.pos p) * pow2 e3) as Hbig.
      { pose proof (pow2_le 972 e3 ltac:(lia)).
        pose proof (pow2_pos e3).
        assert (1 <= IZR (Z.pos p)) by (apply IZR_le; lia). nra. }
      apply Rabs_bound in Herror. lra.
Qed.

(** On an exact input whose exponent is in range the error is relative;
    in general it is relative up to the underflow threshold. *)
Lemma roundError_exact (m e : Z) (x : R) :
  (0 <= m)%Z → IZR m * pow2 e <= x → (-1074 <= e)%Z →
  roundError m e loc_Exact <= u * x.
Proof.
  intros Hm Hx He. unfold roundError.
  pose proof u_pos. pose proof (pow2_pos e).
  assert (0 <= x) as Hx0.
  { apply Rle_trans with (2 := Hx). apply Rmult_le_pos; [apply IZR_le; lia|lra]. }
  destruct (_ <=? e)%Z eqn:Hte; [nra|]. apply Z.leb_gt in Hte.
  rewrite fexp_eq in *.
  replace (Z.max (Zdigits2 m + e - 53) (-1074)) with (Zdigits2 m + e - 53)%Z
    in * by lia.
  destruct (Z.eq_dec m 0)%Z as [->|Hne]; [cbn in Hte; lia|].
  destruct (Zdigits2_spec m ltac:(lia)) as [Hlow _].
  replace (Zdigits2 m + e - 53)%Z with (-53 + ((Zdigits2 m - 1) + e) + 1)%Z
    by lia.
  rewrite pow2_succ, !pow2_add. fold u.
  assert (pow2 (Zdigits2 m - 1) * pow2 e <= x) by nra.
  nra.
Qed.

Lemma roundError_any (m e : Z) (l : location) (x : R) :
  (0 <= m)%Z → IZR m * pow2 e <= x →
  l = loc_Exact ∨ (e <= fexp prec emax (Zdigits2 m + e))%Z →
  roundError m e l <= u * x + eta.
Proof.
  intros Hm Hx Hprecise. pose proof u_pos. pose proof eta_pos.
  pose proof (pow2_pos e).
  assert (0 <= x) as Hx0.
  { apply Rle_trans with (2 := Hx). apply Rmult_le_pos; [apply IZR_le; lia|lra]. }
  assert ((e <= fexp prec emax (Zdigits2 m + e))%Z →
          / 2 * pow2 (fexp prec emax (Zdigits2 m + e)) <= u * x + eta) as Hhalf
    by (intros Hle; apply half_ulp_bound; assumption).
  unfold roundError. destruct l as [|c].
  - destruct (_ <=? e)%Z eqn:Hte; [nra|]. apply Z.leb_gt in Hte.
    apply Hhalf. lia.
  - apply Hhalf. destruct Hprecise as [Hl|Hle]; [discriminate Hl|exact Hle].
Qed.

Lemma realOf_nonneg (a : spec_float) : nonnegFinite a → 0 <= realOf a.
Proof.
  intros [[s ->]|(m & e & -> & _)]; cbn [realOf]; [lra|].
  pose proof (pow2_pos e). assert (1 <= IZR (Z.pos m)) by (apply IZR_le; lia).
  nra.
Qed.

Lemma iter_xO (m d : positive) :
  Z.pos (Pos.iter xO m d) = (Z.pos m * 2 ^ Z.pos d)%Z.
Proof.
  induction d as [|d IH] using Pos.peano_ind.
  - cbn [Pos.iter]. lia.
  - rewrite Pos.iter_succ, Pos2Z.inj_succ, Z.pow_succ_r by lia.
    rewrite Pos2Z.inj_xO, IH. lia.
Qed.

Lemma shl_align_spec (mx : positive) (ex ex' : Z) :
  IZR (Z.pos (fst (shl_align mx ex ex'))) * pow2 (snd (shl_align mx ex ex'))
  = IZR (Z.pos mx) * pow2 ex
  ∧ snd (shl_align mx ex ex') = Z.min ex ex'.
Proof.
  unfold shl_align. destruct (ex' - ex)%Z as [|d|d] eqn:Hd; cbn [fst snd].
  - split; [reflexivity|lia].
  - split; [reflexivity|lia].
  - split; [|lia]. rewrite iter_xO, mult_IZR, <- pow2_IZR by lia.
    replace ex with (Z.pos d + ex')%Z by lia. rewrite pow2_add. lra.
Qed.

Lemma rounds_exact (r : spec_float) (slack : R) :
  nonnegFinite r → 0 <= slack → rounds r (realOf r) slack.
Proof.
  intros Hr Hslack. right. split; [exact Hr|].
  replace (realOf r - realOf r) with 0 by lra. rewrite Rabs_R0.
  pose proof (realOf_nonneg r Hr). pose proof u_pos. nra.
Qed.

Lemma binary_round_spec (m : positive) (e : Z) :
  (-1074 <= e)%Z →
  rounds (binary_round prec emax false m e) (IZR (Z.pos m) * pow2 e) 0.
Proof.
  intros He. unfold binary_round.
  pose proof (shl_align_spec m e (fexp prec emax (Z.pos (digits2_pos m) + e)))
    as [Hvalue Hexp].
  destruct (shl_align m e _) as [mz ez]. cbn [fst snd] in Hvalue, Hexp.
  assert (-1074 <= ez)%Z as Hez.
  { rewrite Hexp, fexp_eq. lia. }
  pose proof (round_aux_spec (Z.pos mz) ez loc_Exact (IZR (Z.pos m) * pow2 e)
                ltac:(lia) (eq_sym Hvalue) (or_introl eq_refl)) as Hround.
  pose proof (roundError_exact (Z.pos mz) ez (IZR (Z.pos m) * pow2 e)
                ltac:(lia) ltac:(rewrite Hvalue; lra) Hez) as Herr.
  destruct Hround as [[Hinf Hbig]|[Hfin Hclose]].
  - left. split; [exact Hinf|]. lra.
  - right. split; [exact Hfin|]. lra.
Qed.

Lemma add_spec (a b : spec_float) :
  nonnegFinite a → nonnegFinite b →
  rounds (add a b) (realOf a + realOf b) 0.
Proof.
  intros Ha Hb.
  destruct Ha as [[sa ->]|(ma & ea & -> & Hea)].
  - destruct Hb as [[sb ->]|(mb & eb & -> & Heb)].
    + replace (realOf (S754_zero sa) + realOf (S754_zero sb))
        with (realOf (add (S754_zero sa) (S754_zero sb)))
        by (destruct sa, sb; cbn; lra).
      apply rounds_exact; [|lra]. left. destruct sa, sb; cbn; eauto.
    + change (add (S754_zero sa) (S754_finite false mb eb))
        with (S754_finite false mb eb).
      cbn [realOf]. rewrite Rplus_0_l.
      apply (rounds_exact (S754_finite false mb eb)); [right; eauto|lra].
  - destruct Hb as [[sb ->]|(mb & eb & -> & Heb)].
    + change (add (S754_finite false ma ea) (S754_zero sb))
        with (S754_finite false ma ea).
      cbn [realOf]. rewrite Rplus_0_r.
      apply (rounds_exact (S754_finite false ma ea)); [right; eauto|lra].
    + unfold add, SFadd. cbn zeta.
      pose proof (shl_align_spec ma ea (Z.min ea eb)) as [Hva Hxa].
      pose proof (shl_align_spec mb eb (Z.min ea eb)) as [Hvb Hxb].
      destruct (shl_align ma ea (Z.min ea eb)) as [ma' ea'].
      destruct (shl_align mb eb (Z.min ea eb)) as [mb' eb'].
      cbn [fst snd cond_Zopp] in *.
      change (Z.pos ma' + Z.pos mb')%Z with (Z.pos (ma' + mb')).
      cbn [binary_normalize].
      replace (realOf (S754_finite false ma ea) + realOf (S754_finite false mb eb))
        with (IZR (Z.pos (ma' + mb')) * pow2 (Z.min ea eb)).
      * apply binary_round_spec. lia.
      * cbn [realOf]. rewrite Pos2Z.inj_add, plus_IZR.
        replace ea' with (Z.min ea eb) in Hva by lia.
        replace eb' with (Z.min ea eb) in Hvb by lia.
        lra.
Qed.

Lemma mul_spec (a b : spec_float) :
  nonnegFinite a → nonnegFinite b →
  rounds (mul a b) (realOf a * realOf b) eta.
Proof.
  intros Ha Hb. pose proof eta_pos.
  destruct Ha as [[sa ->]|(ma & ea & -> & Hea)].
  - replace (realOf (S754_zero sa) * realOf b)
      with (realOf (mul (S754_zero sa) b))
      by (destruct Hb as [[sb ->]|(mb & eb & -> & _)]; cbn; lra).
    apply rounds_exact; [|lra]. left.
    destruct Hb as [[sb ->]|(mb & eb & -> & _)]; cbn; eauto.
  - destruct Hb as [[sb ->]|(mb & eb & -> & Heb)].
    + change (mul (S754_finite false ma ea) (S754_zero sb))
        with (S754_zero sb).
      cbn [realOf]. rewrite Rmult_0_r.
      apply (rounds_exact (S754_zero sb)); [left; eauto|lra].
    + unfold mul, SFmul. cbn [xorb realOf].
      set (x := 1 * IZR (Z.pos ma) * pow2 ea * (1 * IZR (Z.pos mb) * pow2 eb)).
      assert (IZR (Z.pos (ma * mb)) * pow2 (ea + eb) = x) as Hx.
      { unfold x. rewrite Pos2Z.inj_mul, mult_IZR, pow2_add. lra. }
      pose proof (round_aux_spec (Z.pos (ma * mb)) (ea + eb) loc_Exact x
                    ltac:(lia) (eq_sym Hx) (or_introl eq_refl)) as Hround.
      pose proof (roundError_any (Z.pos (ma * mb)) (ea + eb) loc_Exact x
                    ltac:(lia) ltac:(rewrite Hx; lra) (or_introl eq_refl)) as Herr.
      assert (0 <= x) as Hx0.
      { rewrite <- Hx. apply Rmult_le_pos; [apply IZR_le; lia|].
        pose proof (pow2_pos (ea + eb)). lra. }
      pose proof u_pos.
      destruct Hround as [[Hinf Hbig]|[Hfin Hclose]].
      * left. split; [exact Hinf|]. nra.
      * right. split; [exact Hfin|]. lra.
Qed.

Lemma new_location_inbetween (q r m2 e : Z) :
  (0 < m2)%Z → (0 <= r < m2)%Z →
  inbetween q e (new_location m2 r) ((IZR q + IZR r / IZR m2) * pow2 e).
Proof.
  intros Hm2 Hr. pose proof (pow2_pos e) as He.
  assert (0 < IZR m2) as Hm2R by (apply IZR_lt; lia).
  assert (∀ c, r ≠ 0%Z →
               match c with
               | Lt => (2 * r < m2)%Z
               | Eq => (2 * r = m2)%Z
               | Gt => (m2 < 2 * r)%Z
               end →
               inbetween q e (loc_Inexact c)
                 ((IZR q + IZR r / IZR m2) * pow2 e)) as Hcase.
  { intros c Hne Hc.
    assert (0 < IZR r) as HrR by (apply IZR_lt; lia).
    assert (IZR r < IZR m2) as Hrm by (apply IZR_lt; lia).
    assert (0 < IZR r / IZR m2 < 1) as Hfrac.
    { split; [apply Rdiv_lt_0_compat; lra|].
      apply Rmult_lt_reg_r with (IZR m2); [lra|].
      unfold Rdiv. rewrite Rmult_assoc, Rinv_l by lra. lra. }
    destruct c; cbn [inbetween].
    - assert (IZR r / IZR m2 = / 2) as ->; [|reflexivity].
      apply eq_IZR_contrapositive in Hne.
      assert (2 * IZR r = IZR m2) as Heq
        by (rewrite <- Hc, mult_IZR; reflexivity).
      rewrite <- Heq. field. lra.
    - assert (IZR r / IZR m2 < / 2) as Hlt.
      { apply Rmult_lt_reg_r with (IZR m2); [lra|].
        unfold Rdiv. rewrite Rmult_assoc, Rinv_l by lra.
        apply IZR_lt in Hc. rewrite mult_IZR in Hc. lra. }
      split; nra.
    - assert (/ 2 < IZR r / IZR m2) as Hgt.
      { apply Rmult_lt_reg_r with (IZR m2); [lra|].
        unfold Rdiv. rewrite Rmult_assoc, Rinv_l by lra.
        apply IZR_lt in Hc. rewrite mult_IZR in Hc. lra. }
      split; nra. }
  destruct (Z.eq_dec r 0)%Z as [->|Hne].
  - replace (new_location m2 0) with loc_Exact.
    + cbn [inbetween]. unfold Rdiv. lra.
    + unfold new_location, new_location_even, new_location_odd.
      destruct (Z.even m2); reflexivity.
  - assert ((r =? 0)%Z = false) as Hr0 by (apply Z.eqb_neq; exact Hne).
    unfold new_location, new_location_even, new_location_odd.
    destruct (Z.even m2) eqn:Heven; rewrite Hr0.
    + apply Hcase; [exact Hne|].
      destruct (Z.compare_spec (2 * r) m2)%Z; lia.
    + assert (Z.odd m2 = true) as Hodd by (rewrite <- Z.negb_even, Heven; reflexivity).
      apply Z.odd_spec in Hodd. destruct Hodd as [k Hk].
      apply Hcase; [exact Hne|].
      destruct (Z.compare_spec (2 * r + 1) m2)%Z; lia.
Qed.

Lemma Zdigits2_lower (q k : Z) : (0 <= k)%Z → (2 ^ k <= q)%Z → (k < Zdigits2 q)%Z.
Proof.
  intros Hk Hq.
  assert (0 <= q)%Z as Hq0 by (pose proof (Z.pow_pos_nonneg 2 k); lia).
  pose proof (Zdigits2_upper q Hq0) as Hup.
  rewrite pow2_IZR in Hup by apply Zdigits2_nonneg. apply lt_IZR in Hup.
  destruct (Z_lt_le_dec k (Zdigits2 q))%Z as [Hlt|Hge]; [exact Hlt|].
  pose proof (Z.pow_le_mono_r 2 (Zdigits2 q) k ltac:(lia) Hge). lia.
Qed.

Lemma div_core_spec (m1 m2 : positive) (e1 e2 : Z) :
  let '(q, e', l) :=
    SFdiv_core_binary prec emax (Z.pos m1) e1 (Z.pos m2) e2 in
  (0 <= q)%Z
  ∧ inbetween q e' l
      (IZR (Z.pos m1) * pow2 e1 / (IZR (Z.pos m2) * pow2 e2))
  ∧ (e' <= fexp prec emax (Zdigits2 q + e'))%Z.
Proof.
  unfold SFdiv_core_binary.
  set (d1 := Zdigits2 (Z.pos m1)). set (d2 := Zdigits2 (Z.pos m2)).
  set (e' := Z.min (fexp prec emax (d1 + e1 - (d2 + e2))) (e1 - e2)).
  set (s := (e1 - e2 - e')%Z).
  assert (0 <= s)%Z as Hs by (unfold s, e'; lia).
  set (m' := match s with
             | 0%Z => Z.pos m1
             | Z.pos _ => Z.shiftl (Z.pos m1) s
             | Z.neg _ => 0%Z
             end).
  assert (m' = (Z.pos m1 * 2 ^ s)%Z) as Hm'.
  { unfold m'. destruct s as [|p|p] eqn:Hsp; [lia| |lia].
    rewrite Z.shiftl_mul_pow2 by lia. reflexivity. }
  pose proof (Z_div_mod m' (Z.pos m2) ltac:(lia)) as Hdiv.
  destruct (Z.div_eucl m' (Z.pos m2)) as [q r].
  destruct Hdiv as [Hqr Hr].
  assert (0 < 2 ^ s)%Z as Hpow by (apply Z.pow_pos_nonneg; lia).
  assert (0 <= q)%Z as Hq by nia.
  split; [exact Hq|].
  pose proof (pow2_pos e1) as Hp1. pose proof (pow2_pos e2) as Hp2.
  pose proof (pow2_pos e') as Hp'. pose proof (pow2_pos s) as Hps.
  assert (0 < IZR (Z.pos m2)) as Hm2R by (apply IZR_lt; lia).
  split.
  - replace (IZR (Z.pos m1) * pow2 e1 / (IZR (Z.pos m2) * pow2 e2))
      with ((IZR q + IZR r / IZR (Z.pos m2)) * pow2 e').
    + apply new_location_inbetween; lia.
    + assert (IZR m' = IZR (Z.pos m2) * IZR q + IZR r) as HqrR
        by (rewrite Hqr, plus_IZR, mult_IZR; reflexivity).
      assert (IZR m' = IZR (Z.pos m1) * pow2 s) as Hm'R
        by (rewrite Hm', mult_IZR, <- pow2_IZR by lia; reflexivity).
      assert (pow2 e1 = pow2 s * pow2 e' * pow2 e2) as He1.
      { rewrite <- !pow2_add. f_equal. unfold s. lia. }
      rewrite He1.
      replace (IZR q + IZR r / IZR (Z.pos m2))
        with (IZR m' / IZR (Z.pos m2)) by (rewrite HqrR; field; lra).
      rewrite Hm'R. field. lra.
  - rewrite fexp_eq.
    destruct (Z_le_gt_dec e' (-1074))%Z as [Hsmall|Hlarge]; [lia|].
    assert (e' <= d1 + e1 - (d2 + e2) - 53)%Z as Hk
      by (unfold e' in *; rewrite fexp_eq in *; lia).
    assert (52 < Zdigits2 q)%Z; [|lia].
    apply Zdigits2_lower; [lia|].
    assert (q = m' / Z.pos m2)%Z as ->
      by (apply Z.div_unique with r; [lia|exact Hqr]).
    apply Z.div_le_lower_bound; [lia|].
    {
      destruct (Zdigits2_spec (Z.pos m1) ltac:(lia)) as [Hlow1 _].
      pose proof (Zdigits2_upper (Z.pos m2) ltac:(lia)) as Hup2.
      fold d1 in Hlow1. fold d2 in Hup2.
      assert (1 <= d1)%Z as Hd1.
      { pose proof (Zdigits2_lower (Z.pos m1) 0 ltac:(lia) ltac:(lia)).
        fold d1 in H. lia. }
      assert (0 <= d2)%Z as Hd2 by apply Zdigits2_nonneg.
      apply le_IZR. rewrite Hm', !mult_IZR, <- !pow2_IZR by lia.
      assert (pow2 (d2 + 52) <= pow2 (d1 - 1 + s)) as Hexp
        by (apply pow2_le; unfold s; lia).
      rewrite !pow2_add in Hexp.
      pose proof (pow2_pos 52). pose proof (pow2_pos (d1 - 1)).
      pose proof (pow2_pos d2).
      assert (IZR (Z.pos m2) * pow2 52 <= pow2 d2 * pow2 52) by nra.
      assert (pow2 (d1 - 1) * pow2 s <= IZR (Z.pos m1) * pow2 s) by nra.
      lra. }
Qed.

Lemma div_spec (a b : spec_float) :
  nonnegFinite a → nonnegFinite b → 0 < realOf b →
  rounds (div a b) (realOf a / realOf b) eta.
Proof.
  intros Ha Hb Hpos. pose proof eta_pos. pose proof u_pos.
  destruct Hb as [[sb ->]|(mb & eb & -> & Heb)]; [cbn in Hpos; lra|].
  destruct Ha as [[sa ->]|(ma & ea & -> & Hea)].
  - change (div (S754_zero sa) (S754_finite false mb eb))
      with (S754_zero (xorb sa false)).
    cbn [realOf] in *. unfold Rdiv. rewrite Rmult_0_l.
    apply (rounds_exact (S754_zero (xorb sa false))); [left; eauto|lra].
  - unfold div, SFdiv. cbn [xorb realOf] in *.
    pose proof (div_core_spec ma mb ea eb) as Hcore.
    destruct (SFdiv_core_binary prec emax (Z.pos ma) ea (Z.pos mb) eb)
      as [[q e'] l].
    destruct Hcore as (Hq & Hx & He').
    replace (1 * IZR (Z.pos ma) * pow2 ea / (1 * IZR (Z.pos mb) * pow2 eb))
      with (IZR (Z.pos ma) * pow2 ea / (IZR (Z.pos mb) * pow2 eb))
      by (f_equal; lra).
    set (x := IZR (Z.pos ma) * pow2 ea / (IZR (Z.pos mb) * pow2 eb)) in *.
    pose proof (inbetween_bounds q e' l x Hx) as [Hlow _].
    pose proof (round_aux_spec q e' l x Hq Hx (or_intror He')) as Hround.
    pose proof (roundError_any q e' l x Hq Hlow (or_intror He')) as Herr.
    assert (0 <= x) as Hx0.
    { apply Rle_trans with (2 := Hlow). pose proof (pow2_pos e').
      apply Rmult_le_pos; [apply IZR_le; lia|lra]. }
    destruct Hround as [[Hinf Hbig]|[Hfin Hclose]].
    + left. split; [exact Hinf|]. nra.
    + right. split; [exact Hfin|]. lra.
Qed.

Lemma u_small : u <= / 1000.
Proof.
  unfold u. replace (-53)%Z with (- (53))%Z by lia.
  unfold pow2. rewrite powerRZ_neg'.
  change (powerRZ 2 53) with (pow2 53). rewrite pow2_IZR by lia.
  apply Rinv_le_contravar; [lra|]. apply IZR_le. lia.
Qed.

Lemma eta_small : eta <= / 1000.
Proof.
  unfold eta. apply Rle_trans with (pow2 (-53)); [|apply u_small].
  apply pow2_le. lia.
Qed.

(** Powers of the rounding factors. *)
Lemma pow_up_bound (k : nat) :
  INR k * u < 1 → (1 + u) ^ k <= / (1 - INR k * u).
Proof.
  pose proof u_pos as Hu.
  induction k as [|k IH]; intros Hk.
  - cbn. rewrite Rmult_0_l, Rminus_0_r, Rinv_1. lra.
  - rewrite S_INR in *.
    assert (INR k * u < 1) as Hk' by nra.
    specialize (IH Hk'). cbn [pow].
    assert (0 <= INR k) by apply pos_INR.
    apply Rmult_le_reg_r with (1 - (INR k + 1) * u); [lra|].
    rewrite Rinv_l by lra.
    apply Rle_trans with ((1 + u) * / (1 - INR k * u) * (1 - (INR k + 1) * u)).
    + apply Rmult_le_compat_r; [lra|]. apply Rmult_le_compat_l; [lra|exact IH].
    + apply Rmult_le_reg_r with (1 - INR k * u); [lra|].
      replace ((1 + u) * / (1 - INR k * u) * (1 - (INR k + 1) * u) * (1 - INR k * u))
        with ((1 + u) * (1 - (INR k + 1) * u) * ((1 - INR k * u) * / (1 - INR k * u)))
        by ring.
      rewrite Rinv_r by lra. nra.
Qed.

Lemma pow_down_bound (k : nat) : 1 - INR k * u <= (1 - u) ^ k.
Proof.
  pose proof u_pos as Hu. pose proof u_small as Hus.
  induction k as [|k IH].
  - cbn. lra.
  - rewrite S_INR. cbn [pow].
    assert (0 <= INR k) by apply pos_INR.
    assert (0 <= (1 - u) ^ k) by (apply pow_le; lra).
    destruct (Rle_dec 0 (1 - INR k * u)); nra.
Qed.

Lemma pow_up_mono (j k : nat) : (j <= k)%nat → (1 + u) ^ j <= (1 + u) ^ k.
Proof. intros Hjk. pose proof u_pos. apply Rle_pow; [lra|exact Hjk]. Qed.

Lemma pow_up_ge_1 (k : nat) : 1 <= (1 + u) ^ k.
Proof. pose proof u_pos. apply pow_R1_Rle. lra. Qed.

Lemma pow_down_le_1 (k : nat) : 0 < (1 - u) ^ k <= 1.
Proof.
  pose proof u_pos. pose proof u_small. split.
  - apply pow_lt. lra.
  - apply Rle_trans with (1 ^ k); [apply pow_incr; lra|rewrite pow1; lra].
Qed.

Lemma pow_down_mono (j k : nat) : (j <= k)%nat → (1 - u) ^ k <= (1 - u) ^ j.
Proof.
  intros Hjk. pose proof u_pos. pose proof u_small.
  replace k with (j + (k - j))%nat by lia. rewrite pow_add.
  assert (0 <= (1 - u) ^ j) by (apply pow_le; lra).
  pose proof (pow_down_le_1 (k - j)).
  nra.
Qed.

(** Finite results come from finite operands. *)
Lemma add_isFinite (a b : spec_float) :
  isFinite (add a b) = true → isFinite a = true ∧ isFinite b = true.
Proof.
  destruct a as [sa|sa| |sa ma ea], b as [sb|sb| |sb mb eb];
    try (intros _; split; reflexivity);
    try (intros H; discriminate H);
    try (destruct sa, sb; intros H; discriminate H).
Qed.

Lemma foldl_add_isFinite (l : list spec_float) (acc : spec_float) :
  isFinite (foldl add acc l) = true → isFinite acc = true.
Proof.
  revert acc. induction l as [|x l IH]; intros acc H; [exact H|].
  cbn [foldl] in H. apply IH in H. apply add_isFinite in H. tauto.
Qed.

Lemma nonnegFinite_isFinite (a : spec_float) : nonnegFinite a → isFinite a = true.
Proof. intros [[s ->]|(m & e & -> & _)]; reflexivity. Qed.

Lemma sumR_nonneg (l : list spec_float) :
  Forall nonnegFinite l → 0 <= sumR (realOf <$> l).
Proof.
  induction 1 as [|x l Hx _ IH]; cbn; [lra|].
  pose proof (realOf_nonneg x Hx). unfold sumR in IH. lra.
Qed.

(** A rounded result is finite and near the exact one when the exact
    one is below the overflow threshold, or when the result is known to
    be finite. *)
Lemma rounds_bounds (r : spec_float) (x slack : R) :
  rounds r x slack → 0 <= x →
  isFinite r = true ∨ x * (1 + u) + slack < pow2 972 →
  nonnegFinite r ∧ x * (1 - u) - slack <= realOf r <= x * (1 + u) + slack.
Proof.
  intros [[-> Hbig]|[Hfin Hclose]] Hx Hsafe.
  - destruct Hsafe as [Hf|Hlt]; [discriminate Hf|lra].
  - split; [exact Hfin|]. apply Rabs_bound in Hclose. lra.
Qed.

(** The floating-point sum of numbers that are not negative. *)
Lemma fsum_bounds (l : list spec_float) (acc : spec_float) :
  nonnegFinite acc → Forall nonnegFinite l →
  isFinite (foldl add acc l) = true
  ∨ (realOf acc + sumR (realOf <$> l)) * (1 + u) ^ length l < pow2 972 →
  nonnegFinite (foldl add acc l)
  ∧ (realOf acc + sumR (realOf <$> l)) * (1 - u) ^ length l
    <= realOf (foldl add acc l)
    <= (realOf acc + sumR (realOf <$> l)) * (1 + u) ^ length l.
Proof.
  pose proof u_pos as Hu. pose proof u_small as Hus.
  intros Hacc Hl. revert acc Hacc.
  induction Hl as [|x l Hx Hl IH]; intros acc Hacc Hsafe.
  - cbn. split; [exact Hacc|]. lra.
  - cbn [foldl fmap list_fmap length sumR foldr pow] in *.
    fold (sumR (realOf <$> l)) in *.
    pose proof (realOf_nonneg acc Hacc) as HA.
    pose proof (realOf_nonneg x Hx) as HX.
    pose proof (sumR_nonneg l Hl) as HS.
    pose proof (pow_up_ge_1 (length l)) as Hup.
    pose proof (pow_down_le_1 (length l)) as Hdown.
    destruct (rounds_bounds (add acc x) (realOf acc + realOf x) 0
                (add_spec acc x Hacc Hx) ltac:(lra)) as [Hfin Hnear].
    { destruct Hsafe as [Hf|Hlt].
      - left. apply foldl_add_isFinite in Hf. exact Hf.
      - right. apply Rle_lt_trans with (2 := Hlt).
        apply Rle_trans
          with ((realOf acc + (realOf x + sumR (realOf <$> l))) * (1 + u) * 1);
          [nra|].
        rewrite <- Rmult_assoc.
        apply Rmult_le_compat_l; [nra|lra]. }
    destruct (IH (add acc x) Hfin) as [Hres Hbounds].
    { destruct Hsafe as [Hf|Hlt]; [left; exact Hf|right].
      apply Rle_lt_trans with (2 := Hlt).
      replace ((realOf acc + (realOf x + sumR (realOf <$> l)))
               * ((1 + u) * (1 + u) ^ length l))
        with ((realOf acc + (realOf x + sumR (realOf <$> l))) * (1 + u)
              * (1 + u) ^ length l) by ring.
      apply Rmult_le_compat_r; [lra|]. nra. }
    split; [exact Hres|]. split.
    + apply Rle_trans with (2 := proj1 Hbounds).
      replace ((realOf acc + (realOf x + sumR (realOf <$> l)))
               * ((1 - u) * (1 - u) ^ length l))
        with ((realOf acc + (realOf x + sumR (realOf <$> l))) * (1 - u)
              * (1 - u) ^ length l) by ring.
      apply Rmult_le_compat_r; [lra|]. nra.
    + apply Rle_trans with (1 := proj2 Hbounds).
      replace ((realOf acc + (realOf x + sumR (realOf <$> l)))
               * ((1 + u) * (1 + u) ^ length l))
        with ((realOf acc + (realOf x + sumR (realOf <$> l))) * (1 + u)
              * (1 + u) ^ length l) by ring.
      apply Rmult_le_compat_r; [lra|]. nra.
Qed.

Lemma pow2_972_large : pow2 904 * 1024 <= pow2 972.
Proof.
  replace 972%Z with (904 + 68)%Z by lia. rewrite pow2_add.
  pose proof (pow2_pos 904). 
  assert (1024 <= pow2 68); [|nra].
  rewrite pow2_IZR by lia. apply IZR_le. lia.
Qed.

Lemma pow2_904 : pow2 904 = 4 * pow2 902.
Proof.
  replace 904%Z with (902 + 1 + 1)%Z by lia. rewrite !pow2_succ. lra.
Qed.

(** One participant's owed amount: [P + P / S * T] in doubles, against
    the exact value. *)
Lemma owed_bounds (P S T : spec_float) :
  nonnegFinite P → nonnegFinite S → nonnegFinite T →
  0 < realOf S → realOf P <= 2 * realOf S →
  realOf P <= pow2 902 → realOf T <= pow2 902 →
  nonnegFinite (add P (mul (div P S) T))
  ∧ realOf P * (1 - u)
    + realOf P / realOf S * realOf T * (1 - u) ^ 3
    - eta * (2 * realOf T + 2)
    <= realOf (add P (mul (div P S) T))
    <= realOf P * (1 + u)
       + realOf P / realOf S * realOf T * (1 + u) ^ 3
       + eta * (2 * realOf T + 2).
Proof.
  intros HP HS HT Hs Hratio Hp Ht.
  pose proof u_pos as Hu. pose proof u_small as Hus.
  pose proof eta_pos as Heta. pose proof eta_small as Hetas.
  pose proof (realOf_nonneg P HP) as Hp0.
  pose proof (realOf_nonneg T HT) as Ht0.
  pose proof pow2_972_large as Hlarge. pose proof pow2_904 as H904.
  pose proof (pow2_ge_1 902 ltac:(lia)) as H902.
  set (p := realOf P) in *. set (s := realOf S) in *. set (t := realOf T) in *.
  assert (0 <= p / s <= 2) as Hq.
  { split; [apply Rmult_le_pos; [lra|left; apply Rinv_0_lt_compat; lra]|].
    apply Rmult_le_reg_r with s; [lra|].
    unfold Rdiv. rewrite Rmult_assoc, Rinv_l by lra. lra. }
  set (q := p / s) in *.
  (* the ratio *)
  destruct (rounds_bounds (div P S) q eta (div_spec P S HP HS Hs)
              ltac:(lra) ltac:(right; nra)) as [HR Hr].
  pose proof (realOf_nonneg _ HR) as Hr0.
  set (r := realOf (div P S)) in *.
  assert (r <= 3) as Hr3 by nra.
  (* the share *)
  assert (0 <= r * t <= 3 * pow2 902) as Hrt by nra.
  destruct (rounds_bounds (mul (div P S) T) (r * t) eta
              (mul_spec (div P S) T HR HT)
              ltac:(lra) ltac:(right; nra)) as [HSH Hsh].
  fold r in Hsh.
  pose proof (realOf_nonneg _ HSH) as Hsh0.
  set (sh := realOf (mul (div P S) T)) in *.
  assert (sh <= 7 * pow2 902 + 1) as Hshbig by nra.
  (* the owed amount *)
  destruct (rounds_bounds (add P (mul (div P S) T)) (p + sh) 0
              (add_spec P (mul (div P S) T) HP HSH)
              ltac:(lra) ltac:(right; nra)) as [HO Ho].
  split; [exact HO|].
  set (o := realOf (add P (mul (div P S) T))) in *.
  assert (q * t * (1 - u) ^ 2 - eta * t - eta <= sh) as Hshlow.
  { apply Rle_trans with (2 := proj1 Hsh).
    assert ((q * (1 - u) - eta) * (t * (1 - u)) <= r * (t * (1 - u))) as Hstep
      by (apply Rmult_le_compat_r; [nra|lra]).
    assert (0 <= eta * t * u)
      by (apply Rmult_le_pos; [apply Rmult_le_pos|]; lra).
    lra. }
  assert (sh <= q * t * (1 + u) ^ 2 + eta * t * (1 + u) + eta) as Hshhigh.
  { apply Rle_trans with (1 := proj2 Hsh).
    assert (r * (t * (1 + u)) <= (q * (1 + u) + eta) * (t * (1 + u))) as Hstep
      by (apply Rmult_le_compat_r; [nra|lra]).
    lra. }
  split.
  - apply Rle_trans with (2 := proj1 Ho).
    apply Rle_trans
      with ((p + (q * t * (1 - u) ^ 2 - eta * t - eta)) * (1 - u) - 0);
      [|apply Rplus_le_compat_r, Rmult_le_compat_r; lra].
    assert (0 <= eta * t * u)
      by (apply Rmult_le_pos; [apply Rmult_le_pos|]; lra).
    assert (0 <= eta * u) by (apply Rmult_le_pos; lra).
    assert (0 <= eta * t) by (apply Rmult_le_pos; lra).
    replace ((p + (q * t * (1 - u) ^ 2 - eta * t - eta)) * (1 - u) - 0)
      with (p * (1 - u) + q * t * (1 - u) ^ 3
            - (eta * t + eta - eta * t * u - eta * u)) by ring.
    lra.
  - apply Rle_trans with (1 := proj2 Ho).
    apply Rle_trans
      with ((p + (q * t * (1 + u) ^ 2 + eta * t * (1 + u) + eta)) * (1 + u) + 0);
      [apply Rplus_le_compat_r, Rmult_le_compat_r; lra|].
    assert (eta * t * u <= eta * t * / 1000)
      by (apply Rmult_le_compat_l; [apply Rmult_le_pos|]; lra).
    assert (eta * u <= eta * / 1000) by (apply Rmult_le_compat_l; lra).
    assert (0 <= eta * t) by (apply Rmult_le_pos; lra).
    assert (eta * t * u * u <= eta * t * / 1000 * / 1000).
    { apply Rmult_le_compat; [apply Rmult_le_pos; [apply Rmult_le_pos|]; lra
                             |lra|lra|lra]. }
    replace ((p + (q * t * (1 + u) ^ 2 + eta * t * (1 + u) + eta)) * (1 + u) + 0)
      with (p * (1 + u) + q * t * (1 + u) ^ 3
            + (eta * t + eta + 2 * (eta * t * u) + eta * t * u * u + eta * u))
      by ring.
    lra.
Qed.

End RoundingFacts.

(** * The owed amounts add up to the total *)

Module Conservation.
Import JsNumber App Spec Rounding RoundingFacts.
Local Open Scope R_scope.
Local Abbreviation add := JsNumber.add.
Local Abbreviation mul := JsNumber.mul.
Local Abbreviation div := JsNumber.div.

(** Results of the rounding functions have their exponent in range. *)
Lemma shr_fexp_exponent (m e : Z) (l : location) :
  (-1074 <= snd (shr_fexp prec emax m e l))%Z.
Proof.
  unfold shr_fexp, shr.
  destruct (fexp prec emax (Zdigits2 m + e) - e)%Z eqn:Hn; cbn [snd];
    rewrite fexp_eq in Hn; lia.
Qed.

Lemma round_aux_exponent (sx : bool) (m e : Z) (l : location)
    (s' : bool) (m' : positive) (e' : Z) :
  binary_round_aux prec emax sx m e l = S754_finite s' m' e' →
  (-1074 <= e')%Z.
Proof.
  unfold binary_round_aux.
  pose proof (shr_fexp_exponent m e l) as H1.
  destruct (shr_fexp prec emax m e l) as [mrs1 e1].
  pose proof (shr_fexp_exponent
                (round_nearest_even (shr_m mrs1) (loc_of_shr_record mrs1))
                e1 loc_Exact) as H2.
  destruct (shr_fexp prec emax _ e1 loc_Exact) as [mrs2 e2].
  cbn [snd] in *.
  destruct (shr_m mrs2); try discriminate.
  destruct (e2 <=? _)%Z; [|discriminate].
  intros [= <- <- <-]. exact H2.
Qed.

Lemma lt_0_finite (s : bool) (m : positive) (e : Z) :
  lt (S754_finite s m e) (ofZ 0) = false → s = false.
Proof. destruct s; [discriminate|reflexivity]. Qed.

(** A product that is finite and not negative. *)
Lemma mul_nonnegFinite (a b : number) :
  isFinite (mul a b) = true → lt (mul a b) (ofZ 0) = false →
  nonnegFinite (mul a b).
Proof.
  intros Hfin Hsign.
  destruct (mul a b) as [s|s| |s m e] eqn:Hmul; try discriminate Hfin.
  - left. eauto.
  - apply lt_0_finite in Hsign. subst s. right. exists m, e.
    split; [reflexivity|].
    destruct a as [sa|sa| |sa ma ea], b as [sb|sb| |sb mb eb];
      try discriminate Hmul.
    eapply round_aux_exponent. exact Hmul.
Qed.

(** A price that is a finite double and not negative. *)
Lemma price_nonnegFinite (a : number) :
  representable a = true → isFinite a = true → lt a (ofZ 0) = false →
  nonnegFinite a.
Proof.
  intros Hvalid Hfin Hsign.
  destruct a as [s|s| |s m e]; try discriminate Hfin.
  - left. eauto.
  - apply lt_0_finite in Hsign. subst s. right. exists m, e.
    split; [reflexivity|].
    unfold representable, valid_binary, bounded in Hvalid.
    apply andb_prop in Hvalid as [Hcanon _].
    unfold canonical_mantissa in Hcanon.
    apply Z.eqb_eq in Hcanon. rewrite fexp_eq in Hcanon. lia.
Qed.

Lemma foldl_add_all_finite (l : list number) (acc : number) :
  isFinite (foldl add acc l) = true → Forall (λ x, isFinite x = true) l.
Proof.
  revert acc. induction l as [|x l IH]; intros acc H; [constructor|].
  cbn [foldl] in H. constructor.
  - apply foldl_add_isFinite, add_isFinite in H. tauto.
  - apply (IH _ H).
Qed.

Lemma null_mul (a b : number) : null a → null (mul a b).
Proof. destruct a, b; cbn; tauto. Qed.

Lemma null_add (a b : number) : null a → null b → null (add a b).
Proof.
  destruct a as [[]|[]| |], b as [[]|[]| |]; cbn; tauto.
Qed.

Lemma null_realOf (a : number) : null a → realOf a = 0.
Proof. destruct a; cbn; tauto. Qed.

Lemma nonnegFinite_pos (a : number) :
  nonnegFinite a → (a === 0)%js = false → 0 < realOf a.
Proof.
  intros [[s ->]|(m & e & -> & _)] Hzero.
  - destruct s; discriminate Hzero.
  - cbn [realOf]. pose proof (pow2_pos e).
    assert (0 < IZR (Z.pos m)) by (apply IZR_lt; lia).
    assert (0 < IZR (Z.pos m) * pow2 e) by (apply Rmult_lt_0_compat; lra).
    lra.
Qed.

(** Exact sums. *)
Lemma sumR_app (l k : list R) : sumR (l ++ k) = sumR l + sumR k.
Proof.
  unfold sumR. induction l as [|x l IH]; cbn [app foldr]; [lra|].
  rewrite IH. lra.
Qed.

Lemma sumR_perm (l k : list R) : l ≡ₚ k → sumR l = sumR k.
Proof.
  induction 1 as [|x l k _ IH|x y l|l k j _ IH1 _ IH2]; cbn in *;
    unfold sumR in *; lra.
Qed.

Lemma sumR_indicator (D : list string) (a : string) (x : R) :
  NoDup D → a ∈ D →
  sumR ((λ k, if decide (a = k) then x else 0) <$> D) = x.
Proof.
  induction 1 as [|k D Hk HD IH]; intros Ha.
  - apply elem_of_nil in Ha. destruct Ha.
  - cbn. fold (sumR ((λ k, if decide (a = k) then x else 0) <$> D)).
    apply elem_of_cons in Ha. destruct (decide (a = k)) as [->|Hne].
    + assert (sumR ((λ k0, if decide (k = k0) then x else 0) <$> D) = 0) as ->;
        [|lra].
      clear IH Ha HD. induction D as [|k' D IH]; [reflexivity|].
      cbn. apply not_elem_of_cons in Hk as [Hne Hk].
      destruct (decide (k = k')) as [|_]; [contradiction|].
      fold (sumR ((λ k0, if decide (k = k0) then x else 0) <$> D)).
      rewrite (IH Hk). lra.
    + destruct Ha as [|Ha]; [contradiction|]. rewrite (IH Ha). lra.
Qed.

Lemma exactOf_cons (item : Item.t) (l : list Item.t) (k : string) :
  exactOf (item :: l) k
  = (if decide (Item.assignedTo item = k) then realOf (Item.price item) else 0)
    + exactOf l k.
Proof.
  unfold exactOf. rewrite filter_cons.
  destruct (decide (Item.assignedTo item = k)); unfold exactSum, sumR;
    cbn [fmap list_fmap foldr]; lra.
Qed.

Lemma exact_partition (l : list Item.t) (D : list string) :
  NoDup D → Forall (λ item, Item.assignedTo item ∈ D) l →
  sumR (exactOf l <$> D) = exactSum l.
Proof.
  intros HD. induction 1 as [|item l Hin _ IH].
  - clear HD. induction D as [|k D IH]; [reflexivity|].
    cbn [fmap list_fmap sumR foldr]. fold (sumR (exactOf [] <$> D)).
    rewrite IH. unfold exactOf, exactSum, sumR. rewrite filter_nil.
    cbn [fmap list_fmap foldr]. lra.
  - unfold exactSum. cbn [fmap list_fmap sumR foldr].
    fold (sumR ((λ item, realOf (Item.price item)) <$> l)).
    fold (exactSum l). rewrite <- IH.
    rewrite <- (sumR_indicator D (Item.assignedTo item)
                  (realOf (Item.price item)) HD Hin).
    clear. induction D as [|k D IH]; [cbn; lra|].
    cbn [fmap list_fmap sumR foldr].
    fold (sumR (exactOf (item :: l) <$> D)).
    fold (sumR ((λ k, if decide (Item.assignedTo item = k)
                      then realOf (Item.price item) else 0) <$> D)).
    fold (sumR (exactOf l <$> D)).
    rewrite IH, exactOf_cons. lra.
Qed.

Lemma u_eq : u = / 9007199254740992.
Proof.
  unfold u, pow2. replace (-53)%Z with (- (53))%Z by lia.
  rewrite powerRZ_neg'. change (powerRZ 2 53) with (pow2 53).
  rewrite pow2_IZR by lia. f_equal.
Qed.

Lemma drift_bound (k : nat) :
  (Z.of_nat k <= roundings)%Z → INR k * u <= drift.
Proof.
  intros Hk. rewrite INR_IZR_INZ, u_eq. unfold drift, roundings in *.
  apply IZR_le in Hk. lra.
Qed.

Lemma drift_small : 0 < drift < / 1000000.
Proof. unfold drift. lra. Qed.

Lemma pow_up_drift (k : nat) :
  (Z.of_nat k <= roundings)%Z → (1 + u) ^ k * (1 - drift) <= 1.
Proof.
  intros Hk. pose proof (drift_bound k Hk) as Hd. pose proof drift_small.
  pose proof (pow_up_bound k ltac:(lra)) as Hup.
  pose proof (pow_up_ge_1 k).
  apply Rle_trans with (/ (1 - INR k * u) * (1 - INR k * u)).
  - apply Rmult_le_compat; [lra|lra|exact Hup|lra].
  - rewrite Rinv_l; lra.
Qed.

Lemma pow_down_drift (k : nat) :
  (Z.of_nat k <= roundings)%Z → 1 - drift <= (1 - u) ^ k.
Proof.
  intros Hk. pose proof (drift_bound k Hk). pose proof (pow_down_bound k). lra.
Qed.

(** The arithmetic of the bound: [X] the exact subtotal, [s] the
    subtotal in doubles, [c] tax plus tip, [t] their sum in doubles,
    [Gn], [Hn], [Gj], [Hj] powers of the rounding factors. *)
Lemma conservation_arith (X s c t tot rho Gn Hn Gj Hj : R) :
  0 <= X → X * Hn <= s <= X * Gn → 0 < s → rho * s = t →
  0 <= c → c * (1 - u) <= t <= c * (1 + u) →
  (s + c) * (1 - u) ^ 2 <= tot <= (s + c) * (1 + u) ^ 2 →
  1 <= Gn → 1 <= Gj → 0 < Hn <= 1 → 0 < Hj <= 1 →
  Gn * (1 + u) ^ 4 * Gj * (1 - drift) <= 1 →
  Gn * (1 + u) ^ 2 * (1 - drift) <= 1 →
  1 - drift <= Hn * (1 - u) ^ 2 →
  1 - drift <= Hn * (1 - u) ^ 4 * Hj →
  X * (Gn * ((1 + u) + rho * (1 + u) ^ 3)) * Gj * (1 - drift) ^ 2 <= tot
  ∧ tot * (1 - drift) ^ 2 <= X * (Hn * ((1 - u) + rho * (1 - u) ^ 3)) * Hj.
Proof.
  intros HX [HsL HsU] Hs Hrho Hc [HtL HtU] [HtotL HtotU]
    HGn HGj [HHn0 HHn1] [HHj0 HHj1] HG4 HG2 HH2 HH4.
  pose proof u_pos as Hu. pose proof u_small as Hus.
  pose proof drift_small as Hd.
  set (g := 1 + u) in *. set (h := 1 - u) in *.
  assert (1 <= g) as Hg by (unfold g; lra).
  assert (0 < h <= 1) as Hh by (unfold h; lra).
  assert (0 <= t) as Ht0 by nra.
  assert (0 <= rho) as Hrho0.
  { destruct (Rle_dec 0 rho) as [|Hneg]; [assumption|]. exfalso. nra. }
  assert (0 < tot) as Htot0.
  { apply Rlt_le_trans with (2 := HtotL).
    apply Rmult_lt_0_compat; [lra|]. apply pow_lt. lra. }
  assert (1 <= g ^ 2) as Hg2 by (apply pow_R1_Rle; lra).
  assert (1 <= g ^ 3) as Hg3 by (apply pow_R1_Rle; lra).
  assert (0 < h ^ 2 <= 1) as Hh2.
  { split; [apply pow_lt; lra|].
    apply Rle_trans with (1 ^ 2); [apply pow_incr; lra|rewrite pow1; lra]. }
  assert (0 < h ^ 3 <= 1) as Hh3.
  { split; [apply pow_lt; lra|].
    apply Rle_trans with (1 ^ 3); [apply pow_incr; lra|rewrite pow1; lra]. }
  split.
  - (* upper *)
    set (UP := X * (Gn * (g + rho * g ^ 3))).
    assert (0 <= UP) as HUP0.
    { unfold UP. apply Rmult_le_pos; [lra|]. apply Rmult_le_pos; [lra|].
      assert (0 <= rho * g ^ 3) by (apply Rmult_le_pos; lra). lra. }
    assert (UP * (Hn * h ^ 2) <= Gn * g ^ 4 * tot) as Hstep.
    { apply Rle_trans with (s * (Gn * (g + rho * g ^ 3) * h ^ 2)).
      - replace (UP * (Hn * h ^ 2))
          with (X * Hn * (Gn * (g + rho * g ^ 3) * h ^ 2)) by (unfold UP; ring).
        apply Rmult_le_compat_r; [|exact HsL].
        apply Rmult_le_pos; [|lra]. apply Rmult_le_pos; [lra|].
        assert (0 <= rho * g ^ 3) by (apply Rmult_le_pos; lra). lra.
      - replace (s * (Gn * (g + rho * g ^ 3) * h ^ 2))
          with (Gn * h ^ 2 * (s * g + t * g ^ 3)) by (rewrite <- Hrho; ring).
        apply Rle_trans with (Gn * h ^ 2 * (g ^ 4 * (s + c))).
        + apply Rmult_le_compat_l; [apply Rmult_le_pos; lra|].
          assert (s * g <= s * g ^ 4).
          { apply Rmult_le_compat_l; [lra|].
            replace (g ^ 4) with (g * g ^ 3) by ring. nra. }
          assert (t * g ^ 3 <= c * g * g ^ 3)
            by (apply Rmult_le_compat_r; lra).
          replace (g ^ 4 * (s + c)) with (s * g ^ 4 + c * g * g ^ 3) by ring.
          lra.
        + replace (Gn * h ^ 2 * (g ^ 4 * (s + c)))
            with (Gn * g ^ 4 * ((s + c) * h ^ 2)) by ring.
          apply Rmult_le_compat_l; [|exact HtotL].
          apply Rmult_le_pos; [lra|]. apply pow_le. lra. }
    (* UP * Gj * (1 - drift) <= UP * Gj * (Hn h^2) <= Gn g^4 Gj tot *)
    assert (UP * Gj * (1 - drift) <= Gn * g ^ 4 * Gj * tot) as Hstep2.
    { apply Rle_trans with (UP * Gj * (Hn * h ^ 2)).
      - apply Rmult_le_compat_l; [apply Rmult_le_pos; lra|exact HH2].
      - replace (UP * Gj * (Hn * h ^ 2)) with (UP * (Hn * h ^ 2) * Gj) by ring.
        replace (Gn * g ^ 4 * Gj * tot) with (Gn * g ^ 4 * tot * Gj) by ring.
        apply Rmult_le_compat_r; [lra|exact Hstep]. }
    replace (UP * Gj * (1 - drift) ^ 2)
      with (UP * Gj * (1 - drift) * (1 - drift)) by ring.
    apply Rle_trans with (Gn * g ^ 4 * Gj * tot * (1 - drift)).
    + apply Rmult_le_compat_r; [lra|exact Hstep2].
    + replace (Gn * g ^ 4 * Gj * tot * (1 - drift))
        with (Gn * g ^ 4 * Gj * (1 - drift) * tot) by ring.
      apply Rle_trans with (1 * tot); [|lra].
      apply Rmult_le_compat_r; [lra|exact HG4].
  - (* lower *)
    set (LO := X * (Hn * (h + rho * h ^ 3))).
    assert (0 <= LO) as HLO0.
    { unfold LO. apply Rmult_le_pos; [lra|]. apply Rmult_le_pos; [lra|].
      assert (0 <= rho * h ^ 3) by (apply Rmult_le_pos; lra). lra. }
    assert (Hn * h ^ 4 * tot <= LO * (Gn * g ^ 2)) as Hstep.
    { apply Rle_trans with (s * (Hn * (h + rho * h ^ 3) * g ^ 2)).
      - replace (s * (Hn * (h + rho * h ^ 3) * g ^ 2))
          with (Hn * g ^ 2 * (s * h + t * h ^ 3)) by (rewrite <- Hrho; ring).
        apply Rle_trans with (Hn * g ^ 2 * (h ^ 4 * (s + c))).
        + replace (Hn * g ^ 2 * (h ^ 4 * (s + c)))
            with (Hn * h ^ 4 * ((s + c) * g ^ 2)) by ring.
          apply Rmult_le_compat_l; [|exact HtotU].
          apply Rmult_le_pos; [lra|]. apply pow_le. lra.
        + apply Rmult_le_compat_l; [apply Rmult_le_pos; lra|].
          assert (s * h ^ 4 <= s * h).
          { apply Rmult_le_compat_l; [lra|].
            replace (h ^ 4) with (h * h ^ 3) by ring. nra. }
          assert (c * h * h ^ 3 <= t * h ^ 3)
            by (apply Rmult_le_compat_r; lra).
          replace (h ^ 4 * (s + c)) with (s * h ^ 4 + c * h * h ^ 3) by ring.
          lra.
      - replace (LO * (Gn * g ^ 2))
          with (X * Gn * (Hn * (h + rho * h ^ 3) * g ^ 2)) by (unfold LO; ring).
        apply Rmult_le_compat_r; [|exact HsU].
        apply Rmult_le_pos; [|lra]. apply Rmult_le_pos; [lra|].
        assert (0 <= rho * h ^ 3) by (apply Rmult_le_pos; lra). lra. }
    (* tot (1-drift) <= Hn h^4 Hj tot <= LO Hj (Gn g^2) *)
    assert (tot * (1 - drift) <= LO * Hj * (Gn * g ^ 2)) as Hstep2.
    { apply Rle_trans with (Hn * h ^ 4 * Hj * tot).
      - rewrite (Rmult_comm tot). apply Rmult_le_compat_r; [lra|exact HH4].
      - replace (Hn * h ^ 4 * Hj * tot) with (Hn * h ^ 4 * tot * Hj) by ring.
        replace (LO * Hj * (Gn * g ^ 2)) with (LO * (Gn * g ^ 2) * Hj) by ring.
        apply Rmult_le_compat_r; [lra|exact Hstep]. }
    replace (tot * (1 - drift) ^ 2)
      with (tot * (1 - drift) * (1 - drift)) by ring.
    apply Rle_trans with (LO * Hj * (Gn * g ^ 2) * (1 - drift)).
    + apply Rmult_le_compat_r; [lra|exact Hstep2].
    + replace (LO * Hj * (Gn * g ^ 2) * (1 - drift))
        with (LO * Hj * (Gn * g ^ 2 * (1 - drift))) by ring.
      apply Rle_trans with (LO * Hj * 1); [|lra].
      apply Rmult_le_compat_l; [apply Rmult_le_pos; lra|exact HG2].
Qed.

Lemma pow2_neg (k : Z) : (0 <= k)%Z → pow2 (- k) = / IZR (2 ^ k).
Proof.
  intros Hk. unfold pow2. rewrite powerRZ_neg'.
  change (powerRZ 2 k) with (pow2 k). rewrite pow2_IZR by exact Hk.
  reflexivity.
Qed.

Lemma foldl_prices (l : list Item.t) (acc : number) :
  foldl (λ sum item, (sum + Item.price item)%js) acc l
  = foldl add acc (Item.price <$> l).
Proof.
  revert acc. induction l as [|item l IH]; intros acc; [reflexivity|].
  cbn [foldl fmap list_fmap]. apply IH.
Qed.

Lemma exactSum_fmap (l : list Item.t) :
  exactSum l = sumR (realOf <$> (Item.price <$> l)).
Proof. unfold exactSum. rewrite <- list_fmap_compose. reflexivity. Qed.

Lemma exactSum_nonneg (l : list Item.t) :
  Forall (λ item, nonnegFinite (Item.price item)) l → 0 <= exactSum l.
Proof.
  intros Hl. rewrite exactSum_fmap. apply sumR_nonneg.
  apply Forall_fmap. exact Hl.
Qed.

Lemma exactOf_le (l : list Item.t) (who : string) :
  Forall (λ item, nonnegFinite (Item.price item)) l →
  0 <= exactOf l who <= exactSum l.
Proof.
  induction 1 as [|item l Hitem Hl IH].
  - unfold exactOf, exactSum, sumR. rewrite filter_nil. cbn. lra.
  - rewrite exactOf_cons. pose proof (realOf_nonneg _ Hitem).
    replace (exactSum (item :: l))
      with (realOf (Item.price item) + exactSum l)
      by (unfold exactSum, sumR; reflexivity).
    destruct (decide (Item.assignedTo item = who)); lra.
Qed.

Lemma sumR_affine {A : Type} (f : A → R) (c d : R) (l : list A) :
  sumR ((λ k, f k * c + d) <$> l) = sumR (f <$> l) * c + INR (length l) * d.
Proof.
  induction l as [|a l IH].
  - cbn. lra.
  - cbn [fmap list_fmap sumR foldr length].
    fold (sumR ((λ k, f k * c + d) <$> l)). fold (sumR (f <$> l)).
    rewrite IH, S_INR. lra.
Qed.

Lemma sumR_between (lo up : string → R) (L : list (string * number)) :
  (∀ k v, (k, v) ∈ L → lo k <= realOf v <= up k) →
  sumR (lo <$> L.*1) <= sumR (realOf <$> L.*2) <= sumR (up <$> L.*1).
Proof.
  induction L as [|[k v] L IH]; intros HL.
  - cbn. lra.
  - cbn [fmap list_fmap sumR foldr fst snd].
    fold (sumR (lo <$> L.*1)). fold (sumR (up <$> L.*1)).
    fold (sumR (realOf <$> L.*2)).
    pose proof (HL k v (list_elem_of_here _ _)).
    assert (sumR (lo <$> L.*1) <= sumR (realOf <$> L.*2) <= sumR (up <$> L.*1)).
    { apply IH. intros k' v' Hin. apply HL, list_elem_of_further, Hin. }
    lra.
Qed.

Section Bill.
Variable st : State.
Hypothesis Hbill : conservable st.
Local Abbreviation Hassigned := (assigned st Hbill).
Local Abbreviation Hprices := (priced st Hbill).
Local Abbreviation Htax := (taxed st Hbill).
Local Abbreviation Htip := (tipped st Hbill).
Local Abbreviation Htotal := (moderate st Hbill).
Local Abbreviation Hlen := (countable st Hbill).

Lemma total_isFinite : isFinite (total st) = true.
Proof.
  pose proof (pow2_pos (-1000)). pose proof Htotal as H'. revert H'.
  destruct (total st); cbn [realOf isFinite]; intros; try lra; reflexivity.
Qed.

Lemma parts_isFinite :
  isFinite (subtotal st) = true ∧ isFinite (taxAmount st) = true
  ∧ isFinite (tipAmount st) = true
  ∧ isFinite (add (subtotal st) (taxAmount st)) = true.
Proof.
  pose proof total_isFinite as H. unfold total in H.
  apply add_isFinite in H as [Hy Htip'].
  pose proof Hy as Hy'. apply add_isFinite in Hy as [HS Htax'].
  tauto.
Qed.

Lemma prices_nonnegFinite :
  Forall (λ item, nonnegFinite (Item.price item)) (items st).
Proof.
  destruct parts_isFinite as (HS & _).
  unfold subtotal, sumPrices in HS. rewrite foldl_prices in HS.
  apply foldl_add_all_finite in HS. rewrite Forall_fmap in HS.
  pose proof Hprices as Hp. rewrite Forall_forall in HS, Hp.
  apply Forall_forall. intros item Hin.
  destruct (Hp item Hin) as [Hvalid Hsign].
  apply price_nonnegFinite; [exact Hvalid|exact (HS item Hin)|exact Hsign].
Qed.

Lemma zero_nonnegFinite : nonnegFinite (ofZ 0).
Proof. left. exists false. reflexivity. Qed.

Lemma realOf_zero : realOf (ofZ 0) = 0.
Proof. reflexivity. Qed.

Lemma subtotal_bounds :
  nonnegFinite (subtotal st)
  ∧ exactSum (items st) * (1 - u) ^ length (items st)
    <= realOf (subtotal st)
    <= exactSum (items st) * (1 + u) ^ length (items st).
Proof.
  destruct parts_isFinite as (HS & _).
  unfold subtotal, sumPrices in *. rewrite foldl_prices in *.
  assert (Forall nonnegFinite (Item.price <$> items st)) as Hp
    by (apply Forall_fmap; exact prices_nonnegFinite).
  pose proof (fsum_bounds (Item.price <$> items st) (ofZ 0)
                zero_nonnegFinite Hp (or_introl HS)) as [Hfin Hb].
  rewrite realOf_zero, Rplus_0_l, <- exactSum_fmap, length_fmap in Hb.
  split; assumption.
Qed.

Lemma tax_nonnegFinite : nonnegFinite (taxAmount st).
Proof.
  destruct parts_isFinite as (_ & H & _).
  apply mul_nonnegFinite; [exact H|exact Htax].
Qed.

Lemma tip_nonnegFinite : nonnegFinite (tipAmount st).
Proof.
  destruct parts_isFinite as (_ & _ & H & _).
  apply mul_nonnegFinite; [exact H|exact Htip].
Qed.

Lemma total_bounds :
  (realOf (subtotal st) + (realOf (taxAmount st) + realOf (tipAmount st)))
  * (1 - u) ^ 2
  <= realOf (total st)
  <= (realOf (subtotal st) + (realOf (taxAmount st) + realOf (tipAmount st)))
     * (1 + u) ^ 2.
Proof.
  destruct parts_isFinite as (_ & _ & _ & Hy).
  destruct subtotal_bounds as [HS _].
  pose proof tax_nonnegFinite as HT. pose proof tip_nonnegFinite as HP.
  pose proof (realOf_nonneg _ HS). pose proof (realOf_nonneg _ HT).
  pose proof (realOf_nonneg _ HP).
  pose proof u_pos. pose proof u_small.
  destruct (rounds_bounds _ _ 0 (add_spec _ _ HS HT) ltac:(lra) (or_introl Hy))
    as [Hyfin Hyb].
  pose proof (realOf_nonneg _ Hyfin).
  destruct (rounds_bounds _ _ 0 (add_spec _ _ Hyfin HP) ltac:(lra)
              (or_introl total_isFinite)) as [_ Htb].
  change (add (add (subtotal st) (taxAmount st)) (tipAmount st))
    with (total st) in Htb.
  set (s := realOf (subtotal st)) in *. set (a := realOf (taxAmount st)) in *.
  set (b := realOf (tipAmount st)) in *.
  set (y := realOf (add (subtotal st) (taxAmount st))) in *.
  split.
  - apply Rle_trans with (2 := proj1 Htb).
    apply Rle_trans with (((s + a) * (1 - u) + b) * (1 - u) - 0).
    { assert (0 <= b * (u * (1 - u)))
        by (apply Rmult_le_pos; [lra|apply Rmult_le_pos; lra]).
      replace (((s + a) * (1 - u) + b) * (1 - u) - 0)
        with ((s + (a + b)) * (1 - u) ^ 2 + b * (u * (1 - u))) by ring.
      lra. }
    apply Rplus_le_compat_r, Rmult_le_compat_r; lra.
  - apply Rle_trans with (1 := proj2 Htb).
    apply Rle_trans with (((s + a) * (1 + u) + b) * (1 + u) + 0).
    { apply Rplus_le_compat_r, Rmult_le_compat_r; lra. }
    assert (0 <= b * (u * (1 + u)))
      by (apply Rmult_le_pos; [lra|apply Rmult_le_pos; lra]).
    replace ((s + (a + b)) * (1 + u) ^ 2)
      with (((s + a) * (1 + u) + b) * (1 + u) + b * (u * (1 + u))) by ring.
    lra.
Qed.

Lemma subtotal_positive :
  (subtotal st === 0)%js = false ∧ 0 < realOf (subtotal st).
Proof.
  destruct subtotal_bounds as [HS _].
  destruct (subtotal st === 0)%js eqn:Hzero.
  - exfalso. apply NumberFacts.strictEq_0_iff in Hzero as [s Hs].
    assert (null (total st)) as Hnull.
    { unfold total, tipAmount, taxAmount. rewrite Hs.
      apply null_add; [apply null_add; [exact I|apply null_mul; exact I]|].
      apply null_mul, null_add; [exact I|apply null_mul; exact I]. }
    apply null_realOf in Hnull. pose proof (pow2_pos (-1000)).
    pose proof Htotal. lra.
  - split; [reflexivity|]. apply nonnegFinite_pos; assumption.
Qed.

Lemma magnitudes :
  0 < realOf (total st)
  ∧ realOf (subtotal st) + (realOf (taxAmount st) + realOf (tipAmount st))
    <= 2 * realOf (total st)
  ∧ 1 <= pow2 1000 * realOf (total st)
  ∧ 8 * realOf (total st) * 1024 <= pow2 972
  ∧ 4 * realOf (total st) <= pow2 902.
Proof.
  pose proof total_bounds as [Hlow _]. pose proof Htotal as [Hmin Hmax].
  pose proof u_pos. pose proof u_small.
  pose proof (pow2_pos (-1000)). pose proof (pow2_pos 1000).
  destruct subtotal_bounds as [HS _].
  pose proof (realOf_nonneg _ HS).
  pose proof (realOf_nonneg _ tax_nonnegFinite).
  pose proof (realOf_nonneg _ tip_nonnegFinite).
  set (tot := realOf (total st)) in *.
  assert (/ 2 <= (1 - u) ^ 2) as Hhalf by nra.
  assert (realOf (subtotal st)
          + (realOf (taxAmount st) + realOf (tipAmount st)) <= 2 * tot) as Hsum.
  { assert ((realOf (subtotal st)
             + (realOf (taxAmount st) + realOf (tipAmount st))) * / 2
            <= (realOf (subtotal st)
                + (realOf (taxAmount st) + realOf (tipAmount st)))
               * (1 - u) ^ 2)
      by (apply Rmult_le_compat_l; lra).
    lra. }
  split; [lra|]. split; [exact Hsum|]. split.
  - apply Rle_trans with (pow2 1000 * pow2 (-1000)).
    + rewrite <- pow2_add. change (1000 + -1000)%Z with 0%Z.
      unfold pow2, powerRZ. lra.
    + apply Rmult_le_compat_l; lra.
  - pose proof pow2_972_large. pose proof pow2_904.
    assert (pow2 902 = 4 * pow2 900) as H902.
    { replace 902%Z with (900 + 1 + 1)%Z by lia. rewrite !pow2_succ. lra. }
    pose proof (pow2_pos 900). split; lra.
Qed.

Lemma taxtip_bounds :
  nonnegFinite (add (taxAmount st) (tipAmount st))
  ∧ (realOf (taxAmount st) + realOf (tipAmount st)) * (1 - u)
    <= realOf (add (taxAmount st) (tipAmount st))
    <= (realOf (taxAmount st) + realOf (tipAmount st)) * (1 + u).
Proof.
  destruct magnitudes as (Htot & Hsum & _ & Hbig & _).
  destruct subtotal_bounds as [HS _].
  pose proof (realOf_nonneg _ HS).
  pose proof (realOf_nonneg _ tax_nonnegFinite).
  pose proof (realOf_nonneg _ tip_nonnegFinite).
  pose proof u_pos. pose proof u_small.
  destruct (rounds_bounds _ _ 0
              (add_spec _ _ tax_nonnegFinite tip_nonnegFinite)
              ltac:(lra) ltac:(right; nra)) as [Hfin Hb].
  split; [exact Hfin|lra].
Qed.

Lemma items_countable :
  (Z.of_nat (length (items st) + length (people st) + 4) <= roundings)%Z.
Proof. pose proof Hlen. unfold roundings. lia. Qed.

Lemma person_bounds (who : string) :
  nonnegFinite (personSubtotal st who)
  ∧ exactOf (items st) who * (1 - u) ^ length (items st)
    <= realOf (personSubtotal st who)
    <= exactOf (items st) who * (1 + u) ^ length (items st).
Proof.
  destruct magnitudes as (Htot & Hsum & _ & Hbig & _).
  destruct subtotal_bounds as [HS [HSlow _]].
  pose proof (realOf_nonneg _ HS).
  pose proof (realOf_nonneg _ tax_nonnegFinite).
  pose proof (realOf_nonneg _ tip_nonnegFinite).
  pose proof u_pos. pose proof u_small. pose proof drift_small.
  pose proof (exactOf_le (items st) who prices_nonnegFinite) as [HX0 HXle].
  pose proof items_countable as Hcount.
  unfold personSubtotal, sumPrices, personItems. rewrite foldl_prices.
  set (mine := filter (λ item, Item.assignedTo item = who) (items st)).
  assert (length mine <= length (items st))%nat as Hshort
    by apply length_filter.
  assert (Forall nonnegFinite (Item.price <$> mine)) as Hmine.
  { apply Forall_fmap, Forall_forall. intros item Hin.
    apply list_elem_of_filter in Hin as [_ Hin].
    pose proof prices_nonnegFinite as Hp. rewrite Forall_forall in Hp.
    exact (Hp item Hin). }
  pose proof (pow_down_drift (length (items st)) ltac:(lia)) as Hdown.
  pose proof (pow_up_drift (length mine) ltac:(lia)) as Hup.
  pose proof (pow_up_ge_1 (length mine)) as Hup1.
  pose proof (pow_down_le_1 (length (items st))) as Hdown1.
  assert (exactSum (items st) <= 2 * realOf (subtotal st)) as HX by nra.
  assert ((1 + u) ^ length mine <= 2) as Hup2 by nra.
  destruct (fsum_bounds (Item.price <$> mine) (ofZ 0) zero_nonnegFinite Hmine)
    as [Hfin Hb].
  { right. rewrite realOf_zero, Rplus_0_l, <- exactSum_fmap, length_fmap.
    change (exactSum mine) with (exactOf (items st) who).
    apply Rle_lt_trans with (exactSum (items st) * 2).
    - apply Rmult_le_compat; lra.
    - lra. }
  rewrite realOf_zero, Rplus_0_l, <- exactSum_fmap, length_fmap in Hb.
  change (exactSum mine) with (exactOf (items st) who) in Hb.
  split; [exact Hfin|]. split.
  - apply Rle_trans with (2 := proj1 Hb).
    apply Rmult_le_compat_l; [lra|]. apply pow_down_mono, Hshort.
  - apply Rle_trans with (1 := proj2 Hb).
    apply Rmult_le_compat_l; [lra|]. apply pow_up_mono, Hshort.
Qed.

(** The ratio of tax plus tip to the subtotal, and the absolute part of
    the error of one owed amount. *)
Local Abbreviation n := (length (items st)).
Local Abbreviation rho :=
  (realOf (add (taxAmount st) (tipAmount st)) / realOf (subtotal st)).
Local Abbreviation beta :=
  (eta * (2 * realOf (add (taxAmount st) (tipAmount st)) + 2)).
Local Abbreviation upper :=
  ((1 + u) ^ length (items st) * ((1 + u) + rho * (1 + u) ^ 3)).
Local Abbreviation lower :=
  ((1 - u) ^ length (items st) * ((1 - u) + rho * (1 - u) ^ 3)).

Lemma rho_nonneg : 0 <= rho ∧ rho * realOf (subtotal st)
                             = realOf (add (taxAmount st) (tipAmount st)).
Proof.
  destruct subtotal_positive as [_ Hs]. destruct taxtip_bounds as [HT _].
  pose proof (realOf_nonneg _ HT). split.
  - apply Rmult_le_pos; [lra|]. left. apply Rinv_0_lt_compat, Hs.
  - field. lra.
Qed.

Lemma owed_entry_bounds (who : string) :
  nonnegFinite (add (personSubtotal st who) (personTaxTipShare st who))
  ∧ exactOf (items st) who * lower - beta
    <= realOf (add (personSubtotal st who) (personTaxTipShare st who))
    <= exactOf (items st) who * upper + beta.
Proof.
  destruct magnitudes as (Htot & Hsum & _ & _ & Hbig).
  destruct subtotal_bounds as [HS [HSlow HSup]].
  destruct subtotal_positive as [_ Hs].
  destruct taxtip_bounds as [HT [HTlow HTup]].
  destruct (person_bounds who) as [HP [HPlow HPup]].
  destruct rho_nonneg as [Hrho Hrhos].
  pose proof (realOf_nonneg _ tax_nonnegFinite).
  pose proof (realOf_nonneg _ tip_nonnegFinite).
  pose proof (realOf_nonneg _ HP) as Hp0.
  pose proof (realOf_nonneg _ HT) as Ht0.
  pose proof u_pos. pose proof u_small. pose proof drift_small as Hd.
  pose proof (exactOf_le (items st) who prices_nonnegFinite) as [HX0 HXle].
  pose proof items_countable as Hcount.
  pose proof (pow_down_drift (length (items st)) ltac:(lia)) as Hdown.
  pose proof (pow_up_drift (length (items st)) ltac:(lia)) as Hup.
  pose proof (pow_up_ge_1 (length (items st))) as Hup1.
  pose proof (pow_down_le_1 (length (items st))) as Hdown1.
  set (G := (1 + u) ^ length (items st)) in *.
  set (H' := (1 - u) ^ length (items st)) in *.
  set (X := exactSum (items st)) in *.
  set (Xk := exactOf (items st) who) in *.
  set (p := realOf (personSubtotal st who)) in *.
  set (s := realOf (subtotal st)) in *.
  set (t := realOf (add (taxAmount st) (tipAmount st))) in *.
  assert (p <= 2 * s) as Hps.
  { assert (p <= X * G).
    { apply Rle_trans with (1 := HPup). apply Rmult_le_compat_r; lra. }
    assert (X * G * (1 - drift) <= X * 1).
    { rewrite Rmult_assoc. apply Rmult_le_compat_l; [lra|exact Hup]. }
    assert (X * (1 - drift) <= s).
    { apply Rle_trans with (2 := HSlow). apply Rmult_le_compat_l; lra. }
    assert (X * G * (1 - drift) * (1 - drift) <= s).
    { apply Rle_trans with (X * 1 * (1 - drift)); [|lra].
      apply Rmult_le_compat_r; lra. }
    assert (p * (1 - drift) * (1 - drift) <= X * G * (1 - drift) * (1 - drift)).
    { apply Rmult_le_compat_r; [lra|]. apply Rmult_le_compat_r; lra. }
    assert (p * / 2 <= p * ((1 - drift) * (1 - drift))).
    { apply Rmult_le_compat_l; [lra|]. nra. }
    lra. }
  assert (p <= pow2 902) as Hpbig by lra.
  assert (t <= pow2 902) as Htbig by nra.
  destruct (owed_bounds (personSubtotal st who) (subtotal st)
              (add (taxAmount st) (tipAmount st)) HP HS HT Hs Hps
              Hpbig Htbig) as [HO [HOlow HOup]].
  fold p s t in HOlow, HOup.
  split; [exact HO|].
  replace (p / s * t) with (p * (t / s)) in HOlow, HOup
    by (field; lra).
  assert (0 <= (t / s) * (1 + u) ^ 3)
    by (apply Rmult_le_pos; [lra|apply pow_le; lra]).
  assert (0 <= (t / s) * (1 - u) ^ 3)
    by (apply Rmult_le_pos; [lra|apply pow_le; lra]).
  split.
  - apply Rle_trans with (2 := HOlow).
    replace (p * (1 - u) + p * (t / s) * (1 - u) ^ 3 - eta * (2 * t + 2))
      with (p * ((1 - u) + t / s * (1 - u) ^ 3) - eta * (2 * t + 2)) by ring.
    apply Rplus_le_compat_r.
    rewrite <- Rmult_assoc. apply Rmult_le_compat_r; [lra|exact HPlow].
  - apply Rle_trans with (1 := HOup).
    replace (p * (1 + u) + p * (t / s) * (1 + u) ^ 3 + eta * (2 * t + 2))
      with (p * ((1 + u) + t / s * (1 + u) ^ 3) + eta * (2 * t + 2)) by ring.
    apply Rplus_le_compat_r.
    rewrite <- Rmult_assoc. apply Rmult_le_compat_r; [lra|exact HPup].
Qed.

Lemma owed_entries (k : string) (v : number) :
  (k, v) ∈ map_to_list (calculateOwed st) →
  k ∈ names st
  ∧ v = add (personSubtotal st k) (personTaxTipShare st k).
Proof.
  destruct subtotal_positive as [Hzero _].
  intros Hin. apply elem_of_map_to_list in Hin.
  rewrite (Allocation.calculateOwed_lookup st k Hzero) in Hin.
  destruct (decide (k ∈ names st ∧ k ≠ "__proto__")) as [Hyes|Hno].
  - rewrite (bool_decide_true _ Hyes) in Hin.
    injection Hin as <-. split; [apply Hyes|reflexivity].
  - rewrite (bool_decide_false _ Hno) in Hin. discriminate Hin.
Qed.

Lemma keys_cover :
  Forall (λ item, Item.assignedTo item ∈ (map_to_list (calculateOwed st)).*1)
    (items st).
Proof.
  destruct subtotal_positive as [Hzero _].
  pose proof Hassigned as Ha. rewrite Forall_forall in Ha.
  apply Forall_forall. intros item Hin.
  apply list_elem_of_fmap.
  exists (Item.assignedTo item,
          add (personSubtotal st (Item.assignedTo item))
              (personTaxTipShare st (Item.assignedTo item))).
  split; [reflexivity|]. apply elem_of_map_to_list.
  rewrite (Allocation.calculateOwed_lookup st _ Hzero).
  rewrite bool_decide_true by exact (Ha item Hin). reflexivity.
Qed.

Lemma owed_sum_bounds :
  Forall nonnegFinite (map_to_list (calculateOwed st)).*2
  ∧ (length (map_to_list (calculateOwed st)) <= length (people st))%nat
  ∧ exactSum (items st) * lower
    - INR (length (map_to_list (calculateOwed st))) * beta
    <= sumR (realOf <$> (map_to_list (calculateOwed st)).*2)
    <= exactSum (items st) * upper
       + INR (length (map_to_list (calculateOwed st))) * beta.
Proof.
  set (L := map_to_list (calculateOwed st)).
  assert (NoDup L.*1) as Hnodup by apply NoDup_fst_map_to_list.
  split; [|split].
  - apply Forall_fmap, Forall_forall. intros [k v] Hin.
    destruct (owed_entries k v Hin) as [_ ->]. apply owed_entry_bounds.
  - rewrite <- (length_fmap fst L).
    rewrite <- (length_fmap Person.name (people st)).
    apply submseteq_length, NoDup_submseteq; [exact Hnodup|].
    intros k Hk. apply list_elem_of_fmap in Hk as [[k' v] [-> Hin]].
    apply (owed_entries k' v Hin).
  - pose proof (sumR_between
                  (λ k, exactOf (items st) k * lower + - beta)
                  (λ k, exactOf (items st) k * upper + beta) L) as Hb.
    rewrite !sumR_affine in Hb.
    rewrite (exact_partition (items st) L.*1 Hnodup keys_cover) in Hb.
    rewrite length_fmap in Hb.
    assert (∀ k v, (k, v) ∈ L →
                   exactOf (items st) k * lower + - beta <= realOf v
                   <= exactOf (items st) k * upper + beta) as Hall.
    { intros k v Hin. destruct (owed_entries k v Hin) as [_ ->].
      destruct (owed_entry_bounds k) as [_ Hk]. lra. }
    specialize (Hb Hall). lra.
Qed.

Lemma beta_small :
  beta <= 10 * pow2 (-75) * realOf (total st).
Proof.
  destruct magnitudes as (Htot & Hsum & Hone & _ & _).
  destruct subtotal_bounds as [HS _]. destruct taxtip_bounds as [HT [_ HTup]].
  pose proof (realOf_nonneg _ HS). pose proof (realOf_nonneg _ HT).
  pose proof (realOf_nonneg _ tax_nonnegFinite).
  pose proof (realOf_nonneg _ tip_nonnegFinite).
  pose proof u_pos. pose proof u_small. pose proof eta_pos.
  set (t := realOf (add (taxAmount st) (tipAmount st))) in *.
  set (tot := realOf (total st)) in *.
  assert (t <= 4 * tot) as Ht by nra.
  assert (eta * pow2 1000 = pow2 (-75)) as Heta
    by (unfold eta; rewrite <- pow2_add; reflexivity).
  assert (eta <= pow2 (-75)) as Heta' by (apply pow2_le; lia).
  assert (eta * (2 * t + 2) <= eta * (8 * tot + 2 * (pow2 1000 * tot)))
    by (apply Rmult_le_compat_l; lra).
  assert (eta * (8 * tot) <= pow2 (-75) * (8 * tot))
    by (apply Rmult_le_compat_r; lra).
  replace (eta * (8 * tot + 2 * (pow2 1000 * tot)))
    with (eta * (8 * tot) + 2 * (eta * pow2 1000) * tot) in * by ring.
  rewrite Heta in *. lra.
Qed.

(** A value between the exact sum of the owed amounts scaled by [j]
    roundings down and up is within the tolerance of the total. *)
Lemma tolerance (j : nat) (f : R) :
  (j <= length (map_to_list (calculateOwed st)))%nat →
  sumR (realOf <$> (map_to_list (calculateOwed st)).*2) * (1 - u) ^ j
  <= f
  <= sumR (realOf <$> (map_to_list (calculateOwed st)).*2) * (1 + u) ^ j →
  withinRelative oneMillionth f (realOf (total st)).
Proof.
  intros Hj [Hflow Hfup].
  destruct magnitudes as (Htot & Hsum & Hone & _ & _).
  destruct subtotal_bounds as [HS [HSlow HSup]].
  destruct subtotal_positive as [_ Hs].
  destruct taxtip_bounds as [HT [HTlow HTup]].
  destruct rho_nonneg as [Hrho Hrhos].
  destruct owed_sum_bounds as (_ & Hshort & Hsumlow & Hsumup).
  pose proof beta_small as Hbeta.
  pose proof (realOf_nonneg _ tax_nonnegFinite) as Hta.
  pose proof (realOf_nonneg _ tip_nonnegFinite) as Hti.
  pose proof (exactSum_nonneg _ prices_nonnegFinite) as HX.
  pose proof u_pos as Hu. pose proof u_small as Hus.
  pose proof drift_small as Hd. pose proof eta_pos as Heta.
  pose proof Hlen as Hcount.
  set (k := length (map_to_list (calculateOwed st))) in *.
  assert (INR k <= 4000000000) as Hk.
  { rewrite INR_IZR_INZ. apply IZR_le. lia. }
  pose proof (pos_INR k) as Hk0.
  pose proof (pow_up_ge_1 n) as HGn. pose proof (pow_up_ge_1 j) as HGj.
  pose proof (pow_down_le_1 n) as HHn. pose proof (pow_down_le_1 j) as HHj.
  pose proof (pow_up_drift (n + 4 + j) ltac:(unfold roundings; lia)) as HG4.
  pose proof (pow_up_drift (n + 2) ltac:(unfold roundings; lia)) as HG2.
  pose proof (pow_down_drift (n + 2) ltac:(unfold roundings; lia)) as HH2.
  pose proof (pow_down_drift (n + 4 + j) ltac:(unfold roundings; lia)) as HH4.
  pose proof (pow_up_drift j ltac:(unfold roundings; lia)) as HGj'.
  repeat rewrite pow_add in HG4. repeat rewrite pow_add in HG2.
  repeat rewrite pow_add in HH2. repeat rewrite pow_add in HH4.
  destruct (conservation_arith
              (exactSum (items st)) (realOf (subtotal st))
              (realOf (taxAmount st) + realOf (tipAmount st))
              (realOf (add (taxAmount st) (tipAmount st)))
              (realOf (total st)) rho
              ((1 + u) ^ n) ((1 - u) ^ n) ((1 + u) ^ j) ((1 - u) ^ j)
              HX (conj HSlow HSup) Hs Hrhos ltac:(lra) (conj HTlow HTup)
              total_bounds HGn HGj HHn HHj HG4 HG2 HH2 HH4)
    as [Hupper Hlower].
  set (tot := realOf (total st)) in *.
  set (sigma := sumR (realOf <$> (map_to_list (calculateOwed st)).*2)) in *.
  set (UP := exactSum (items st) * upper) in *.
  set (LO := exactSum (items st) * lower) in *.
  set (b := eta * (2 * realOf (add (taxAmount st) (tipAmount st)) + 2)) in *.
  assert (0 <= b) as Hb0.
  { unfold b. apply Rmult_le_pos; [lra|].
    pose proof (realOf_nonneg _ HT). lra. }
  assert (pow2 (-75) = / 37778931862957161709568) as H75.
  { change (pow2 (-75)) with (pow2 (- (75))).
    rewrite (pow2_neg 75) by lia. f_equal. }
  assert (INR k * b <= 40000000000 * pow2 (-75) * tot) as Hkb.
  { apply Rle_trans with (4000000000 * (10 * pow2 (-75) * tot)); [|lra].
    apply Rmult_le_compat; lra. }
  assert ((1 + u) ^ j <= 2) as HGj2 by nra.
  (* upper *)
  assert (f <= UP * (1 + u) ^ j + 2 * (INR k * b)) as Hfu.
  { apply Rle_trans with (1 := Hfup).
    apply Rle_trans with ((UP + INR k * b) * (1 + u) ^ j).
    - apply Rmult_le_compat_r; lra.
    - assert (INR k * b * (1 + u) ^ j <= INR k * b * 2)
        by (apply Rmult_le_compat_l; [apply Rmult_le_pos; lra|lra]).
      lra. }
  (* lower *)
  assert (LO * (1 - u) ^ j - INR k * b <= f) as Hfl.
  { apply Rle_trans with (2 := Hflow).
    apply Rle_trans with ((LO - INR k * b) * (1 - u) ^ j).
    - assert (INR k * b * (1 - u) ^ j <= INR k * b * 1)
        by (apply Rmult_le_compat_l; [apply Rmult_le_pos; lra|lra]).
      lra.
    - apply Rmult_le_compat_r; lra. }
  unfold withinRelative, oneMillionth.
  rewrite (Rabs_pos_eq tot) by lra.
  apply Rabs_le.
  replace (UP * (1 + u) ^ j * (1 - drift) ^ 2)
    with (UP * (1 + u) ^ j * ((1 - drift) ^ 2)) in Hupper by ring.
  unfold drift in Hupper, Hlower.
  rewrite H75 in Hkb.
  split; lra.
Qed.

Lemma exact_sum_close :
  withinRelative oneMillionth (sumValues (calculateOwed st))
    (realOf (total st)).
Proof.
  apply (tolerance 0); [lia|]. unfold sumValues. cbn [pow]. lra.
Qed.

Lemma float_sum_close (vs : list number) :
  vs ≡ₚ (map_to_list (calculateOwed st)).*2 →
  isFinite (foldl add (ofZ 0) vs) = true
  ∧ withinRelative oneMillionth (realOf (foldl add (ofZ 0) vs))
      (realOf (total st)).
Proof.
  intros Hperm.
  destruct owed_sum_bounds as (Hall & Hshort & _).
  destruct magnitudes as (Htot & _ & _ & Hbig & _).
  pose proof exact_sum_close as Hexact.
  unfold withinRelative, oneMillionth, sumValues in Hexact.
  rewrite (Rabs_pos_eq (realOf (total st))) in Hexact by lra.
  apply Rabs_bound in Hexact.
  assert (Forall nonnegFinite vs) as Hvs by (rewrite Hperm; exact Hall).
  assert (sumR (realOf <$> vs)
          = sumR (realOf <$> (map_to_list (calculateOwed st)).*2)) as Hsum
    by (apply sumR_perm, fmap_Permutation, Hperm).
  assert (length vs = length (map_to_list (calculateOwed st))) as Hlength
    by (rewrite Hperm, length_fmap; reflexivity).
  pose proof Hlen as Hcount. pose proof drift_small as Hd.
  pose proof (pow_up_drift (length vs) ltac:(unfold roundings; lia)) as Hup.
  pose proof (pow_up_ge_1 (length vs)) as Hup1.
  pose proof (sumR_nonneg vs Hvs) as Hsum0.
  assert ((1 + u) ^ length vs <= 2) as Hup2 by nra.
  destruct (fsum_bounds vs (ofZ 0) zero_nonnegFinite Hvs) as [Hfin Hb].
  { right. rewrite realOf_zero, Rplus_0_l.
    apply Rle_lt_trans with (2 * realOf (total st) * 2); [|lra].
    apply Rmult_le_compat; lra. }
  rewrite realOf_zero, Rplus_0_l, Hsum, Hlength in Hb.
  split; [apply nonnegFinite_isFinite, Hfin|].
  apply (tolerance (length (map_to_list (calculateOwed st)))); [lia|exact Hb].
Qed.

End Bill.

(** A positive double of moderate exponent lies within the range the
    theorem asks of the total. *)
Lemma finite_moderate (a : number) (m : positive) (e : Z) :
  a = S754_finite false m e →
  (-1000 <= e <= 800)%Z → (Z.pos m <= 2 ^ 53)%Z →
  pow2 (-1000) <= realOf a <= pow2 900.
Proof.
  intros -> He Hm. cbn [realOf].
  pose proof (pow2_pos e) as Hpos.
  assert (1 <= IZR (Z.pos m) <= pow2 53) as [Hm1 Hm2].
  { split; [apply IZR_le; lia|].
    rewrite pow2_IZR by lia. apply IZR_le, Hm. }
  pose proof (pow2_le (-1000) e ltac:(lia)) as Hlow.
  pose proof (pow2_le (53 + e) 900 ltac:(lia)) as Hhigh.
  rewrite pow2_add in Hhigh.
  assert (IZR (Z.pos m) * pow2 e <= pow2 53 * pow2 e)
    by (apply Rmult_le_compat_r; lra).
  assert (1 * pow2 e <= IZR (Z.pos m) * pow2 e)
    by (apply Rmult_le_compat_r; lra).
  lra.
Qed.

(** A sum that misses a positive total by more than a millionth of it. *)
Lemma not_within (a b : R) :
  0 < b → a < (1 - oneMillionth) * b ∨ (1 + oneMillionth) * b < a →
  ¬ withinRelative oneMillionth a b.
Proof.
  unfold withinRelative, oneMillionth. intros Hb Hoff Hclose.
  rewrite (Rabs_pos_eq b) in Hclose by lra.
  apply Rabs_bound in Hclose. lra.
Qed.

(** C2, as the code has it. On a bill whose items are all assigned to
    a participant not named [__proto__], whose prices are doubles that
    are not negative, whose tax and tip are not negative, whose total
    lies between 2^-1000 and 2^900, and whose items and participants
    are at most 4 000 000 000 together, the values of the object
    returned by [calculateOwed] add up to [total] within the relative
    tolerance 1e-6: both their exact sum and their sum in doubles,
    [values.reduce((a, b) => a + b, 0)], in whatever order the values
    are taken. *)
Theorem owed_sums_to_total (st : State) :
  Forall (λ item, Item.assignedTo item ∈ names st
                  ∧ Item.assignedTo item ≠ "__proto__") (items st) →
  Forall (λ item, representable (Item.price item) = true
                  ∧ lt (Item.price item) (ofZ 0) = false) (items st) →
  lt (taxAmount st) (ofZ 0) = false →
  lt (tipAmount st) (ofZ 0) = false →
  pow2 (-1000) <= realOf (total st) <= pow2 900 →
  (Z.of_nat (length (items st)) + Z.of_nat (length (people st))
   <= 4000000000)%Z →
  withinRelative oneMillionth (sumValues (calculateOwed st))
    (realOf (total st))
  ∧ ∀ vs, vs ≡ₚ (map_to_list (calculateOwed st)).*2 →
          isFinite (foldl add (ofZ 0) vs) = true
          ∧ withinRelative oneMillionth (realOf (foldl add (ofZ 0) vs))
              (realOf (total st)).
Proof.
  intros H1 H2 H3 H4 H5 H6.
  pose proof (Build_conservable st H1 H2 H3 H4 H5 H6) as Hbill.
  split; [apply exact_sum_close, Hbill|].
  intros vs Hperm. apply float_sum_close; assumption.
Qed.

(** Tea 0.1 and milk 0.2 for Alice, a scone of 0.3 for Bob, tax 10 %,
    tip 20 %: the total is the double 0.7920000000000001, Alice owes
    0.3960000000000001 and Bob 0.396; their sum in doubles is 0.792,
    the double below the total, and their exact sum lies between the
    two. *)
Lemma owed_sums_to_total_example :
  total Samples.threeDecimals = S754_finite false 7133701809754867 (-53)
  ∧ map_to_list (calculateOwed Samples.threeDecimals)
    = [("Alice", S754_finite false 7133701809754867 (-54));
       ("Bob", S754_finite false 7133701809754866 (-54))]
  ∧ withinRelative oneMillionth
      (sumValues (calculateOwed Samples.threeDecimals))
      (realOf (total Samples.threeDecimals))
  ∧ ∀ vs, vs ≡ₚ (map_to_list (calculateOwed Samples.threeDecimals)).*2 →
          isFinite (foldl add (ofZ 0) vs) = true
          ∧ withinRelative oneMillionth (realOf (foldl add (ofZ 0) vs))
              (realOf (total Samples.threeDecimals)).
Proof.
  split; [vm_compute; reflexivity|]. split; [vm_compute; reflexivity|].
  apply (owed_sums_to_total Samples.threeDecimals).
  - compute_done.
  - compute_done.
  - vm_compute. reflexivity.
  - vm_compute. reflexivity.
  - apply (finite_moderate _ 7133701809754867 (-53));
      [vm_compute; reflexivity|lia|lia].
  - cbn. lia.
Defined.

(** C2 as stated fails, in four ways.  A discount line: 0.1 and 0.2
    for Alice, -0.3 for Bob; the total is about 7.3e-17, the owed
    amounts add up to about 5.6e-17.  A participant called [__proto__]:
    the assignment to that key is lost and the entries add up to 3.96
    of a total of 9.24.  Prices that overflow: two items of 1e308; the
    total is [Infinity], the owed amounts are [NaN].  Prices that
    underflow: three items of 5e-324 and a tax of 50 %; the owed
    amounts are two units each, six in all, and the total is five. *)
Lemma sums_off_the_total :
  (Forall (λ item, Item.assignedTo item ∈ names Samples.discount)
     (items Samples.discount)
   ∧ map_to_list (calculateOwed Samples.discount)
     = [("Alice", S754_finite false 7133701809754867 (-54));
        ("Bob", S754_finite true 7133701809754866 (-54))]
   ∧ total Samples.discount = S754_finite false 5944751508129055 (-106)
   ∧ ¬ withinRelative oneMillionth
         (sumValues (calculateOwed Samples.discount))
         (realOf (total Samples.discount)))
  ∧ (Forall (λ item, Item.assignedTo item ∈ names Samples.protoCoffee)
       (items Samples.protoCoffee)
     ∧ map_to_list (calculateOwed Samples.protoCoffee)
       = [("Alice", S754_finite false 8917127262193582 (-51))]
     ∧ total Samples.protoCoffee = S754_finite false 5201657569612923 (-49)
     ∧ ¬ withinRelative oneMillionth
           (sumValues (calculateOwed Samples.protoCoffee))
           (realOf (total Samples.protoCoffee)))
  ∧ (Forall (λ item, Item.assignedTo item ∈ names Samples.hugePrices)
       (items Samples.hugePrices)
     ∧ map_to_list (calculateOwed Samples.hugePrices)
       = [("Alice", NaN); ("Bob", NaN)]
     ∧ total Samples.hugePrices = S754_infinity false)
  ∧ (Forall (λ item, Item.assignedTo item ∈ names Samples.tinyPrices)
       (items Samples.tinyPrices)
     ∧ map_to_list (calculateOwed Samples.tinyPrices)
       = [("Carol", S754_finite false 2 (-1074));
          ("Alice", S754_finite false 2 (-1074));
          ("Bob", S754_finite false 2 (-1074))]
     ∧ total Samples.tinyPrices = S754_finite false 5 (-1074)
     ∧ ¬ withinRelative oneMillionth
           (sumValues (calculateOwed Samples.tinyPrices))
           (realOf (total Samples.tinyPrices))).
Proof.
  assert (map_to_list (calculateOwed Samples.discount)
          = [("Alice", S754_finite false 7133701809754867 (-54));
             ("Bob", S754_finite true 7133701809754866 (-54))]) as Hdiscount
    by (vm_compute; reflexivity).
  assert (total Samples.discount
          = S754_finite false 5944751508129055 (-106)) as Hdiscount'
    by (vm_compute; reflexivity).
  assert (map_to_list (calculateOwed Samples.protoCoffee)
          = [("Alice", S754_finite false 8917127262193582 (-51))]) as Hproto
    by (vm_compute; reflexivity).
  assert (total Samples.protoCoffee
          = S754_finite false 5201657569612923 (-49)) as Hproto'
    by (vm_compute; reflexivity).
  assert (map_to_list (calculateOwed Samples.tinyPrices)
          = [("Carol", S754_finite false 2 (-1074));
             ("Alice", S754_finite false 2 (-1074));
             ("Bob", S754_finite false 2 (-1074))]) as Htiny
    by (vm_compute; reflexivity).
  assert (total Samples.tinyPrices = S754_finite false 5 (-1074)) as Htiny'
    by (vm_compute; reflexivity).
  split; [|split; [|split]].
  - split; [compute_done|]. split; [exact Hdiscount|].
    split; [exact Hdiscount'|].
    unfold sumValues. rewrite Hdiscount, Hdiscount'.
    cbn [fmap list_fmap fst snd sumR foldr realOf].
    pose proof (pow2_pos (-106)) as Hpos.
    assert (pow2 (-54) = 4503599627370496 * pow2 (-106)) as ->.
    { replace (-54)%Z with (52 + -106)%Z by lia.
      rewrite pow2_add, pow2_IZR by lia. f_equal. }
    apply not_within; [lra|]. left. unfold oneMillionth. lra.
  - split; [compute_done|]. split; [exact Hproto|].
    split; [exact Hproto'|].
    unfold sumValues. rewrite Hproto, Hproto'.
    cbn [fmap list_fmap fst snd sumR foldr realOf].
    pose proof (pow2_pos (-51)) as Hpos.
    assert (pow2 (-49) = 4 * pow2 (-51)) as ->.
    { replace (-49)%Z with (-51 + 1 + 1)%Z by lia. rewrite !pow2_succ. lra. }
    apply not_within; [lra|]. left. unfold oneMillionth. lra.
  - split; [compute_done|]. split; vm_compute; reflexivity.
  - split; [compute_done|]. split; [exact Htiny|].
    split; [exact Htiny'|].
    unfold sumValues. rewrite Htiny, Htiny'.
    cbn [fmap list_fmap fst snd sumR foldr realOf].
    pose proof (pow2_pos (-1074)) as Hpos.
    apply not_within; [lra|]. right. unfold oneMillionth. lra.
Qed.

End Conservation.

(** ** Unassigned items *)

Module Unclaimed.
Import JsString JsNumber App Spec NumberFacts Allocation.
Local Open Scope js_scope.

Lemma filter_middle_other (who : string) (before after : list Item.t) (it : Item.t) :
  Item.assignedTo it ≠ who →
  filter (λ item, Item.assignedTo item = who) (before ++ it :: after)
  = filter (λ item, Item.assignedTo item = who) (before ++ after).
Proof.
  intros Hne. rewrite !list.filter_app, filter_cons.
  rewrite decide_False by exact Hne. reflexivity.
Qed.

(** C4. With a positive subtotal, an item whose [assignedTo] is empty
    adds its price to the running sum of [subtotal] at its turn, hence to
    the amounts on which tax and tip are charged, but to no participant's
    personal subtotal: the personal subtotal of every participant is the
    [reduce] over the other items, and every entry of the object returned
    by [calculateOwed] is computed from it, over the whole subtotal; every
    participant but one called [__proto__] has such an entry. Participants
    have non-empty names, as [handleAddPerson] ensures. *)
Theorem unassigned_item_is_unclaimed (st : State)
    (before after : list Item.t) (it : Item.t) :
  items st = before ++ it :: after →
  Item.assignedTo it = "" →
  gt (subtotal st) 0 = true →
  (∀ p, p ∈ people st → Person.name p ≠ "") →
  let sum := foldl (λ sum item, sum + Item.price item) in
  let others := (before ++ after) in
  subtotal st = sum (sum 0 before + Item.price it) after
  ∧ taxAmount st
    = sum (sum 0 before + Item.price it) after
      * (parseFloat (orElse (taxPercent st) "0") / 100)
  ∧ tipAmount st
    = (sum (sum 0 before + Item.price it) after + taxAmount st)
      * (parseFloat (orElse (tipPercent st) "0") / 100)
  ∧ ∀ p, p ∈ people st →
      let personSubtotal :=
        sum 0 (filter (λ item, Item.assignedTo item = Person.name p) others) in
      App.personSubtotal st (Person.name p) = personSubtotal
      ∧ (∀ v, calculateOwed st !! Person.name p = Some v →
              v = personSubtotal
                  + personSubtotal / subtotal st * (taxAmount st + tipAmount st))
      ∧ (Person.name p ≠ "__proto__" →
         is_Some (calculateOwed st !! Person.name p)).
Proof.
  intros Hitems Hempty Hpos Hnames sum others.
  assert (subtotal st = sum (sum 0 before + Item.price it) after) as Hsub.
  { unfold subtotal, sumPrices. rewrite Hitems, foldl_app. reflexivity. }
  split_and!.
  - exact Hsub.
  - unfold taxAmount. rewrite Hsub. reflexivity.
  - unfold tipAmount. rewrite Hsub. reflexivity.
  - intros p Hp personSubtotal.
    assert (App.personSubtotal st (Person.name p) = personSubtotal) as Hps.
    { unfold App.personSubtotal, personItems.
      rewrite Hitems, filter_middle_other; [reflexivity|].
      rewrite Hempty. intros Heq. exact (Hnames p Hp (eq_sym Heq)). }
    pose proof (calculateOwed_lookup st (Person.name p)
                  (gt_0_not_strictEq_0 _ Hpos)) as Hlookup.
    split_and!.
    + exact Hps.
    + intros v Hv. rewrite Hlookup in Hv. case_bool_decide; [|discriminate Hv].
      injection Hv as <-. unfold personTaxTipShare. rewrite Hps. reflexivity.
    + intros Hproto. rewrite Hlookup, bool_decide_true; [eexists; reflexivity|].
      split; [|exact Hproto]. apply list_elem_of_In, in_map, list_elem_of_In, Hp.
Qed.

(** With the muffin unassigned, the subtotal is 4 + 3 = 7, the tax and
    the tip are charged on 7, Alice owes the coffee and its share of them,
    5.28, and Bob 0. *)
Lemma unassigned_item_is_unclaimed_example :
  subtotal Examples.unclaimedMuffin = ofZ 7
  ∧ taxAmount Examples.unclaimedMuffin + tipAmount Examples.unclaimedMuffin
    = S754_finite false 5044031582654956 (-51)
  ∧ personSubtotal Examples.unclaimedMuffin "Alice" = ofZ 4
  ∧ calculateOwed Examples.unclaimedMuffin !! "Alice"
    = Some (S754_finite false 5944751508129055 (-50))
  ∧ calculateOwed Examples.unclaimedMuffin !! "Bob" = Some 0.
Proof.
  destruct (unassigned_item_is_unclaimed Examples.unclaimedMuffin
              [Item.mk "1" (ofZ 1) "Coffee" (ofZ 4) "Alice"] []
              (Item.mk "2" (ofZ 1) "Muffin" (ofZ 3) ""))
    as (Hsub & Htax & Htip & Howed).
  - reflexivity.
  - reflexivity.
  - vm_compute. reflexivity.
  - intros p Hp. cbn in Hp.
    repeat (apply elem_of_cons in Hp as [->|Hp]);
      [discriminate..|apply elem_of_nil in Hp; destruct Hp].
  - destruct (Howed Examples.alice (list_elem_of_here _ _))
      as (Hps1 & Hv1 & [v1 He1]); [discriminate|].
    destruct (Howed Examples.bob
                (list_elem_of_further _ _ _ (list_elem_of_here _ _)))
      as (Hps2 & Hv2 & [v2 He2]); [discriminate|].
    change (Person.name Examples.alice) with "Alice" in *.
    change (Person.name Examples.bob) with "Bob" in *.
    split_and!.
    + rewrite Hsub. vm_compute. reflexivity.
    + rewrite Htip, Htax. vm_compute. reflexivity.
    + rewrite Hps1. vm_compute. reflexivity.
    + rewrite He1.
      rewrite (Hv1 v1 He1), Hsub, Htip, Htax. vm_compute. reflexivity.
    + rewrite He2.
      rewrite (Hv2 v2 He2), Hsub, Htip, Htax. vm_compute. reflexivity.
Defined.

End Unclaimed.

(** ** The payment summary *)

Module Summary.
Import JsString JsNumber App Spec NumberFacts StringFacts Allocation.
Local Open Scope js_scope.

(** A list renders when each of its elements does. *)
Lemma renderAll_Rendered {A B : Type} (f : A → Render B) (g : A → B)
    (l : list A) :
  (∀ a, a ∈ l → f a = Rendered (g a)) → renderAll f l = Rendered (map g l).
Proof.
  induction l as [|a l IH]; intros Hf; [reflexivity|].
  cbn [renderAll map]. rewrite (Hf a) by apply list_elem_of_here.
  rewrite IH; [reflexivity|].
  intros b Hb. apply Hf, list_elem_of_further, Hb.
Qed.

(** One element that throws makes the whole list throw. *)
Lemma renderAll_TypeError {A B : Type} (f : A → Render B) (l : list A) (a : A) :
  a ∈ l → f a = TypeError → renderAll f l = TypeError.
Proof.
  intros Hin Ha. induction l as [|b l IH]; [apply elem_of_nil in Hin; destruct Hin|].
  cbn [renderAll]. apply elem_of_cons in Hin as [<-|Hin].
  - rewrite Ha. reflexivity.
  - rewrite (IH Hin). destruct (f b); reflexivity.
Qed.

(** The line of a participant whose name is no key of
    [Object.prototype]. *)
Lemma summaryLine_plain (st : State) (person : Person.t) :
  Person.name person ∉ JsObject.prototypeKeys →
  summaryLine st person
  = Rendered (PaymentInstruction.mk (Person.name person) (paidBy st)
                (owed st (Person.name person))).
Proof.
  intros Hkey. unfold summaryLine, JsObject.get, owed.
  destruct (owedAmounts st !! Person.name person); [reflexivity|].
  rewrite bool_decide_false by exact Hkey. reflexivity.
Qed.

(** The non-payers, in the order of the registry. *)
Lemma paymentSummary_shown (st : State) :
  items st ≠ [] → paidBy st ≠ "" → people st ≠ [] →
  paymentSummary st
  = renderAll (summaryLine st)
      (filter (λ person, Person.name person ≠ paidBy st) (people st)).
Proof.
  intros Hitems Hpayer Hpeople. unfold paymentSummary.
  rewrite bool_decide_true by (destruct (items st); [contradiction|simpl; lia]).
  rewrite (proj2 (truthy_true_iff _) Hpayer).
  rewrite bool_decide_true by (destruct (people st); [contradiction|simpl; lia]).
  reflexivity.
Qed.

(** C5, as the code has it. With a designated payer and no participant
    named like a property of [Object.prototype]: the payer has an entry in
    the object returned by [calculateOwed] when the subtotal is not a zero;
    the payment summary is rendered, no line of it is from the payer and
    every line is directed to the payer; and when the bill has an item,
    the summary has exactly one line per participant other than the payer,
    whatever that participant owes, with the amount owed (0 without
    entry). *)
Theorem payment_summary_lines (st : State) :
  paidBy st ≠ "" →
  paidBy st ∈ names st →
  (∀ p, p ∈ people st → Person.name p ∉ JsObject.prototypeKeys) →
  ((subtotal st === 0) = false → is_Some (calculateOwed st !! paidBy st))
  ∧ ∃ lines,
      paymentSummary st = Rendered lines
      ∧ (∀ line, line ∈ lines →
           PaymentInstruction.from line ≠ paidBy st
           ∧ PaymentInstruction.to line = paidBy st)
      ∧ (items st ≠ [] →
         lines
         = map (λ person, PaymentInstruction.mk (Person.name person) (paidBy st)
                            (owed st (Person.name person)))
               (filter (λ person, Person.name person ≠ paidBy st) (people st))).
Proof.
  intros Hpayer Hin Hplain. split.
  - intros Hzero. rewrite (calculateOwed_lookup st _ Hzero).
    rewrite bool_decide_true; [eexists; reflexivity|].
    split; [exact Hin|]. intros Hproto.
    apply list_elem_of_In, in_map_iff in Hin as [p [Hp Hin]].
    apply (Hplain p); [apply list_elem_of_In, Hin|].
    rewrite Hp, Hproto. compute_done.
  - assert (people st ≠ []) as Hpeople.
    { intros Hnil. unfold names in Hin. rewrite Hnil in Hin.
      apply elem_of_nil in Hin. exact Hin. }
    destruct (decide (items st = [])) as [Hnone|Hitems].
    + exists []. unfold paymentSummary. rewrite Hnone. cbn.
      split_and!; [reflexivity| |contradiction].
      intros line []%elem_of_nil.
    + eexists. split_and!.
      * rewrite (paymentSummary_shown st Hitems Hpayer Hpeople).
        apply renderAll_Rendered. intros p [_ Hp]%list_elem_of_filter.
        apply summaryLine_plain, Hplain, Hp.
      * intros line Hline.
        apply list_elem_of_In, in_map_iff in Hline as [person [<- Hperson]].
        apply list_elem_of_In, list_elem_of_filter in Hperson as [Hne _].
        split; [exact Hne|reflexivity].
      * reflexivity.
Qed.

(** On the coffee-and-muffin bill Bob, the payer, has an entry and the
    summary is the single line from Alice to Bob, 9.24. *)
Lemma payment_summary_lines_example :
  is_Some (calculateOwed Examples.coffeeAndMuffin !! "Bob")
  ∧ paymentSummary Examples.coffeeAndMuffin
    = Rendered [PaymentInstruction.mk "Alice" "Bob"
                  (S754_finite false 5201657569612923 (-49))].
Proof.
  destruct (payment_summary_lines Examples.coffeeAndMuffin)
    as (Hentry & lines & Hrendered & _ & Hlines).
  - discriminate.
  - apply list_elem_of_further, list_elem_of_here.
  - intros p Hp. cbn in Hp.
    repeat (apply elem_of_cons in Hp as [->|Hp];
            [compute_done|]).
    apply elem_of_nil in Hp. destruct Hp.
  - split; [apply Hentry; reflexivity|].
    rewrite Hrendered, Hlines by discriminate. vm_compute. reflexivity.
Defined.

(** C5 as stated fails. On a bill whose subtotal is 0 the payer has no
    entry in the object; and a participant who owes nothing is listed all
    the same: the summary is not restricted to amounts above 0. *)
Lemma summary_lists_whoever_is_not_payer :
  (paidBy Examples.freeCoffee ∈ names Examples.freeCoffee
   ∧ calculateOwed Examples.freeCoffee !! paidBy Examples.freeCoffee = None
   ∧ paymentSummary Examples.freeCoffee
     = Rendered [PaymentInstruction.mk "Alice" "Bob" 0]
   ∧ claimedInstructions Examples.freeCoffee = [])
  ∧ (paidBy Examples.bobsCoffee ∈ names Examples.bobsCoffee
     ∧ gt (owed Examples.bobsCoffee "Alice") 0 = false
     ∧ paymentSummary Examples.bobsCoffee
       = Rendered [PaymentInstruction.mk "Alice" "Bob" 0]
     ∧ claimedInstructions Examples.bobsCoffee = []).
Proof.
  repeat split; try (vm_compute; reflexivity);
    apply list_elem_of_further, list_elem_of_here.
Qed.

(** The end-to-end example of the specification: subtotal 7.00, tip 1.54
    and total 9.24 are the doubles nearest to these decimals, the tax is
    not the double nearest to 0.70; Alice owes 9.24 and Bob 0; one line,
    Alice pays Bob 9.24. *)
Lemma end_to_end_example :
  subtotal Examples.coffeeAndMuffin = parseFloat "7.00"
  ∧ (taxAmount Examples.coffeeAndMuffin === parseFloat "0.70") = false
  ∧ tipAmount Examples.coffeeAndMuffin = parseFloat "1.54"
  ∧ total Examples.coffeeAndMuffin = parseFloat "9.24"
  ∧ owed Examples.coffeeAndMuffin "Alice" = parseFloat "9.24"
  ∧ owed Examples.coffeeAndMuffin "Bob" = 0
  ∧ paymentSummary Examples.coffeeAndMuffin
    = Rendered [PaymentInstruction.mk "Alice" "Bob" (parseFloat "9.24")].
Proof. split_and!; vm_compute; reflexivity. Qed.

End Summary.

(** ** The participant registry *)

Module Registry.
Import JsString JsNumber App Spec StringFacts.

(** [find] on the id returns a participant of the registry with that id. *)
Lemma find_by_id (personId : string) (l : list Person.t) (q : Person.t) :
  List.find (λ p, bool_decide (Person.id p = personId)) l = Some q →
  q ∈ l ∧ Person.id q = personId.
Proof.
  intros Hfind. apply find_some in Hfind as [Hin Hid].
  split; [apply list_elem_of_In, Hin|].
  apply bool_decide_eq_true in Hid. exact Hid.
Qed.

(** With distinct ids, a participant is determined by the id. *)
Lemma same_id_same_person (l : list Person.t) (p q : Person.t) :
  NoDup (map Person.id l) → p ∈ l → q ∈ l → Person.id p = Person.id q → p = q.
Proof.
  induction l as [|r l IH]; intros Hnodup Hp Hq Hid.
  - apply elem_of_nil in Hp. destruct Hp.
  - cbn [map] in Hnodup. apply NoDup_cons in Hnodup as [Hfresh Hnodup].
    apply elem_of_cons in Hp as [->|Hp]; apply elem_of_cons in Hq as [->|Hq].
    + reflexivity.
    + destruct Hfresh. rewrite Hid.
      apply list_elem_of_In, in_map, list_elem_of_In, Hq.
    + destruct Hfresh. rewrite <- Hid.
      apply list_elem_of_In, in_map, list_elem_of_In, Hp.
    + apply IH; assumption.
Qed.

Lemma find_present (l : list Person.t) (p : Person.t) :
  NoDup (map Person.id l) → p ∈ l →
  List.find (λ q, bool_decide (Person.id q = Person.id p)) l = Some p.
Proof.
  intros Hnodup Hp.
  destruct (List.find _ l) as [q|] eqn:Hfind.
  - apply find_by_id in Hfind as [Hq Hid]. f_equal.
    apply (same_id_same_person l); assumption.
  - pose proof (find_none _ _ Hfind p (proj1 (list_elem_of_In _ _) Hp)) as Hno.
    cbv beta in Hno. rewrite bool_decide_true in Hno by reflexivity.
    discriminate.
Qed.

(** C6, as the code has it. Removing a participant of the registry, ids
    being distinct, empties [assignedTo] on exactly the items assigned to that
    participant's name and leaves every other field of every item as it
    was, so the number of items is unchanged; it clears the payer if the
    payer was that participant, removes the participant from the registry
    and keeps all the others. *)
Theorem removing_participant (st : State) (p : Person.t) :
  p ∈ people st →
  NoDup (map Person.id (people st)) →
  let st' := handleRemovePerson (Person.id p) st in
  Forall2 (λ old new,
             Item.id new = Item.id old
             ∧ Item.quantity new = Item.quantity old
             ∧ Item.name new = Item.name old
             ∧ Item.price new = Item.price old
             ∧ Item.assignedTo new
               = if decide (Item.assignedTo old = Person.name p)
                 then "" else Item.assignedTo old)
          (items st) (items st')
  ∧ length (items st') = length (items st)
  ∧ paidBy st' = (if decide (paidBy st = Person.name p) then "" else paidBy st)
  ∧ (p ∉ people st')
  ∧ (∀ q, q ∈ people st' ↔ q ∈ people st ∧ q ≠ p)
  ∧ taxPercent st' = taxPercent st
  ∧ tipPercent st' = tipPercent st
  ∧ newPersonName st' = newPersonName st.
Proof.
  intros Hp Hnodup st'. unfold st', handleRemovePerson.
  rewrite (find_present _ _ Hnodup Hp). cbn.
  assert (∀ q, q ∈ filter (λ q, Person.id q ≠ Person.id p) (people st)
               ↔ q ∈ people st ∧ q ≠ p) as Hkept.
  { intros q. rewrite list_elem_of_filter. split.
    - intros [Hid Hq]. split; [exact Hq|]. intros ->. apply Hid. reflexivity.
    - intros [Hq Hne]. split; [|exact Hq]. intros Hid. apply Hne.
      apply (same_id_same_person (people st)); assumption. }
  split_and!.
  - induction (items st) as [|i l IH]; cbn [map]; constructor; [|exact IH].
    case_bool_decide as Hmine.
    + rewrite decide_True by exact Hmine. repeat split; reflexivity.
    + rewrite decide_False by exact Hmine. repeat split; reflexivity.
  - apply length_map.
  - case_bool_decide as Hpayer.
    + rewrite decide_True by exact Hpayer. reflexivity.
    + rewrite decide_False by exact Hpayer. reflexivity.
  - intros Hin. apply Hkept in Hin as [_ Hne]. apply Hne. reflexivity.
  - exact Hkept.
  - reflexivity.
  - reflexivity.
  - reflexivity.
Qed.

(** Removing Alice from the coffee-and-muffin bill unassigns both items,
    keeps them, keeps Bob as payer and takes Alice out of the registry. *)
Lemma removing_participant_example :
  map Item.assignedTo
    (items (handleRemovePerson "1700000000001" Examples.coffeeAndMuffin))
  = [""; ""]
  ∧ length (items (handleRemovePerson "1700000000001" Examples.coffeeAndMuffin))
    = 2%nat
  ∧ paidBy (handleRemovePerson "1700000000001" Examples.coffeeAndMuffin) = "Bob"
  ∧ Examples.alice
    ∉ people (handleRemovePerson "1700000000001" Examples.coffeeAndMuffin).
Proof.
  destruct (removing_participant Examples.coffeeAndMuffin Examples.alice)
    as (_ & Hlen & Hpayer & Hgone & _).
  - apply list_elem_of_here.
  - cbn. repeat constructor; intros Hin;
      repeat (apply elem_of_cons in Hin as [Heq|Hin]; [discriminate Heq|]);
      apply elem_of_nil in Hin; exact Hin.
  - split; [reflexivity|]. split; [exact Hlen|]. split; [exact Hpayer|exact Hgone].
Defined.

(** C6 as stated fails. Two participants added within the same
    millisecond have the same id: removing the second of them, "Bo", takes
    both out of the registry and unassigns the items of the first only;
    the coffee stays assigned to "Bo", who stays designated as payer. *)
Lemma same_id_is_removed_without_cascade :
  Person.mk "1700000000001" "Bo" ∈ people Samples.sameInstant
  ∧ people (handleRemovePerson "1700000000001" Samples.sameInstant) = []
  ∧ map Item.assignedTo
      (items (handleRemovePerson "1700000000001" Samples.sameInstant))
    = ["Bo"]
  ∧ paidBy (handleRemovePerson "1700000000001" Samples.sameInstant) = "Bo".
Proof.
  split; [apply list_elem_of_further, list_elem_of_here|].
  vm_compute. auto.
Qed.

End Registry.

(** ** Adding participants *)

Module Adding.
Import JsString JsNumber App Spec StringFacts.

(** C7, as the code has it. [handleAddPerson] does nothing when the
    typed name is empty or white space only. Otherwise it appends one
    participant, with the given id and the typed name without its leading
    and trailing white space, and empties the name field. It does not
    look the name up in the registry: the participant is appended also
    when the name is already there. *)
Theorem handleAddPerson_appends (now : string) (st : State) :
  let typed := newPersonName st in
  if all isWhiteSpace typed
  then handleAddPerson now st = st
  else
    handleAddPerson now st
    = setNewPersonName ""
        (setPeople (people st ++ [Person.mk now (trim typed)]) st)
    ∧ names (handleAddPerson now st) = names st ++ [trim typed]
    ∧ trim typed ≠ ""
    ∧ firstIs isWhiteSpace (trim typed) = false
    ∧ lastIs isWhiteSpace (trim typed) = false
    ∧ ∃ w1 w2, all isWhiteSpace w1 = true ∧ all isWhiteSpace w2 = true
               ∧ typed = w1 +:+ trim typed +:+ w2.
Proof.
  cbv zeta. unfold handleAddPerson.
  destruct (all isWhiteSpace (newPersonName st)) eqn:Hblank.
  - apply trim_empty_iff in Hblank. rewrite Hblank. reflexivity.
  - assert (trim (newPersonName st) ≠ "") as Hname.
    { intros Hempty. apply trim_empty_iff in Hempty. congruence. }
    rewrite (proj2 (truthy_true_iff _) Hname).
    split_and!.
    + reflexivity.
    + unfold names. cbn. rewrite map_app. reflexivity.
    + exact Hname.
    + apply trim_first.
    + apply trim_last.
    + apply trim_split.
Qed.

(** C7 as stated fails: typing "Al" and adding, twice, yields a registry
    with two participants named "Al". *)
Lemma same_name_added_twice :
  reachableByAdd Examples.twoAls
  ∧ reachable Examples.twoAls
  ∧ names Examples.twoAls = ["Al"; "Al"]
  ∧ ¬ NoDup (names Examples.twoAls).
Proof.
  split_and!.
  - unfold Examples.twoAls.
    apply byAdd_add, byAdd_type, byAdd_add, byAdd_type, byAdd_initial.
  - unfold Examples.twoAls.
    apply (reachable_step (AddPerson _)); [|vm_compute; intros Hin].
    + apply (reachable_step (TypeName _)); [|exact I].
      apply (reachable_step (AddPerson _)); [|apply not_elem_of_nil].
      apply (reachable_step (TypeName _)); [|exact I].
      apply reachable_initial.
    + apply list_elem_of_singleton in Hin. discriminate Hin.
  - reflexivity.
  - intros Hnodup. change (NoDup ["Al"; "Al"]) in Hnodup.
    apply NoDup_cons in Hnodup as [Hfresh _].
    apply Hfresh, list_elem_of_here.
Qed.

End Adding.

(** ** The price field *)

Module PriceField.
Import JsString JsNumber App Spec NumberFacts StringFacts.
Local Open Scope js_scope.

Lemma all_app (p : ascii → bool) (a b : string) :
  all p (a +:+ b) = all p a && all p b.
Proof.
  induction a as [|c a IH]; [reflexivity|].
  rewrite app_String. cbn [all]. rewrite IH. apply andb_assoc.
Qed.

Lemma spanDigits_digits (s : string) : all isDigit (fst (spanDigits s)) = true.
Proof.
  induction s as [|c s IH]; cbn [spanDigits]; [reflexivity|].
  destruct (isDigit c) eqn:Hc; [|reflexivity].
  destruct (spanDigits s) as [ds tl]. cbn in *. rewrite Hc, IH. reflexivity.
Qed.

(** The Number value of a scaled natural number has its sign bit clear
    and is not [NaN]. *)
Lemma scaled_signClear (m k : Z) :
  signClear (scaled m k) = true ∧ scaled m k ≠ NaN.
Proof.
  unfold scaled. destruct m as [|p|p]; try (split; [reflexivity|discriminate]).
  destruct k as [|d|d].
  - apply ofZ_signClear. lia.
  - apply ofZ_signClear. apply Z.mul_nonneg_nonneg; [lia|].
    apply Z.pow_nonneg. lia.
  - split; [apply div_signClear; reflexivity|apply div_finite_not_NaN].
Qed.

Lemma unsignedDecimal_signClear (s : string) (v : number) :
  unsignedDecimal s = Some v → signClear v = true ∧ v ≠ NaN.
Proof.
  unfold unsignedDecimal.
  destruct (String.prefix "Infinity" s).
  { intros [= <-]. split; [reflexivity|discriminate]. }
  destruct (spanDigits s) as [ip afterInt].
  destruct (match afterInt with
            | String "." rest => spanDigits rest
            | _ => (EmptyString, afterInt)
            end) as [fp afterFrac].
  destruct (truthy ip || truthy fp); [|discriminate].
  intros [= <-]. apply scaled_signClear.
Qed.

(** A string accepted by the pattern starts with a digit or a dot. *)
Lemma numericPattern_head (c : ascii) (rest : string) :
  numericPattern (String c rest) = true → isDigit c = true ∨ c = "."%char.
Proof.
  unfold numericPattern. cbn [spanDigits].
  destruct (isDigit c) eqn:Hc; [left; reflexivity|]. intros Hmatch. right.
  destruct (decide (c = "."%char)) as [Hdot|Hother]; [exact Hdot|].
  exfalso. revert Hmatch Hc Hother.
  destruct c as [[] [] [] [] [] [] [] []]; cbn [spanDigits];
    intros Hmatch Hc Hother;
    try (rewrite Hc in Hmatch; discriminate Hmatch);
    try discriminate Hc.
  apply Hother. reflexivity.
Qed.

(** No white space to skip and no sign to read in front of a digit or a
    dot. *)
Lemma parseFloat_unsigned (c : ascii) (rest : string) :
  isDigit c = true ∨ c = "."%char →
  parseFloat (String c rest)
  = match unsignedDecimal (String c rest) with
    | Some v => v
    | None => NaN
    end.
Proof.
  destruct c as [[] [] [] [] [] [] [] []]; intros [H|H];
    try discriminate H; reflexivity.
Qed.

(** What the price field commits is never below 0. *)
Lemma parseFloat_not_negative (val : string) :
  numericPattern val = true → lt (parseFloat val) 0 = false.
Proof.
  destruct val as [|c rest]; [reflexivity|]. intros Hmatch.
  rewrite (parseFloat_unsigned _ _ (numericPattern_head _ _ Hmatch)).
  destruct (unsignedDecimal (String c rest)) as [v|] eqn:Hv; [|reflexivity].
  apply signClear_not_lt_0, (unsignedDecimal_signClear _ _ Hv).
Qed.

Lemma app_empty_r (s : string) : s +:+ "" = s.
Proof.
  induction s as [|c s IH]; [reflexivity|]. rewrite app_String, IH. reflexivity.
Qed.

Lemma spanDigits_split (s : string) :
  s = fst (spanDigits s) +:+ snd (spanDigits s).
Proof.
  induction s as [|c s IH]; cbn [spanDigits]; [reflexivity|].
  destruct (isDigit c); [|reflexivity].
  destruct (spanDigits s) as [ds tl]. cbn [fst snd] in *.
  rewrite app_String, <- IH. reflexivity.
Qed.

Lemma spanDigits_app (a x : string) :
  all isDigit a = true →
  spanDigits (a +:+ x) = (a +:+ fst (spanDigits x), snd (spanDigits x)).
Proof.
  induction a as [|c a IH]; intros Ha.
  - change (spanDigits x = (fst (spanDigits x), snd (spanDigits x))).
    destruct (spanDigits x); reflexivity.
  - cbn [all] in Ha. apply andb_true_iff in Ha as [Hc Ha].
    rewrite app_String. cbn [spanDigits]. rewrite Hc, (IH Ha). reflexivity.
Qed.

Lemma spanDigits_all (a : string) :
  all isDigit a = true → spanDigits a = (a, "").
Proof.
  intros Ha. rewrite <- (app_empty_r a) at 1.
  rewrite (spanDigits_app a "" Ha). cbn. rewrite app_empty_r. reflexivity.
Qed.

(** The pattern accepts digits, then at most one dot, then digits, and
    nothing else. *)
Lemma numericPattern_language (s : string) :
  numericPattern s = true ↔ numeric s.
Proof.
  unfold numeric. split.
  - unfold numericPattern. intros Hmatch.
    pose proof (spanDigits_split s) as Hs.
    pose proof (spanDigits_digits s) as Hip.
    destruct (spanDigits s) as [ip afterInt]. cbn [fst snd] in *.
    assert (∀ x, (let '(_, tl) := spanDigits x in negb (truthy tl)) = true →
                 all isDigit x = true) as Hrest.
    { intros x Hx. pose proof (spanDigits_split x) as Hsplit.
      pose proof (spanDigits_digits x) as Hdigits.
      destruct (spanDigits x) as [ds tl]. cbn [fst snd] in *.
      destruct tl; [|discriminate Hx].
      rewrite app_empty_r in Hsplit. rewrite Hsplit. exact Hdigits. }
    destruct afterInt as [|c rest].
    + exists ip, "". auto.
    + destruct (decide (c = "."%char)) as [->|Hother].
      * exists ip, rest. split; [exact Hip|]. split; [apply Hrest, Hmatch|].
        right. exact Hs.
      * exists ip, (String c rest). split; [exact Hip|]. split; [|left; exact Hs].
        apply Hrest. revert Hmatch Hother. clear.
        destruct c as [[] [] [] [] [] [] [] []]; intros Hmatch Hother;
          try exact Hmatch.
        destruct Hother. reflexivity.
  - intros (a & b & Ha & Hb & [->| ->]); unfold numericPattern.
    + rewrite spanDigits_all by (rewrite all_app, Ha, Hb; reflexivity).
      reflexivity.
    + rewrite (spanDigits_app a _ Ha). cbn [spanDigits fst snd].
      replace (isDigit ".") with false by reflexivity. cbn [fst snd].
      rewrite (spanDigits_all b Hb). reflexivity.
Qed.

Lemma priceOnChange_empty (itemId : string) (st : State) :
  priceOnChange itemId "" st
  = setItems (map (λ i, if bool_decide (Item.id i = itemId)
                        then Item.withPrice 0 i else i) (items st)) st.
Proof. reflexivity. Qed.

(** C10. In the price field of an item, a text that is neither empty
    nor numeric (digits with at most one decimal point) leaves the whole
    state as it was; the empty text makes 0 the price of the items with
    that id and changes no other price, no other field of an item and no
    other part of the state; and no commit stores a price below 0: an
    item with a negative price after the commit was in the list, unchanged,
    before. *)
Theorem price_field_commit (itemId val : string) (st : State) :
  (val ≠ "" → ¬ numeric val → priceOnChange itemId val st = st)
  ∧ (map Item.price (items (priceOnChange itemId "" st))
     = map (λ i, if bool_decide (Item.id i = itemId) then 0 else Item.price i)
           (items st)
     ∧ map (λ i, (Item.id i, Item.quantity i, Item.name i, Item.assignedTo i))
           (items (priceOnChange itemId "" st))
       = map (λ i, (Item.id i, Item.quantity i, Item.name i, Item.assignedTo i))
             (items st)
     ∧ (let st' := priceOnChange itemId "" st in
        people st' = people st ∧ paidBy st' = paidBy st
        ∧ taxPercent st' = taxPercent st ∧ tipPercent st' = tipPercent st
        ∧ newPersonName st' = newPersonName st
        ∧ isLoading st' = isLoading st ∧ error st' = error st
        ∧ isProcessingPayment st' = isProcessingPayment st
        ∧ transactions st' = transactions st
        ∧ showTransactions st' = showTransactions st))
  ∧ (∀ i, i ∈ items (priceOnChange itemId val st) →
          lt (Item.price i) 0 = true → i ∈ items st).
Proof.
  split_and!.
  - intros Hval Hnot. unfold priceOnChange.
    rewrite bool_decide_false by exact Hval.
    destruct (numericPattern val) eqn:Hmatch; [|reflexivity].
    destruct Hnot. apply numericPattern_language, Hmatch.
  - rewrite priceOnChange_empty. cbn [items setItems].
    rewrite map_map. apply map_ext. intros i. case_bool_decide; reflexivity.
  - rewrite priceOnChange_empty. cbn [items setItems].
    rewrite map_map. apply map_ext. intros i. case_bool_decide; reflexivity.
  - cbv zeta. rewrite priceOnChange_empty. split_and!; reflexivity.
  - intros i Hin Hneg. unfold priceOnChange in Hin.
    destruct (bool_decide (val = "") || numericPattern val) eqn:Hok;
      [|exact Hin].
    cbn in Hin. apply list_elem_of_In, in_map_iff in Hin as [old [Hnew Hold]].
    apply list_elem_of_In in Hold.
    destruct (bool_decide (Item.id old = itemId)); [|subst i; exact Hold].
    exfalso. subst i. cbn in Hneg.
    destruct (bool_decide (val = "")) eqn:Hempty.
    + discriminate Hneg.
    + rewrite parseFloat_not_negative in Hneg by exact Hok. discriminate Hneg.
Qed.

End PriceField.

(** ** Settlement *)

Module Settling.
Import JsNumber Settlement.

Section Orchestrator.
Variable World : Type.
Variable execute : PaymentInstruction.t → World → Outcome * World.
Variable resolve : string → option string.

Local Abbreviation settle := (Settlement.settle World execute resolve).
Local Abbreviation worldBefore := (Settlement.worldBefore World execute resolve).
Local Abbreviation toResult := (Settlement.toResult resolve).

Lemma worldBefore_0 (instructions : list PaymentInstruction.t) (w : World) :
  worldBefore 0 instructions w = w.
Proof. reflexivity. Qed.

Lemma worldBefore_S (k : nat) (i : PaymentInstruction.t)
    (rest : list PaymentInstruction.t) (w : World) :
  worldBefore (S k) (i :: rest) w = worldBefore k rest (snd (execute i w)).
Proof.
  unfold Settlement.worldBefore. cbn [take Settlement.settle].
  destruct (execute i w) as [o w1]. cbn [snd].
  destruct (Settlement.settle World execute resolve (take k rest) w1).
  reflexivity.
Qed.

(** The report, instruction by instruction. *)
Lemma settle_report (instructions : list PaymentInstruction.t) (w : World) :
  fst (settle instructions w)
  = imap (λ k i, toResult i (fst (execute i (worldBefore k instructions w))))
         instructions.
Proof.
  revert w. induction instructions as [|i rest IH]; intros w; [reflexivity|].
  rewrite imap_cons. cbn [Settlement.settle].
  rewrite worldBefore_0.
  specialize (IH (snd (execute i w))).
  destruct (execute i w) as [o w1] eqn:Hexec. cbn [fst snd] in *.
  destruct (Settlement.settle World execute resolve rest w1) as [results w2].
  cbn [fst] in *. f_equal. rewrite IH.
  apply imap_ext. intros k j _. cbn. rewrite worldBefore_S, Hexec. reflexivity.
Qed.

Lemma toResult_status (i : PaymentInstruction.t) (o : Outcome) :
  Transaction.status (toResult i o)
  = match o with Paid _ => "success" | Refused _ => "failed" end.
Proof. destruct o; reflexivity. Qed.

Lemma counts_cover (results : list Transaction.t) :
  Forall (λ t, Transaction.status t = "success" ∨ Transaction.status t = "failed")
         results →
  (successCount results + failureCount results = length results)%nat.
Proof.
  unfold successCount, failureCount.
  induction 1 as [|t l Ht _ IH]; [reflexivity|].
  rewrite !filter_cons. cbn [length]. rewrite <- IH.
  destruct Ht as [Ht|Ht]; rewrite Ht.
  - rewrite decide_True by reflexivity. rewrite decide_False by discriminate.
    reflexivity.
  - rewrite decide_False by discriminate. rewrite decide_True by reflexivity.
    cbn [length]. lia.
Qed.

(** C8. [settle] on N instructions returns N results, the k-th result
    being the record of the k-th instruction: same payer, payee and amount,
    with the status the executor gave when it was handed that instruction
    after the k instructions before it - "success" whenever the executor
    paid, whatever happened to the other instructions. Successes and
    failures together count N. *)
Theorem settle_reports_every_instruction
    (instructions : list PaymentInstruction.t) (w : World) :
  let results := fst (settle instructions w) in
  length results = length instructions
  ∧ results
    = imap (λ k i, toResult i (fst (execute i (worldBefore k instructions w))))
           instructions
  ∧ (∀ k i, instructions !! k = Some i →
       ∃ t, results !! k = Some t
            ∧ Transaction.from t = PaymentInstruction.from i
            ∧ Transaction.to t = PaymentInstruction.to i
            ∧ Transaction.amount t = PaymentInstruction.amount i
            ∧ Transaction.status t
              = match fst (execute i (worldBefore k instructions w)) with
                | Paid _ => "success"
                | Refused _ => "failed"
                end)
  ∧ (successCount results + failureCount results = length instructions)%nat.
Proof.
  cbv zeta. rewrite settle_report. split_and!.
  - apply length_imap.
  - reflexivity.
  - intros k i Hk. eexists. rewrite list_lookup_imap, Hk.
    split; [reflexivity|]. cbn.
    destruct (fst (execute i (worldBefore k instructions w))); auto.
  - rewrite <- (length_imap
      (λ k i, toResult i (fst (execute i (worldBefore k instructions w))))
      instructions).
    apply counts_cover, Forall_forall. intros t Ht.
    apply list_elem_of_lookup in Ht as [k Hk].
    rewrite list_lookup_imap in Hk.
    destruct (instructions !! k) as [i|]; [|discriminate Hk].
    cbn in Hk. injection Hk as <-. rewrite toResult_status.
    destruct (fst (execute i _)); auto.
Qed.

End Orchestrator.

(** The example of the specification: instructions {A, Payer, 5.00} and
    {B, Payer, 7.50}, the executor failing on A and succeeding on B. *)
Lemma failure_does_not_stop_the_rest :
  map Transaction.status
    (fst (Settlement.settle unit Examples.refusesA (λ _, None)
            [PaymentInstruction.mk "A" "Payer" (parseFloat "5.00");
             PaymentInstruction.mk "B" "Payer" (parseFloat "7.50")] tt))
  = ["failed"; "success"].
Proof. reflexivity. Qed.

End Settling.

(** ** Negotiation *)

Module Negotiating.
Import Decimal Negotiation.

Section Builder.
Variable tolerance : Qc.

(** The condition under which the final amounts are accepted. *)
Local Abbreviation acceptable billTotal reply :=
  (∃ a b, replyPerson1 reply = JNumber (Num a)
          ∧ replyPerson2 reply = JNumber (Num b)
          ∧ (0 ≤ a)%Qc ∧ (0 ≤ b)%Qc
          ∧ (Qcabs (a + b - billTotal) ≤ tolerance)%Qc).

Lemma validateFinalAmounts_accepts (billTotal a b : Qc) :
  (0 ≤ a)%Qc → (0 ≤ b)%Qc → (Qcabs (a + b - billTotal) ≤ tolerance)%Qc →
  validateFinalAmounts tolerance billTotal (JNumber (Num a)) (JNumber (Num b))
  = inl (mkFinalAmounts a b).
Proof.
  intros Ha Hb Hsum. unfold validateFinalAmounts.
  rewrite !bool_decide_true by assumption. reflexivity.
Qed.

Lemma validateFinalAmounts_inl (billTotal : Qc) (p1 p2 : Json)
    (amounts : FinalAmounts) :
  validateFinalAmounts tolerance billTotal p1 p2 = inl amounts →
  p1 = JNumber (Num (person1 amounts))
  ∧ p2 = JNumber (Num (person2 amounts))
  ∧ (0 ≤ person1 amounts)%Qc ∧ (0 ≤ person2 amounts)%Qc
  ∧ (Qcabs (person1 amounts + person2 amounts - billTotal) ≤ tolerance)%Qc.
Proof.
  unfold validateFinalAmounts.
  destruct p1 as [| |[|a]]; try discriminate.
  destruct p2 as [| |[|b]]; try discriminate.
  destruct (bool_decide (0 ≤ a)%Qc) eqn:Ha; [|discriminate].
  destruct (bool_decide (0 ≤ b)%Qc) eqn:Hb; [|discriminate].
  destruct (bool_decide (Qcabs (a + b - billTotal) ≤ tolerance)%Qc) eqn:Hsum;
    [|discriminate].
  intros [= <-]. cbn.
  apply bool_decide_eq_true in Ha, Hb, Hsum. auto.
Qed.

(** C9. [negotiate] returns a result only if both parsed final amounts
    are numbers, neither is negative and their sum is the bill total up to
    the tolerance, and then the result carries these very amounts; in
    every other case it returns [ValidationError] to the caller. *)
Theorem final_amounts_are_validated (billTotal : Qc) (reply : Reply) :
  match negotiate tolerance billTotal reply with
  | inl result =>
      replyPerson1 reply = JNumber (Num (person1 (finalAmounts result)))
      ∧ replyPerson2 reply = JNumber (Num (person2 (finalAmounts result)))
      ∧ (0 ≤ person1 (finalAmounts result))%Qc
      ∧ (0 ≤ person2 (finalAmounts result))%Qc
      ∧ (Qcabs (person1 (finalAmounts result) + person2 (finalAmounts result)
                - billTotal) ≤ tolerance)%Qc
      ∧ transcript result = replyTranscript reply
      ∧ total result = billTotal
  | inr e => e = ValidationError ∧ ¬ acceptable billTotal reply
  end.
Proof.
  unfold negotiate.
  destruct (validateFinalAmounts tolerance billTotal (replyPerson1 reply)
              (replyPerson2 reply)) as [amounts|e] eqn:Hvalid.
  - apply validateFinalAmounts_inl in Hvalid
      as (H1 & H2 & Ha & Hb & Hsum). cbn. auto 10.
  - split; [destruct e; reflexivity|].
    intros (a & b & H1 & H2 & Ha & Hb & Hsum).
    rewrite H1, H2, (validateFinalAmounts_accepts _ _ _ Ha Hb Hsum) in Hvalid.
    discriminate Hvalid.
Qed.

End Builder.

(** The examples of the specification, with a tolerance of one cent:
    6.00 and 3.24 against a total of 9.24 pass, 6.00 and 2.00 do not. *)
Lemma final_amounts_examples :
  validateFinalAmounts Examples.oneCent (Q2Qc (924 # 100))
    (JNumber (Examples.amount 600)) (JNumber (Examples.amount 324))
  = inl (mkFinalAmounts (Q2Qc (600 # 100)) (Q2Qc (324 # 100)))
  ∧ validateFinalAmounts Examples.oneCent (Q2Qc (924 # 100))
      (JNumber (Examples.amount 600)) (JNumber (Examples.amount 200))
    = inr ValidationError.
Proof. split; vm_compute; reflexivity. Qed.

End Negotiating.

(** ** Invariants of the reachable states *)

Module Invariants.
Import JsString JsNumber App Spec StringFacts Registry.

Lemma NoDup_ids_filter (P : Person.t → Prop) `{∀ p, Decision (P p)}
    (l : list Person.t) :
  NoDup (map Person.id l) → NoDup (map Person.id (filter P l)).
Proof.
  induction l as [|p l IH]; intros Hnodup; [constructor|].
  cbn [map] in Hnodup. apply NoDup_cons in Hnodup as [Hfresh Hnodup].
  rewrite filter_cons. destruct (decide (P p)); [|apply IH, Hnodup].
  cbn [map]. apply NoDup_cons. split; [|apply IH, Hnodup].
  intros Hin. apply Hfresh.
  apply list_elem_of_In, in_map_iff in Hin as [q [Hid Hq]].
  apply list_elem_of_In, list_elem_of_filter in Hq as [_ Hq].
  rewrite <- Hid. apply list_elem_of_In, in_map, list_elem_of_In, Hq.
Qed.

Lemma wellFormed_add (now : string) (st : State) :
  now ∉ map Person.id (people st) → wellFormed st →
  wellFormed (handleAddPerson now st).
Proof.
  intros Hfresh [Hids Hnames Hpayer]. unfold handleAddPerson.
  destruct (truthy (trim (newPersonName st))) eqn:Hname;
    [|split; assumption].
  split; cbn.
  - rewrite map_app. apply NoDup_app. split; [exact Hids|]. split.
    + intros x Hx Hnow. apply list_elem_of_singleton in Hnow as ->.
      exact (Hfresh Hx).
    + apply NoDup_singleton.
  - intros p [Hp|Hp]%elem_of_app; [apply Hnames, Hp|].
    apply list_elem_of_singleton in Hp as ->. cbn.
    split; [apply truthy_true_iff, Hname|].
    split; [apply trim_first|apply trim_last].
  - destruct Hpayer as [Hnone|Hin]; [left; exact Hnone|right].
    unfold names. cbn. rewrite map_app. apply elem_of_app. left. exact Hin.
Qed.

Lemma wellFormed_remove (personId : string) (st : State) :
  wellFormed st → wellFormed (handleRemovePerson personId st).
Proof.
  intros [Hids Hnames Hpayer]. unfold handleRemovePerson.
  destruct (List.find _ (people st)) as [gone|] eqn:Hfind;
    [|split; assumption].
  apply find_by_id in Hfind as [Hgone Hid].
  split; cbn.
  - apply NoDup_ids_filter, Hids.
  - intros p [_ Hp]%list_elem_of_filter. apply Hnames, Hp.
  - case_bool_decide as Hwas; [left; reflexivity|].
    destruct Hpayer as [Hnone|Hin]; [left; exact Hnone|right].
    apply list_elem_of_In, in_map_iff in Hin as [q [Hq Hin]].
    apply list_elem_of_In in Hin.
    apply list_elem_of_In, in_map_iff. exists q. split; [exact Hq|].
    apply list_elem_of_In, list_elem_of_filter. split; [|exact Hin].
    intros Hsame. apply Hwas. rewrite <- Hq. f_equal.
    apply (same_id_same_person (people st)); congruence.
Qed.

(** Whatever the user does, ids stay distinct, names non-empty and
    trimmed, and the payer, if any, is a participant. *)
Lemma reachable_wellFormed (st : State) : reachable st → wellFormed st.
Proof.
  induction 1 as [|e st _ IH Hoffered].
  - split; cbn; [constructor|intros p []%elem_of_nil|left; reflexivity].
  - destruct e; cbn in Hoffered |- *.
    + destruct IH. split; assumption.
    + apply wellFormed_add; assumption.
    + apply wellFormed_remove, IH.
    + destruct IH. split; assumption.
    + destruct IH. split; assumption.
    + unfold priceOnChange. destruct (_ || _); destruct IH; split; assumption.
    + destruct IH. split; assumption.
Qed.

End Invariants.

(** ** Removing and adding participants, continued *)

Module RegistryMore.
Import JsString JsNumber App Spec Handlers StringFacts Registry.

Lemma find_absent (personId : string) (l : list Person.t) :
  personId ∉ map Person.id l →
  List.find (λ p, bool_decide (Person.id p = personId)) l = None.
Proof.
  intros Habsent. destruct (List.find _ l) as [q|] eqn:Hfind; [|reflexivity].
  apply find_by_id in Hfind as [Hq Hid]. destruct Habsent. rewrite <- Hid.
  apply list_elem_of_In, in_map, list_elem_of_In, Hq.
Qed.

Lemma filtered_id_absent (personId : string) (l : list Person.t) :
  personId ∉ map Person.id (filter (λ p, Person.id p ≠ personId) l).
Proof.
  intros Hin. apply list_elem_of_In, in_map_iff in Hin as [q [Hid Hq]].
  apply list_elem_of_In, list_elem_of_filter in Hq as [Hne _]. exact (Hne Hid).
Qed.

Lemma filter_keeps_all (personId : string) (l : list Person.t) :
  personId ∉ map Person.id l →
  filter (λ p, Person.id p ≠ personId) l = l.
Proof.
  induction l as [|p l IH]; intros Habsent; [reflexivity|].
  cbn [map] in Habsent. apply not_elem_of_cons in Habsent as [Hne Habsent].
  rewrite filter_cons, decide_True by congruence. f_equal. apply IH, Habsent.
Qed.

Lemma find_appended (now name : string) (l : list Person.t) :
  now ∉ map Person.id l →
  List.find (λ p, bool_decide (Person.id p = now)) (l ++ [Person.mk now name])
  = Some (Person.mk now name).
Proof.
  induction l as [|p l IH]; intros Habsent; cbn.
  - rewrite bool_decide_true by reflexivity. reflexivity.
  - cbn [map] in Habsent. apply not_elem_of_cons in Habsent as [Hne Habsent].
    rewrite bool_decide_false by congruence. apply IH, Habsent.
Qed.

Lemma unassign_nobody (name : string) (its : list Item.t) :
  (∀ item, item ∈ its → Item.assignedTo item ≠ name) → unassign name its = its.
Proof.
  unfold unassign. induction its as [|i its IH]; intros Hnone; [reflexivity|].
  cbn [map]. rewrite bool_decide_false by apply Hnone, list_elem_of_here.
  f_equal. apply IH. intros item Hin. apply Hnone, list_elem_of_further, Hin.
Qed.

Lemma unassign_clears (name : string) (its : list Item.t) (item : Item.t) :
  name ≠ "" → item ∈ unassign name its → Item.assignedTo item ≠ name.
Proof.
  intros Hname Hin. unfold unassign in Hin.
  apply list_elem_of_In, in_map_iff in Hin as [old [<- _]].
  case_bool_decide as Hmine; [|exact Hmine]. cbn. congruence.
Qed.

(** X1. Removing an id that no participant has changes nothing, and so
    removing the same id a second time changes nothing more. *)
Theorem removing_twice_is_removing_once (personId : string) (st : State) :
  (personId ∉ map Person.id (people st) → handleRemovePerson personId st = st)
  ∧ handleRemovePerson personId (handleRemovePerson personId st)
    = handleRemovePerson personId st.
Proof.
  split.
  - intros Habsent. unfold handleRemovePerson.
    rewrite (find_absent _ _ Habsent). reflexivity.
  - destruct (List.find (λ p, bool_decide (Person.id p = personId)) (people st))
      as [gone|] eqn:Hfind.
    + set (st' := handleRemovePerson personId st).
      assert (people st' = filter (λ p, Person.id p ≠ personId) (people st))
        as Hpeople.
      { unfold st', handleRemovePerson. rewrite Hfind. reflexivity. }
      unfold handleRemovePerson at 1. rewrite Hpeople.
      rewrite (find_absent _ _ (filtered_id_absent personId (people st))).
      reflexivity.
    + unfold handleRemovePerson. rewrite !Hfind. reflexivity.
Qed.

(** X2. Adding a participant under a fresh id and removing that id again
    gives back the registry as it was, with the name field emptied; the
    removal still unassigns the items that were assigned to the name of
    the participant and clears a payer of that name, so the items and the
    payer are as before only if the name was not in use. *)
Theorem add_then_remove (now : string) (st : State) :
  now ∉ map Person.id (people st) →
  all isWhiteSpace (newPersonName st) = false →
  let name := trim (newPersonName st) in
  let st' := handleRemovePerson now (handleAddPerson now st) in
  people st' = people st
  ∧ newPersonName st' = ""
  ∧ items st' = unassign name (items st)
  ∧ ((∀ item, item ∈ items st → Item.assignedTo item ≠ name) →
     items st' = items st)
  ∧ paidBy st' = (if bool_decide (paidBy st = name) then "" else paidBy st).
Proof.
  intros Hfresh Hname name st'. unfold st', handleAddPerson.
  assert (truthy name = true) as Htruthy.
  { apply truthy_true_iff. intros Hempty.
    apply trim_empty_iff in Hempty. congruence. }
  fold name. rewrite Htruthy. unfold handleRemovePerson.
  cbn [people setNewPersonName setPeople].
  rewrite (find_appended now name _ Hfresh).
  cbn [people items paidBy newPersonName setPaidBy setPeople setItems
       setNewPersonName Person.name].
  rewrite list.filter_app, (filter_keeps_all _ _ Hfresh).
  rewrite filter_cons, decide_False by (intros Hne; apply Hne; reflexivity).
  rewrite filter_nil, app_nil_r.
  split_and!; try reflexivity.
  intros Hnone. apply unassign_nobody, Hnone.
Qed.

(** The name " Carol " is typed on the coffee-and-muffin bill, added and
    removed again: the registry, the items and the payer are as before. *)
Lemma add_then_remove_example :
  people (handleRemovePerson "1700000000003"
            (handleAddPerson "1700000000003" Samples.carolTyped))
  = people Samples.carolTyped
  ∧ items (handleRemovePerson "1700000000003"
             (handleAddPerson "1700000000003" Samples.carolTyped))
    = items Samples.carolTyped.
Proof.
  destruct (add_then_remove "1700000000003" Samples.carolTyped)
    as (Hpeople & _ & _ & Hitems & _).
  - cbn. intros Hin.
    repeat (apply elem_of_cons in Hin as [Heq|Hin]; [discriminate Heq|]).
    apply elem_of_nil in Hin. exact Hin.
  - reflexivity.
  - split; [exact Hpeople|]. apply Hitems. intros item Hin. cbn in Hin.
    repeat (apply elem_of_cons in Hin as [->|Hin]; [discriminate|]).
    apply elem_of_nil in Hin. destruct Hin.
Defined.

(** X3. Names are the join key: when two participants have the same
    name, removing one of them leaves the other in the registry but takes
    every item off that name and clears the payer if it was that name. *)
Theorem removing_a_namesake (st : State) (p q : Person.t) :
  NoDup (map Person.id (people st)) →
  p ∈ people st → q ∈ people st → p ≠ q →
  Person.name p = Person.name q → Person.name q ≠ "" →
  let st' := handleRemovePerson (Person.id p) st in
  q ∈ people st'
  ∧ (∀ item, item ∈ items st' → Item.assignedTo item ≠ Person.name q)
  ∧ paidBy st' ≠ Person.name q.
Proof.
  intros Hnodup Hp Hq Hpq Hsame Hname st'. unfold st', handleRemovePerson.
  rewrite (find_present _ _ Hnodup Hp).
  cbn [people items paidBy setPaidBy setPeople setItems].
  split_and!.
  - apply list_elem_of_filter. split; [|exact Hq].
    intros Hid. apply Hpq. symmetry.
    apply (same_id_same_person (people st)); assumption.
  - intros item Hin. rewrite <- Hsame.
    apply (unassign_clears _ (items st)); [congruence|exact Hin].
  - case_bool_decide as Hpayer; congruence.
Qed.

(** Removing the first "Al" keeps the second but unassigns the coffee and
    clears the payer. *)
Lemma removing_a_namesake_example :
  Person.mk "1700000000002" "Al"
    ∈ people (handleRemovePerson "1700000000001" Samples.alsCoffee)
  ∧ map Item.assignedTo
      (items (handleRemovePerson "1700000000001" Samples.alsCoffee)) = [""]
  ∧ paidBy (handleRemovePerson "1700000000001" Samples.alsCoffee) = "".
Proof.
  destruct (removing_a_namesake Samples.alsCoffee
              (Person.mk "1700000000001" "Al") (Person.mk "1700000000002" "Al"))
    as (Hstays & _ & _).
  - cbn. repeat constructor; intros Hin;
      repeat (apply elem_of_cons in Hin as [Heq|Hin]; [discriminate Heq|]);
      apply elem_of_nil in Hin; exact Hin.
  - apply list_elem_of_here.
  - apply list_elem_of_further, list_elem_of_here.
  - discriminate.
  - reflexivity.
  - discriminate.
  - split; [exact Hstays|]. split; reflexivity.
Defined.

End RegistryMore.

(** ** Invariants, continued *)

Module InvariantsMore.
Import JsString JsNumber App Spec Handlers StringFacts Registry Invariants.

(** The coffee-and-muffin bill is well formed. *)
Lemma coffeeAndMuffin_wellFormed : wellFormed Examples.coffeeAndMuffin.
Proof.
  split.
  - cbn. repeat constructor; intros Hin;
      repeat (apply elem_of_cons in Hin as [Heq|Hin]; [discriminate Heq|]);
      apply elem_of_nil in Hin; exact Hin.
  - intros p Hp. cbn in Hp.
    repeat (apply elem_of_cons in Hp as [->|Hp];
            [split_and!; [discriminate|reflexivity|reflexivity]|]).
    apply elem_of_nil in Hp. destruct Hp.
  - right. apply list_elem_of_further, list_elem_of_here.
Qed.

(** X4. Every action keeps the bill well formed, from any well-formed
    bill: ids stay distinct (a participant is added under a time stamp no
    participant has), names stay non-empty and trimmed (the typed name is
    trimmed, and refused when nothing is left), and the payer, if any,
    stays a participant (removing the payer clears the designation). *)
Theorem actions_keep_bill_wellFormed (e : Event) (st : State) :
  wellFormed st → offered e st → wellFormed (handle e st).
Proof.
  intros Hwf Hoffered.
  destruct e as [text|now|personId|who|itemId who|itemId text|received];
    cbn in Hoffered |- *.
  - destruct Hwf. split; assumption.
  - apply wellFormed_add; assumption.
  - apply wellFormed_remove, Hwf.
  - destruct Hwf. split; assumption.
  - destruct Hwf. split; assumption.
  - unfold priceOnChange. destruct (_ || _); destruct Hwf; split; assumption.
  - destruct Hwf. split; assumption.
Qed.

(** Carol, typed with blanks around her name, joins Alice and Bob under a
    new time stamp: the bill stays well formed. *)
Lemma actions_keep_bill_wellFormed_example :
  wellFormed (handleAddPerson "1700000000003" Samples.carolTyped).
Proof.
  apply (actions_keep_bill_wellFormed (AddPerson "1700000000003")
           Samples.carolTyped).
  - destruct coffeeAndMuffin_wellFormed. split; assumption.
  - cbn. intros Hin.
    repeat (apply elem_of_cons in Hin as [Heq|Hin]; [discriminate Heq|]).
    apply elem_of_nil in Hin. exact Hin.
Defined.

Lemma registered_more_people (its : list Item.t) (l extra : list Person.t) :
  assignmentsRegistered its l → assignmentsRegistered its (l ++ extra).
Proof.
  intros Hreg item Hin. destruct (Hreg item Hin) as [Hnone|Hname].
  - left. exact Hnone.
  - right. rewrite map_app. apply elem_of_app. left. exact Hname.
Qed.

Lemma registered_unassign (personId : string) (gone : Person.t)
    (its : list Item.t) (l : list Person.t) :
  NoDup (map Person.id l) → gone ∈ l → Person.id gone = personId →
  assignmentsRegistered its l →
  assignmentsRegistered (unassign (Person.name gone) its)
    (filter (λ p, Person.id p ≠ personId) l).
Proof.
  intros Hnodup Hgone Hid Hreg item Hin. unfold unassign in Hin.
  apply list_elem_of_In, in_map_iff in Hin as [old [<- Hold]].
  apply list_elem_of_In in Hold.
  case_bool_decide as Hmine; [left; reflexivity|].
  destruct (Hreg old Hold) as [Hnone|Hname]; [left; exact Hnone|right].
  apply list_elem_of_In, in_map_iff in Hname as [r [Hr Hin]].
  apply list_elem_of_In in Hin.
  apply list_elem_of_In, in_map_iff. exists r. split; [exact Hr|].
  apply list_elem_of_In, list_elem_of_filter. split; [|exact Hin].
  intros Hsame. apply Hmine. rewrite <- Hr. f_equal.
  apply (same_id_same_person l); congruence.
Qed.

Lemma registered_map (f : Item.t → Item.t) (its : list Item.t)
    (l : list Person.t) :
  (∀ item, item ∈ its →
     Item.assignedTo (f item) = Item.assignedTo item
     ∨ Item.assignedTo (f item) = ""
     ∨ Item.assignedTo (f item) ∈ map Person.name l) →
  assignmentsRegistered its l → assignmentsRegistered (map f its) l.
Proof.
  intros Hf Hreg item Hin.
  apply list_elem_of_In, in_map_iff in Hin as [old [<- Hold]].
  apply list_elem_of_In in Hold.
  destruct (Hf old Hold) as [Hsame|[Hnone|Hname]].
  - rewrite Hsame. apply Hreg, Hold.
  - left. exact Hnone.
  - right. exact Hname.
Qed.

(** X5. No item is left pointing at a participant who is gone: if every
    item is unassigned or assigned to the name of a participant, this is
    still so after any action - in particular after a removal, which
    unassigns the items of the removed participant - provided ids are
    distinct and an uploaded receipt comes with registered assignments. *)
Theorem assignments_stay_registered (e : Event) (st : State) :
  wellFormed st →
  offered e st →
  (∀ received, e = Upload received →
               assignmentsRegistered received (people st)) →
  assignmentsRegistered (items st) (people st) →
  assignmentsRegistered (items (handle e st)) (people (handle e st)).
Proof.
  intros [Hids _ _] Hoffered Hupload Hreg.
  destruct e as [text|now|personId|who|itemId who|itemId text|received];
    cbn [handle].
  - exact Hreg.
  - unfold handleAddPerson.
    destruct (truthy (trim (newPersonName st))); [|exact Hreg].
    apply registered_more_people, Hreg.
  - unfold handleRemovePerson.
    destruct (List.find _ (people st)) as [gone|] eqn:Hfind; [|exact Hreg].
    apply find_by_id in Hfind as [Hgone Hid].
    apply (registered_unassign personId gone); assumption.
  - exact Hreg.
  - apply registered_map; [|exact Hreg]. intros item _.
    case_bool_decide; [|left; reflexivity].
    right. destruct Hoffered as [->|Hwho]; [left|right]; [reflexivity|exact Hwho].
  - unfold priceOnChange. destruct (_ || _); [|exact Hreg].
    apply registered_map; [|exact Hreg]. intros item _.
    left. case_bool_decide; reflexivity.
  - apply Hupload. reflexivity.
Qed.

(** After Alice is removed from the coffee-and-muffin bill, both items
    are unassigned. *)
Lemma assignments_stay_registered_example :
  assignmentsRegistered
    (items (handleRemovePerson "1700000000001" Examples.coffeeAndMuffin))
    (people (handleRemovePerson "1700000000001" Examples.coffeeAndMuffin)).
Proof.
  apply (assignments_stay_registered (RemovePerson "1700000000001")
           Examples.coffeeAndMuffin).
  - split.
    + cbn. repeat constructor; intros Hin;
        repeat (apply elem_of_cons in Hin as [Heq|Hin]; [discriminate Heq|]);
        apply elem_of_nil in Hin; exact Hin.
    + intros p Hp. cbn in Hp.
      repeat (apply elem_of_cons in Hp as [->|Hp];
              [split_and!; [discriminate|reflexivity|reflexivity]|]).
      apply elem_of_nil in Hp. destruct Hp.
    + right. apply list_elem_of_further, list_elem_of_here.
  - exact I.
  - intros received Heq. discriminate Heq.
  - intros item Hin. cbn in Hin. right.
    repeat (apply elem_of_cons in Hin as [->|Hin]; [apply list_elem_of_here|]).
    apply elem_of_nil in Hin. destruct Hin.
Defined.

End InvariantsMore.

(** ** The text fields, continued *)

Module FieldsMore.
Import JsString JsNumber App Spec Handlers NumberFacts StringFacts Allocation
  PriceField.
Local Open Scope js_scope.

Lemma accepted_pattern (val : string) :
  accepted val ↔ (bool_decide (val = "") || numericPattern val) = true.
Proof.
  unfold accepted. rewrite orb_true_iff, bool_decide_eq_true.
  rewrite numericPattern_language. reflexivity.
Qed.

(** No literal [Infinity] starts with a digit or a dot. *)
Lemma no_Infinity (c : ascii) (rest : string) :
  isDigit c = true ∨ c = "."%char →
  String.prefix "Infinity" (String c rest) = false.
Proof.
  destruct c as [[] [] [] [] [] [] [] []]; intros [H|H];
    try discriminate H; reflexivity.
Qed.

Lemma no_Infinity_numeric (val : string) :
  numeric val → String.prefix "Infinity" val = false.
Proof.
  intros Hnumeric. destruct val as [|c rest]; [reflexivity|].
  apply numericPattern_language in Hnumeric.
  apply no_Infinity, (numericPattern_head _ _ Hnumeric).
Qed.

(** A numeric text is read whole, as its digits scaled by the number of
    digits after the dot. *)
Lemma unsignedDecimal_digits (d : string) :
  all isDigit d = true →
  unsignedDecimal d
  = if truthy d then Some (scaled (digitsValue 0 d) 0) else None.
Proof.
  intros Hd. unfold unsignedDecimal.
  rewrite no_Infinity_numeric
    by (exists d, ""; rewrite app_empty_r; auto).
  rewrite (spanDigits_all d Hd).
  cbn [truthy exponentOf String.length]. rewrite orb_false_r, app_empty_r.
  reflexivity.
Qed.

Lemma unsignedDecimal_dotted (a b : string) :
  all isDigit a = true → all isDigit b = true →
  unsignedDecimal (a +:+ String "." b)
  = if truthy a || truthy b
    then Some (scaled (digitsValue 0 (a +:+ b)) (- Z.of_nat (String.length b)))
    else None.
Proof.
  intros Ha Hb. unfold unsignedDecimal.
  rewrite no_Infinity_numeric by (exists a, b; auto).
  rewrite (spanDigits_app a _ Ha).
  cbn [spanDigits]. replace (isDigit ".") with false by reflexivity.
  cbn [fst snd]. rewrite app_empty_r, (spanDigits_all b Hb).
  cbn [exponentOf]. reflexivity.
Qed.

(** On a numeric text [parseFloat] reads the whole text. *)
Lemma parseFloat_numeric (val : string) :
  numeric val →
  parseFloat val
  = match unsignedDecimal val with Some v => v | None => NaN end.
Proof.
  intros Hnumeric. destruct val as [|c rest]; [reflexivity|].
  apply numericPattern_language in Hnumeric.
  apply parseFloat_unsigned, (numericPattern_head _ _ Hnumeric).
Qed.

Lemma truthy_app (a b : string) : truthy (a +:+ b) = truthy a || truthy b.
Proof. destruct a; [destruct b|]; reflexivity. Qed.

Lemma isNaN_true_iff (a : number) : isNaN a = true ↔ a = NaN.
Proof. destruct a; cbn; split; congruence. Qed.

(** A numeric text denotes a number unless it is empty or a lone dot. *)
Lemma parseFloat_numeric_NaN (val : string) :
  numeric val → (isNaN (parseFloat val) = true ↔ val = "" ∨ val = ".").
Proof.
  intros Hnumeric. rewrite (parseFloat_numeric val Hnumeric).
  assert (∀ m k, isNaN (scaled m k) = true ↔ False) as Hscaled.
  { intros m k. rewrite isNaN_true_iff.
    split; [apply scaled_signClear|contradiction]. }
  destruct Hnumeric as (a & b & Ha & Hb & [->| ->]).
  - rewrite unsignedDecimal_digits by (rewrite all_app, Ha, Hb; reflexivity).
    destruct (truthy (a +:+ b)) eqn:Hab.
    + rewrite Hscaled. split; [contradiction|]. intros [Hempty|Hdot].
      * rewrite Hempty in Hab. discriminate Hab.
      * exfalso. pose proof (f_equal (all isDigit) Hdot) as Hall.
        rewrite all_app, Ha, Hb in Hall. discriminate Hall.
    + split; [|reflexivity]. intros _. left.
      apply truthy_false_iff, Hab.
  - rewrite (unsignedDecimal_dotted a b Ha Hb).
    destruct a as [|c a]; [destruct b as [|d b]|]; cbn [truthy orb].
    + split; [|reflexivity]. intros _. right. reflexivity.
    + rewrite Hscaled. split; [contradiction|].
      intros [Hempty|Hdot]; discriminate.
    + rewrite Hscaled. split; [contradiction|].
      intros [Hempty|Hdot]; [discriminate|].
      rewrite app_String in Hdot. injection Hdot as Hc _. subst c.
      cbn [all] in Ha. discriminate Ha.
Qed.

(** The percentage read from an accepted text, an empty one counting as
    "0". *)
Lemma rate_of_accepted (s : string) :
  accepted s →
  lt (parseFloat (orElse s "0")) 0 = false
  ∧ (isNaN (parseFloat (orElse s "0")) = true ↔ s = ".").
Proof.
  intros [->|Hnumeric]; [split; [reflexivity|split; discriminate]|].
  destruct s as [|c rest]; [split; [reflexivity|split; discriminate]|].
  cbn [orElse truthy]. split.
  - apply parseFloat_not_negative, numericPattern_language, Hnumeric.
  - rewrite (parseFloat_numeric_NaN _ Hnumeric). split; [|auto].
    intros [Hempty|Hdot]; [discriminate|exact Hdot].
Qed.

(** The sign bit of the number read from a numeric text is clear. *)
Lemma parseFloat_signClear (val : string) :
  numeric val → signClear (parseFloat val) = true.
Proof.
  intros Hnumeric. rewrite (parseFloat_numeric val Hnumeric).
  destruct (unsignedDecimal val) as [v|] eqn:Hv; [|reflexivity].
  apply (unsignedDecimal_signClear _ _ Hv).
Qed.

Lemma rate_signClear (s : string) :
  accepted s → signClear (parseFloat (orElse s "0")) = true.
Proof.
  intros [->|Hnumeric]; [reflexivity|].
  destruct s as [|c rest]; [reflexivity|].
  apply parseFloat_signClear, Hnumeric.
Qed.

(** X6. The tax and the tip field keep their text accepted (empty, or
    digits with at most one dot): a text that is not accepted changes
    nothing, an accepted one becomes the text of its field and touches no
    other part of the state. *)
Theorem percent_fields_stay_accepted (val : string) (st : State) :
  accepted (taxPercent st) → accepted (tipPercent st) →
  accepted (taxPercent (taxOnChange val st))
  ∧ accepted (tipPercent (tipOnChange val st))
  ∧ (¬ accepted val → taxOnChange val st = st ∧ tipOnChange val st = st)
  ∧ (accepted val →
     taxOnChange val st = setTaxPercent val st
     ∧ tipOnChange val st = setTipPercent val st).
Proof.
  intros Htax Htip. unfold taxOnChange, tipOnChange.
  destruct (bool_decide (val = "") || numericPattern val) eqn:Hok.
  - apply accepted_pattern in Hok. split_and!; try assumption.
    + intros Hnot. contradiction.
    + intros _. split; reflexivity.
  - split_and!; try assumption.
    + intros _. split; reflexivity.
    + intros Hval. apply accepted_pattern in Hval. congruence.
Qed.

(** From the initial texts "5" and "20", any text typed in the tax field
    leaves both texts accepted. *)
Lemma percent_fields_stay_accepted_example :
  accepted (taxPercent (taxOnChange "8.25" initial))
  ∧ accepted (tipPercent (tipOnChange "x" initial)).
Proof.
  destruct (percent_fields_stay_accepted "8.25" initial) as (Htax & _).
  - right. apply numericPattern_language. reflexivity.
  - right. apply numericPattern_language. reflexivity.
  - split; [exact Htax|].
    destruct (percent_fields_stay_accepted "x" initial) as (_ & Htip & _).
    + right. apply numericPattern_language. reflexivity.
    + right. apply numericPattern_language. reflexivity.
    + exact Htip.
Defined.

(** X7. The percentage the bill is computed with ([parseFloat] of the
    text of the field, or of "0" when it is empty) is never negative for
    an accepted text, is 0 for the empty text, and is [NaN] exactly when
    the text is a lone dot. *)
Theorem accepted_percentage (s : string) :
  accepted s →
  lt (parseFloat (orElse s "0")) 0 = false
  ∧ (s = "" → (parseFloat (orElse s "0") === 0) = true)
  ∧ (isNaN (parseFloat (orElse s "0")) = true ↔ s = ".").
Proof.
  intros Hs. destruct (rate_of_accepted s Hs) as [Hlt HNaN].
  split_and!; [exact Hlt| |exact HNaN].
  intros ->. vm_compute. reflexivity.
Qed.

(** The text "8.25" gives a percentage that is a number and not below 0. *)
Lemma accepted_percentage_example :
  lt (parseFloat (orElse "8.25" "0")) 0 = false
  ∧ isNaN (parseFloat (orElse "8.25" "0")) = false.
Proof.
  destruct (accepted_percentage "8.25") as (Hlt & _ & HNaN).
  - right. apply numericPattern_language. reflexivity.
  - split; [exact Hlt|].
    apply not_true_iff_false. intros H. apply HNaN in H. discriminate H.
Defined.

(** The price committed for a text. *)
Lemma priceOnChange_accepted (itemId val : string) (st : State) :
  accepted val →
  priceOnChange itemId val st
  = setItems
      (map (λ i, if bool_decide (Item.id i = itemId)
                 then Item.withPrice
                        (if bool_decide (val = "") then 0 else parseFloat val) i
                 else i) (items st)) st.
Proof.
  intros Hval. unfold priceOnChange.
  rewrite (proj1 (accepted_pattern val) Hval). reflexivity.
Qed.

(** X8. An accepted text committed in a price field gives the items
    with that id the price read from the text, 0 for the empty text, and
    changes no other price and no other field of an item; the price of an
    item is [NaN] after the commit only if it was before or the text is a
    lone dot, and a lone dot makes [NaN] the price of every item with
    that id. *)
Theorem lone_dot_is_the_only_NaN (itemId val : string) (st : State) :
  accepted val →
  let st' := priceOnChange itemId val st in
  map Item.price (items st')
  = map (λ i, if bool_decide (Item.id i = itemId)
              then (if bool_decide (val = "") then 0 else parseFloat val)
              else Item.price i) (items st)
  ∧ map (λ i, (Item.id i, Item.quantity i, Item.name i, Item.assignedTo i))
        (items st')
    = map (λ i, (Item.id i, Item.quantity i, Item.name i, Item.assignedTo i))
          (items st)
  ∧ (∀ i, i ∈ items st' → isNaN (Item.price i) = true →
          val = "." ∨ i ∈ items st)
  ∧ (val = "." →
     ∀ i, i ∈ items st' → Item.id i = itemId → Item.price i = NaN).
Proof.
  intros Hval st'. unfold st'.
  rewrite (priceOnChange_accepted itemId val st Hval). cbn [items setItems].
  split_and!.
  - rewrite map_map. apply map_ext. intros i. case_bool_decide; reflexivity.
  - rewrite map_map. apply map_ext. intros i. case_bool_decide; reflexivity.
  - intros i Hin HNaN.
    apply list_elem_of_In, in_map_iff in Hin as [old [<- Hold]].
    apply list_elem_of_In in Hold.
    destruct (bool_decide (Item.id old = itemId)); [|right; exact Hold].
    left. cbn [Item.price Item.withPrice] in HNaN.
    case_bool_decide as Hempty; [discriminate HNaN|].
    destruct Hval as [Hval|Hval]; [contradiction|].
    apply (parseFloat_numeric_NaN val Hval) in HNaN as [H|H];
      [contradiction|exact H].
  - intros -> i Hin Hid.
    apply list_elem_of_In, in_map_iff in Hin as [old [<- Hold]].
    destruct (bool_decide (Item.id old = itemId)) eqn:Hmatch; [reflexivity|].
    apply bool_decide_eq_false in Hmatch. contradiction.
Qed.

(** Committing "4.5" for the coffee stores 4.5 as its price and leaves
    the muffin at 3. *)
Lemma lone_dot_is_the_only_NaN_example :
  map Item.price (items (priceOnChange "1" "4.5" Examples.coffeeAndMuffin))
  = [S754_finite false 5066549580791808 (-50); ofZ 3].
Proof.
  destruct (lone_dot_is_the_only_NaN "1" "4.5" Examples.coffeeAndMuffin)
    as [Hprices _].
  - right. apply numericPattern_language. reflexivity.
  - rewrite Hprices. vm_compute. reflexivity.
Defined.

End FieldsMore.

(** ** Editing one item *)

Module EditsMore.
Import JsString JsNumber App Spec Handlers NumberFacts Allocation Unclaimed
  FieldsMore.
Local Open Scope js_scope.

Lemma map_other_ids (f : Item.t → Item.t) (itemId : string) (l : list Item.t) :
  (∀ j, j ∈ l → Item.id j ≠ itemId) →
  map (λ i, if bool_decide (Item.id i = itemId) then f i else i) l = l.
Proof.
  induction l as [|i l IH]; intros Hother; [reflexivity|].
  cbn [map]. rewrite bool_decide_false by apply Hother, list_elem_of_here.
  f_equal. apply IH. intros j Hj. apply Hother, list_elem_of_further, Hj.
Qed.

(** With ids distinct, the [map] of a handler rewrites one item. *)
Lemma map_one_id (f : Item.t → Item.t) (before after : list Item.t)
    (it : Item.t) :
  (∀ j, j ∈ before ++ after → Item.id j ≠ Item.id it) →
  map (λ i, if bool_decide (Item.id i = Item.id it) then f i else i)
      (before ++ it :: after)
  = before ++ f it :: after.
Proof.
  intros Hother. rewrite map_app. cbn [map].
  rewrite bool_decide_true by reflexivity.
  rewrite !map_other_ids; [reflexivity| |];
    intros j Hj; apply Hother, elem_of_app; [right|left]; exact Hj.
Qed.

(** X9. When one item has the id of the edited price field, committing
    an accepted text puts the price read from it in the place of the
    price of that item and changes nothing else in the list: the running
    sum of the subtotal takes the new price at the turn of that item, and
    the personal subtotals of all names but its assignee's are as they
    were. *)
Theorem price_edit_is_local (st : State) (before after : list Item.t)
    (it : Item.t) (val : string) :
  items st = before ++ it :: after →
  (∀ j, j ∈ before ++ after → Item.id j ≠ Item.id it) →
  accepted val →
  let stored := if bool_decide (val = "") then 0 else parseFloat val in
  let st' := priceOnChange (Item.id it) val st in
  let sum := foldl (λ sum item, sum + Item.price item) in
  map Item.price (items st')
  = map Item.price before ++ stored :: map Item.price after
  ∧ map (λ i, (Item.id i, Item.quantity i, Item.name i, Item.assignedTo i))
        (items st')
    = map (λ i, (Item.id i, Item.quantity i, Item.name i, Item.assignedTo i))
          (items st)
  ∧ subtotal st = sum (sum 0 before + Item.price it) after
  ∧ subtotal st' = sum (sum 0 before + stored) after
  ∧ ∀ who, who ≠ Item.assignedTo it →
           personSubtotal st' who = personSubtotal st who.
Proof.
  intros Hitems Hother Hval stored st' sum.
  assert (items st' = before ++ Item.withPrice stored it :: after) as Hitems'.
  { unfold st'. rewrite (priceOnChange_accepted _ _ _ Hval). cbn [items setItems].
    rewrite Hitems. apply map_one_id, Hother. }
  split_and!.
  - rewrite Hitems', map_app. reflexivity.
  - rewrite Hitems', Hitems, !map_app. reflexivity.
  - unfold subtotal, sumPrices. rewrite Hitems, foldl_app. reflexivity.
  - unfold subtotal, sumPrices. rewrite Hitems', foldl_app. reflexivity.
  - intros who Hwho. unfold personSubtotal, personItems. rewrite Hitems', Hitems.
    rewrite !filter_middle_other; [reflexivity| |]; cbn; congruence.
Qed.

(** The muffin of the coffee-and-muffin bill repriced from 3 to 3.50:
    the subtotal becomes 7.5 and Bob's personal subtotal stays 0. *)
Lemma price_edit_is_local_example :
  subtotal (priceOnChange "2" "3.50" Examples.coffeeAndMuffin)
  = S754_finite false 8444249301319680 (-50)
  ∧ personSubtotal (priceOnChange "2" "3.50" Examples.coffeeAndMuffin) "Bob"
    = 0.
Proof.
  destruct (price_edit_is_local Examples.coffeeAndMuffin
              [Item.mk "1" (ofZ 1) "Coffee" (ofZ 4) "Alice"] []
              (Item.mk "2" (ofZ 1) "Muffin" (ofZ 3) "Alice") "3.50")
    as (_ & _ & _ & Hsub & Hothers).
  - reflexivity.
  - intros j Hj. cbn in Hj.
    repeat (apply elem_of_cons in Hj as [->|Hj]; [discriminate|]).
    apply elem_of_nil in Hj. destruct Hj.
  - right. apply PriceField.numericPattern_language. reflexivity.
  - cbn [Item.id Item.assignedTo] in Hsub, Hothers. split.
    + rewrite Hsub. vm_compute. reflexivity.
    + rewrite (Hothers "Bob") by discriminate. vm_compute. reflexivity.
Defined.

(** The amounts of a bill depend on the prices of its items only. *)
Lemma sumPrices_prices (l1 l2 : list Item.t) :
  map Item.price l1 = map Item.price l2 → sumPrices l1 = sumPrices l2.
Proof.
  unfold sumPrices. generalize (ofZ 0). revert l2.
  induction l1 as [|i l1 IH]; intros [|j l2] a Hprices;
    try discriminate Hprices; [reflexivity|].
  injection Hprices as Hp Hrest. cbn [foldl]. rewrite Hp. apply IH, Hrest.
Qed.

(** X10. When one item has the id of the changed assignment, choosing a
    new assignee changes the assignee of that item and nothing else in
    the list, and no amount of the bill (neither subtotal nor tax, tip and
    total); the item leaves the items of the old assignee and joins those
    of the new one at its place in the list, so that the running sum of
    the new assignee's personal subtotal takes its price at its turn, and
    all other personal subtotals are as they were. *)
Theorem assignment_moves_item (st : State) (before after : list Item.t)
    (it : Item.t) (who : string) :
  items st = before ++ it :: after →
  (∀ j, j ∈ before ++ after → Item.id j ≠ Item.id it) →
  who ≠ Item.assignedTo it →
  let st' := assignOnChange (Item.id it) who st in
  let sum := foldl (λ sum item, sum + Item.price item) in
  let itemsOf name := filter (λ item, Item.assignedTo item = name) in
  map Item.assignedTo (items st')
  = map Item.assignedTo before ++ who :: map Item.assignedTo after
  ∧ map (λ i, (Item.id i, Item.quantity i, Item.name i, Item.price i))
        (items st')
    = map (λ i, (Item.id i, Item.quantity i, Item.name i, Item.price i))
          (items st)
  ∧ subtotal st' = subtotal st
  ∧ taxAmount st' = taxAmount st
  ∧ tipAmount st' = tipAmount st
  ∧ total st' = total st
  ∧ personSubtotal st' who
    = sum (sum 0 (itemsOf who before) + Item.price it) (itemsOf who after)
  ∧ personSubtotal st who = sum 0 (itemsOf who (before ++ after))
  ∧ personSubtotal st' (Item.assignedTo it)
    = sum 0 (itemsOf (Item.assignedTo it) (before ++ after))
  ∧ personSubtotal st (Item.assignedTo it)
    = sum (sum 0 (itemsOf (Item.assignedTo it) before) + Item.price it)
          (itemsOf (Item.assignedTo it) after)
  ∧ ∀ other, other ≠ who → other ≠ Item.assignedTo it →
             personSubtotal st' other = personSubtotal st other.
Proof.
  intros Hitems Hother Hwho st' sum itemsOf.
  assert (items st' = before ++ Item.withAssignedTo who it :: after) as Hitems'.
  { unfold st', assignOnChange. cbn [items setItems].
    rewrite Hitems. apply map_one_id, Hother. }
  assert (subtotal st' = subtotal st) as Hsub.
  { unfold subtotal. apply sumPrices_prices.
    rewrite Hitems', Hitems, !map_app. reflexivity. }
  assert (taxAmount st' = taxAmount st) as Htax.
  { unfold taxAmount. rewrite Hsub. reflexivity. }
  assert (tipAmount st' = tipAmount st) as Htip.
  { unfold tipAmount. rewrite Hsub, Htax. reflexivity. }
  split_and!; try assumption.
  - rewrite Hitems', map_app. reflexivity.
  - rewrite Hitems', Hitems, !map_app. reflexivity.
  - unfold total. rewrite Hsub, Htax, Htip. reflexivity.
  - unfold personSubtotal, personItems, sumPrices, itemsOf. rewrite Hitems'.
    rewrite list.filter_app, filter_cons, decide_True by reflexivity.
    rewrite foldl_app. reflexivity.
  - unfold personSubtotal, personItems, sumPrices, itemsOf. rewrite Hitems.
    rewrite filter_middle_other by congruence. reflexivity.
  - unfold personSubtotal, personItems, sumPrices, itemsOf. rewrite Hitems'.
    rewrite filter_middle_other by exact Hwho. reflexivity.
  - unfold personSubtotal, personItems, sumPrices, itemsOf. rewrite Hitems.
    rewrite list.filter_app, filter_cons, decide_True by reflexivity.
    rewrite foldl_app. reflexivity.
  - intros other Hne1 Hne2. unfold personSubtotal, personItems.
    rewrite Hitems', Hitems.
    rewrite !filter_middle_other; [reflexivity| |]; cbn; congruence.
Qed.

(** The muffin of the coffee-and-muffin bill reassigned from Alice to Bob:
    the total is still 9.24, Bob's personal subtotal is now 3 and Alice's
    4. *)
Lemma assignment_moves_item_example :
  total (assignOnChange "2" "Bob" Examples.coffeeAndMuffin)
  = S754_finite false 5201657569612923 (-49)
  ∧ personSubtotal (assignOnChange "2" "Bob" Examples.coffeeAndMuffin) "Bob"
    = ofZ 3
  ∧ personSubtotal (assignOnChange "2" "Bob" Examples.coffeeAndMuffin) "Alice"
    = ofZ 4.
Proof.
  destruct (assignment_moves_item Examples.coffeeAndMuffin
              [Item.mk "1" (ofZ 1) "Coffee" (ofZ 4) "Alice"] []
              (Item.mk "2" (ofZ 1) "Muffin" (ofZ 3) "Alice") "Bob")
    as (_ & _ & _ & _ & _ & Htotal & Hbob & _ & Halice & _).
  - reflexivity.
  - intros j Hj. cbn in Hj.
    repeat (apply elem_of_cons in Hj as [->|Hj]; [discriminate|]).
    apply elem_of_nil in Hj. destruct Hj.
  - discriminate.
  - cbn [Item.id Item.assignedTo] in Htotal, Hbob, Halice. split_and!.
    + rewrite Htotal. vm_compute. reflexivity.
    + rewrite Hbob. vm_compute. reflexivity.
    + rewrite Halice. vm_compute. reflexivity.
Defined.

End EditsMore.

(** ** The owed amounts, continued *)

Module AllocationMore.
Import JsString JsNumber App Spec Handlers NumberFacts StringFacts Allocation
  Summary FieldsMore.
Local Open Scope js_scope.

Lemma foldl_add_NaN_price (l : list Item.t) (item : Item.t) (a : number) :
  item ∈ l → Item.price item = NaN →
  foldl (λ sum i, sum + Item.price i) a l = NaN.
Proof.
  intros Hin Hprice. revert a. induction l as [|i l IH]; intros a.
  - apply elem_of_nil in Hin. destruct Hin.
  - cbn [foldl]. apply elem_of_cons in Hin as [<-|Hin].
    + rewrite Hprice, add_NaN_r. apply foldl_add_NaN.
    + apply (IH Hin).
Qed.

(** What a rendered list is made of. *)
Lemma renderAll_elem {A B : Type} (f : A → Render B) (l : list A)
    (bs : list B) (b : B) :
  renderAll f l = Rendered bs → b ∈ bs → ∃ a, a ∈ l ∧ f a = Rendered b.
Proof.
  revert bs. induction l as [|a l IH]; intros bs Hrender Hb; cbn in Hrender.
  - injection Hrender as <-. apply elem_of_nil in Hb. destruct Hb.
  - destruct (f a) as [b0|] eqn:Hfa; [|discriminate Hrender].
    destruct (renderAll f l) as [bs0|]; [|discriminate Hrender].
    injection Hrender as <-. apply elem_of_cons in Hb as [->|Hb].
    + exists a. split; [apply list_elem_of_here|exact Hfa].
    + destruct (IH bs0 eq_refl Hb) as (a' & Ha' & Hfa').
      exists a'. split; [apply list_elem_of_further, Ha'|exact Hfa'].
Qed.

(** X11. One price that is [NaN] (a lone dot was committed) spoils the
    whole bill: subtotal, tax, tip and total are [NaN]; every participant
    but one called [__proto__] has an entry in the object returned by
    [calculateOwed], and every entry is [NaN]; and the payment summary, if
    it is rendered, shows [NaN] on every line - it is rendered when no
    participant is called [__proto__]. *)
Theorem NaN_price_spoils_bill (st : State) (item : Item.t) :
  item ∈ items st →
  Item.price item = NaN →
  subtotal st = NaN
  ∧ taxAmount st = NaN
  ∧ tipAmount st = NaN
  ∧ total st = NaN
  ∧ (∀ who v, calculateOwed st !! who = Some v → v = NaN)
  ∧ (∀ who, who ∈ names st → who ≠ "__proto__" →
            calculateOwed st !! who = Some NaN)
  ∧ (∀ lines line, paymentSummary st = Rendered lines → line ∈ lines →
                   PaymentInstruction.amount line = NaN)
  ∧ ((∀ p, p ∈ people st → Person.name p ≠ "__proto__") →
     ∃ lines, paymentSummary st = Rendered lines).
Proof.
  intros Hin Hprice.
  assert (subtotal st = NaN) as Hsub
    by exact (foldl_add_NaN_price _ _ _ Hin Hprice).
  assert (∀ who, calculateOwed st !! who
                 = if bool_decide (who ∈ names st ∧ who ≠ "__proto__")
                   then Some NaN else None) as Hlookup.
  { intros who. rewrite calculateOwed_lookup by (rewrite Hsub; reflexivity).
    case_bool_decide; [|reflexivity].
    unfold personTaxTipShare. rewrite Hsub, div_NaN_r, mul_NaN_l, add_NaN_r.
    reflexivity. }
  assert (∀ p, Person.name p ∈ names st → Person.name p ≠ "__proto__" →
               summaryLine st p
               = Rendered (PaymentInstruction.mk (Person.name p) (paidBy st) NaN))
    as Hline.
  { intros p Hp Hproto. unfold summaryLine, JsObject.get, owedAmounts.
    rewrite Hlookup, bool_decide_true by auto. reflexivity. }
  unfold total, tipAmount, taxAmount. rewrite Hsub. split_and!; try reflexivity.
  - intros who v Hv. rewrite Hlookup in Hv.
    destruct (bool_decide _); congruence.
  - intros who Hwho Hproto. rewrite Hlookup, bool_decide_true by auto.
    reflexivity.
  - intros lines line Hrender Hline'. unfold paymentSummary in Hrender.
    destruct (_ && _ && _).
    + destruct (renderAll_elem _ _ _ _ Hrender Hline') as (p & Hp & Hshown).
      apply list_elem_of_filter in Hp as [_ Hp].
      unfold summaryLine, JsObject.get, owedAmounts in Hshown.
      rewrite Hlookup in Hshown.
      destruct (bool_decide (Person.name p ∈ names st ∧ _)) eqn:Hentry.
      * injection Hshown as <-. reflexivity.
      * exfalso. apply bool_decide_eq_false in Hentry.
        case_bool_decide as Hkey; [discriminate Hshown|].
        apply Hentry. split.
        -- apply list_elem_of_In, in_map, list_elem_of_In, Hp.
        -- intros Hproto. apply Hkey. rewrite Hproto. compute_done.
    + injection Hrender as <-. apply elem_of_nil in Hline'. destruct Hline'.
  - intros Hplain. unfold paymentSummary. destruct (_ && _ && _); [|eauto].
    eexists. apply renderAll_Rendered.
    intros p [_ Hp]%list_elem_of_filter. apply Hline.
    + apply list_elem_of_In, in_map, list_elem_of_In, Hp.
    + apply Hplain, Hp.
Qed.

(** After a lone dot was committed as the price of the coffee, the total
    is [NaN], and so is what Alice owes and what the summary shows. *)
Lemma NaN_price_spoils_bill_example :
  total Samples.dotCoffee = NaN
  ∧ calculateOwed Samples.dotCoffee !! "Alice" = Some NaN
  ∧ paymentSummary Samples.dotCoffee
    = Rendered [PaymentInstruction.mk "Alice" "Bob" NaN].
Proof.
  destruct (NaN_price_spoils_bill Samples.dotCoffee
              (Item.mk "1" (ofZ 1) "Coffee" NaN "Alice"))
    as (_ & _ & _ & Htotal & _ & Howed & _).
  - apply list_elem_of_here.
  - reflexivity.
  - split_and!; [exact Htotal| |vm_compute; reflexivity].
    apply Howed; [apply list_elem_of_here|discriminate].
Defined.

Lemma sumPrices_signClear (l : list Item.t) :
  (∀ item, item ∈ l → signClear (Item.price item) = true) →
  signClear (sumPrices l) = true.
Proof.
  unfold sumPrices. assert (signClear 0 = true) as H0 by reflexivity.
  revert H0. generalize (ofZ 0). induction l as [|i l IH]; intros a Ha Hl.
  - exact Ha.
  - cbn [foldl]. apply IH.
    + apply add_signClear; [exact Ha|]. apply Hl, list_elem_of_here.
    + intros item Hitem. apply Hl, list_elem_of_further, Hitem.
Qed.

(** With prices whose sign bit is clear, tax, tip and total have their
    sign bit clear, whatever accepted texts the percentages are. *)
Lemma amounts_signClear (st : State) :
  (∀ item, item ∈ items st → signClear (Item.price item) = true) →
  accepted (taxPercent st) → accepted (tipPercent st) →
  signClear (subtotal st) = true
  ∧ signClear (taxAmount st) = true
  ∧ signClear (tipAmount st) = true
  ∧ signClear (total st) = true.
Proof.
  intros Hprices Htax Htip.
  pose proof (sumPrices_signClear _ Hprices) as Hsub. fold (subtotal st) in Hsub.
  assert (signClear (taxAmount st) = true) as HtaxAmount.
  { apply mul_signClear; [exact Hsub|].
    apply div_signClear; [apply rate_signClear, Htax|reflexivity]. }
  assert (signClear (tipAmount st) = true) as HtipAmount.
  { apply mul_signClear; [apply add_signClear; assumption|].
    apply div_signClear; [apply rate_signClear, Htip|reflexivity]. }
  split_and!; try assumption.
  apply add_signClear; [apply add_signClear|]; assumption.
Qed.

(** X12. With prices that are not negative (their sign bit is clear, or
    they are [NaN]) and accepted percentage texts, no entry of the object
    returned by [calculateOwed] is below 0, and neither is the total:
    nobody is owed money. *)
Theorem owed_not_negative (st : State) (who : string) (v : number) :
  (∀ item, item ∈ items st → signClear (Item.price item) = true) →
  accepted (taxPercent st) →
  accepted (tipPercent st) →
  calculateOwed st !! who = Some v →
  signClear v = true ∧ lt v 0 = false ∧ lt (total st) 0 = false.
Proof.
  intros Hprices Htax Htip Hentry.
  destruct (amounts_signClear st Hprices Htax Htip)
    as (Hsub & HtaxAmount & HtipAmount & Htotal).
  assert (signClear v = true) as Hv.
  { destruct (subtotal st === 0) eqn:Hzero.
    { unfold calculateOwed in Hentry. rewrite Hzero, lookup_empty in Hentry.
      discriminate Hentry. }
    rewrite (calculateOwed_lookup st who Hzero) in Hentry.
    destruct (bool_decide _); [|discriminate Hentry].
    injection Hentry as <-.
    assert (signClear (personSubtotal st who) = true) as Hps.
    { apply sumPrices_signClear. intros item [_ Hitem]%list_elem_of_filter.
      apply Hprices, Hitem. }
    apply add_signClear; [exact Hps|].
    apply mul_signClear; [apply div_signClear; assumption|].
    apply add_signClear; assumption. }
  split_and!; [exact Hv| |]; apply signClear_not_lt_0; assumption.
Qed.

(** On the coffee-and-muffin bill, what Alice owes, 9.24, is not below
    0. *)
Lemma owed_not_negative_example :
  calculateOwed Examples.coffeeAndMuffin !! "Alice"
  = Some (S754_finite false 5201657569612923 (-49))
  ∧ lt (S754_finite false 5201657569612923 (-49)) 0 = false.
Proof.
  assert (calculateOwed Examples.coffeeAndMuffin !! "Alice"
          = Some (S754_finite false 5201657569612923 (-49))) as Hentry
    by (vm_compute; reflexivity).
  split; [exact Hentry|].
  apply (owed_not_negative Examples.coffeeAndMuffin "Alice").
  - intros item Hin. cbn in Hin.
    repeat (apply elem_of_cons in Hin as [->|Hin]; [reflexivity|]).
    apply elem_of_nil in Hin. destruct Hin.
  - right. apply PriceField.numericPattern_language. reflexivity.
  - right. apply PriceField.numericPattern_language. reflexivity.
  - exact Hentry.
Defined.

End AllocationMore.

(** ** Names that [Object.prototype] knows *)

Module InheritedMore.
Import JsString JsNumber App Spec Handlers NumberFacts StringFacts Allocation
  Summary.
Local Open Scope js_scope.

(** A list fails to render exactly when one of its elements does. *)
Lemma renderAll_TypeError_iff {A B : Type} (f : A → Render B) (l : list A) :
  renderAll f l = TypeError ↔ ∃ a, a ∈ l ∧ f a = TypeError.
Proof.
  split.
  - induction l as [|a l IH]; cbn [renderAll]; [discriminate|].
    destruct (f a) as [b|] eqn:Hfa.
    + destruct (renderAll f l) as [bs|]; [discriminate|]. intros _.
      destruct (IH eq_refl) as (a' & Ha' & Hfa').
      exists a'. split; [apply list_elem_of_further, Ha'|exact Hfa'].
    + intros _. exists a. split; [apply list_elem_of_here|exact Hfa].
  - intros (a & Ha & Hfa). apply (renderAll_TypeError f l a Ha Hfa).
Qed.

(** The object returned by [calculateOwed] never has the key
    [__proto__]. *)
Lemma calculateOwed_proto (st : State) : calculateOwed st !! "__proto__" = None.
Proof.
  destruct (subtotal st === 0) eqn:Hzero.
  - unfold calculateOwed. rewrite Hzero. apply lookup_empty.
  - rewrite (calculateOwed_lookup st _ Hzero), bool_decide_false; [reflexivity|].
    intros [_ Hne]. apply Hne. reflexivity.
Qed.

(** The line of a participant throws when the name is a key of
    [Object.prototype] that the object does not have itself. *)
Lemma summaryLine_TypeError (st : State) (p : Person.t) :
  p ∈ people st →
  summaryLine st p = TypeError
  ↔ Person.name p ∈ JsObject.prototypeKeys
    ∧ ((subtotal st === 0) = true ∨ Person.name p = "__proto__").
Proof.
  intros Hp. unfold summaryLine, JsObject.get, owedAmounts.
  assert (Person.name p ∈ names st) as Hname
    by apply list_elem_of_In, in_map, list_elem_of_In, Hp.
  destruct (subtotal st === 0) eqn:Hzero.
  - unfold calculateOwed. rewrite Hzero, lookup_empty.
    case_bool_decide; split; try discriminate; tauto.
  - rewrite (calculateOwed_lookup st _ Hzero).
    destruct (decide (Person.name p = "__proto__")) as [Hproto|Hother].
    + rewrite bool_decide_false by tauto.
      rewrite bool_decide_true by (rewrite Hproto; compute_done).
      split; [intros _|reflexivity]. split; [|auto].
      rewrite Hproto. compute_done.
    + rewrite bool_decide_true by auto.
      split; [discriminate|]. intros [_ [H|H]]; [discriminate H|contradiction].
Qed.

(** X20. A participant called [__proto__] never has an entry in the
    object returned by [calculateOwed]. The payment summary throws, and
    the page is not rendered, exactly when it is shown (there is an item
    and a payer) and a participant other than the payer has a name that is
    a property of [Object.prototype] without an entry of its own: the name
    [__proto__], or any of these names when the subtotal is a zero. *)
Theorem inherited_name_breaks_summary (st : State) :
  calculateOwed st !! "__proto__" = None
  ∧ (paymentSummary st = TypeError
     ↔ items st ≠ [] ∧ paidBy st ≠ ""
       ∧ ∃ p, p ∈ people st ∧ Person.name p ≠ paidBy st
              ∧ Person.name p ∈ JsObject.prototypeKeys
              ∧ ((subtotal st === 0) = true ∨ Person.name p = "__proto__")).
Proof.
  split; [apply calculateOwed_proto|].
  unfold paymentSummary.
  destruct (decide (items st = [])) as [Hnone|Hitems].
  { rewrite Hnone. cbn. split; [discriminate|]. intros [H _]. contradiction. }
  rewrite bool_decide_true by (destruct (items st); [contradiction|simpl; lia]).
  destruct (decide (paidBy st = "")) as [Hnobody|Hpayer].
  { rewrite Hnobody. cbn. split; [discriminate|]. intros (_ & H & _). contradiction. }
  rewrite (proj2 (truthy_true_iff _) Hpayer).
  destruct (decide (people st = [])) as [Hnil|Hpeople].
  { rewrite Hnil. cbn. split; [discriminate|].
    intros (_ & _ & p & []%elem_of_nil & _). }
  rewrite bool_decide_true by (destruct (people st); [contradiction|simpl; lia]).
  cbn [andb]. rewrite renderAll_TypeError_iff. split.
  - intros (p & [Hne Hp]%list_elem_of_filter & Hthrows).
    apply (summaryLine_TypeError st p Hp) in Hthrows as [Hkey Hwhy].
    split_and!; [exact Hitems|exact Hpayer|]. exists p. auto.
  - intros (_ & _ & p & Hp & Hne & Hkey & Hwhy). exists p. split.
    + apply list_elem_of_filter. auto.
    + apply (summaryLine_TypeError st p Hp). auto.
Qed.

(** With a participant called [__proto__] who is not the payer, and
    with one called [constructor] on a bill that costs nothing, the summary
    throws. *)
Lemma inherited_name_breaks_summary_example :
  paymentSummary Samples.protoCoffee = TypeError
  ∧ paymentSummary Samples.constructorOwesNothing = TypeError.
Proof.
  split.
  - apply (inherited_name_breaks_summary Samples.protoCoffee).
    split_and!; [discriminate|discriminate|].
    exists (Person.mk "1700000000002" "__proto__").
    split_and!; [apply list_elem_of_further, list_elem_of_here|discriminate
                |compute_done|right; reflexivity].
  - apply (inherited_name_breaks_summary Samples.constructorOwesNothing).
    split_and!; [discriminate|discriminate|].
    exists (Person.mk "1700000000001" "constructor").
    split_and!; [apply list_elem_of_here|discriminate
                |compute_done|left; reflexivity].
Defined.

End InheritedMore.

(** ** The payment summary and the total *)

Module SummaryMore.
Import JsString JsNumber App Spec Rounding RoundingFacts Allocation Summary
  Conservation.

Lemma names_without (payer : string) (l : list Person.t) :
  map Person.name (filter (λ p, Person.name p ≠ payer) l)
  = filter (λ n, n ≠ payer) (map Person.name l).
Proof.
  induction l as [|p l IH]; [reflexivity|].
  cbn [map]. rewrite !filter_cons.
  destruct (decide (Person.name p ≠ payer)); cbn [map]; rewrite IH; reflexivity.
Qed.

Lemma filter_absent (payer : string) (l : list string) :
  payer ∉ l → filter (λ n, n ≠ payer) l = l.
Proof.
  induction l as [|m l IH]; intros Hout; [reflexivity|].
  apply not_elem_of_cons in Hout as [Hm Hout].
  rewrite filter_cons, decide_True by congruence. f_equal. apply IH, Hout.
Qed.

Lemma take_out (payer : string) (l : list string) :
  NoDup l → payer ∈ l → l ≡ₚ payer :: filter (λ n, n ≠ payer) l.
Proof.
  induction 1 as [|n l Hn Hnodup IH]; intros Hin.
  - apply elem_of_nil in Hin. destruct Hin.
  - rewrite filter_cons. destruct (decide (n = payer)) as [->|Hne].
    + rewrite decide_False by (intros Hne; apply Hne; reflexivity).
      rewrite (filter_absent _ _ Hn). reflexivity.
    + rewrite decide_True by exact Hne.
      apply elem_of_cons in Hin as [Heq|Hin]; [congruence|].
      rewrite (IH Hin) at 1. apply Permutation_swap.
Qed.

(** With distinct names, none of them [__proto__], the entries of the
    object are those of the names, each once. *)
Lemma entries_over_names (st : State) :
  (subtotal st === 0)%js = false →
  NoDup (names st) → "__proto__" ∉ names st →
  map_to_list (calculateOwed st)
  ≡ₚ (λ n, (n, (personSubtotal st n + personTaxTipShare st n)%js))
     <$> names st.
Proof.
  intros Hzero Hnodup Hproto. apply NoDup_Permutation.
  - apply NoDup_map_to_list.
  - apply NoDup_fmap_2; [|exact Hnodup]. intros n1 n2 Heq.
    injection Heq as ->. reflexivity.
  - intros [k v]. rewrite elem_of_map_to_list, list_elem_of_fmap.
    rewrite (calculateOwed_lookup st k Hzero). split.
    + intros Hsome. case_bool_decide as Hk; [|discriminate Hsome].
      injection Hsome as <-. exists k. split; [reflexivity|apply Hk].
    + intros (n & Heq & Hn). injection Heq as -> ->.
      rewrite bool_decide_true; [reflexivity|].
      split; [exact Hn|]. intros ->. exact (Hproto Hn).
Qed.

Lemma sumValues_over_names (st : State) :
  (subtotal st === 0)%js = false →
  NoDup (names st) → "__proto__" ∉ names st →
  sumValues (calculateOwed st)
  = sumR ((λ n, realOf (owed st n)) <$> names st).
Proof.
  intros Hzero Hnodup Hproto. unfold sumValues.
  rewrite (sumR_perm _ _
             (fmap_Permutation realOf _ _
                (fmap_Permutation snd _ _
                   (entries_over_names st Hzero Hnodup Hproto)))).
  rewrite <- !list_fmap_compose. f_equal. apply list_fmap_ext.
  intros i n Hn. cbn. unfold owed, owedAmounts.
  rewrite (calculateOwed_lookup st n Hzero), bool_decide_true; [reflexivity|].
  apply list_elem_of_lookup_2 in Hn. split; [exact Hn|].
  intros ->. exact (Hproto Hn).
Qed.

(** X13. On a bill that conserves the total (see [conservable]), with
    a designated payer, distinct names and no name that is a property of
    [Object.prototype], the payment summary is rendered, and the
    amounts of its lines together with the payer's own share add up to
    the total within the relative tolerance 1e-6. *)
Theorem summary_and_payer_share (st : State) :
  conservable st →
  paidBy st ≠ "" →
  paidBy st ∈ names st →
  NoDup (names st) →
  (∀ p, p ∈ people st → Person.name p ∉ JsObject.prototypeKeys) →
  ∃ lines,
    paymentSummary st = Rendered lines
    ∧ withinRelative oneMillionth
        (sumR ((λ line, realOf (PaymentInstruction.amount line)) <$> lines)
         + realOf (owed st (paidBy st)))%R
        (realOf (total st)).
Proof.
  intros Hbill Hpayer Hin Hnodup Hplain.
  destruct (subtotal_positive st Hbill) as [Hzero _].
  assert (people st ≠ []) as Hpeople.
  { intros Hnil. unfold names in Hin. rewrite Hnil in Hin.
    apply elem_of_nil in Hin. exact Hin. }
  assert (items st ≠ []) as Hitems.
  { intros Hnil. unfold subtotal, sumPrices in Hzero. rewrite Hnil in Hzero.
    discriminate Hzero. }
  assert ("__proto__" ∉ names st) as Hproto.
  { intros Hp. apply list_elem_of_fmap in Hp as (p & Hname & Hp).
    apply (Hplain p Hp). rewrite <- Hname. compute_done. }
  eexists. split.
  - rewrite (paymentSummary_shown st Hitems Hpayer Hpeople).
    apply renderAll_Rendered. intros p [_ Hp]%list_elem_of_filter.
    apply summaryLine_plain, Hplain, Hp.
  - rewrite <- list_fmap_compose.
    replace (sumR (((λ line, realOf (PaymentInstruction.amount line))
                    ∘ (λ person, PaymentInstruction.mk (Person.name person)
                                   (paidBy st) (owed st (Person.name person))))
                   <$> filter (λ person, Person.name person ≠ paidBy st)
                         (people st))
             + realOf (owed st (paidBy st)))%R
      with (sumValues (calculateOwed st)); [apply exact_sum_close, Hbill|].
    rewrite (sumValues_over_names st Hzero Hnodup Hproto).
    rewrite (sumR_perm _ _
               (fmap_Permutation (λ n, realOf (owed st n)) _ _
                  (take_out (paidBy st) (names st) Hnodup Hin))).
    cbn [fmap list_fmap sumR foldr].
    unfold names. rewrite <- names_without.
    change (map Person.name) with (fmap (M:=list) Person.name).
    rewrite <- list_fmap_compose, Rplus_comm. reflexivity.
Qed.

(** The bill of 0.1, 0.2 and 0.3 conserves the total. *)
Lemma threeDecimals_conservable : conservable Samples.threeDecimals.
Proof.
  constructor.
  - compute_done.
  - compute_done.
  - vm_compute. reflexivity.
  - vm_compute. reflexivity.
  - apply (finite_moderate _ 7133701809754867 (-53));
      [vm_compute; reflexivity|lia|lia].
  - cbn. lia.
Qed.

(** On the bill of 0.1, 0.2 and 0.3, paid by Bob, the summary is the
    line of Alice, 0.3960000000000001; with Bob's own 0.396 it makes
    the total 0.7920000000000001 within the tolerance. *)
Lemma summary_and_payer_share_example :
  paymentSummary Samples.threeDecimals
  = Rendered [PaymentInstruction.mk "Alice" "Bob"
                (S754_finite false 7133701809754867 (-54))]
  ∧ owed Samples.threeDecimals "Bob"
    = S754_finite false 7133701809754866 (-54)
  ∧ ∃ lines,
      paymentSummary Samples.threeDecimals = Rendered lines
      ∧ withinRelative oneMillionth
          (sumR ((λ line, realOf (PaymentInstruction.amount line)) <$> lines)
           + realOf (owed Samples.threeDecimals (paidBy Samples.threeDecimals)))%R
          (realOf (total Samples.threeDecimals)).
Proof.
  split; [vm_compute; reflexivity|]. split; [vm_compute; reflexivity|].
  apply (summary_and_payer_share Samples.threeDecimals).
  - exact threeDecimals_conservable.
  - discriminate.
  - compute_done.
  - compute_done.
  - intros p Hp. cbn in Hp.
    repeat (apply elem_of_cons in Hp as [->|Hp]; [compute_done|]).
    apply elem_of_nil in Hp. destruct Hp.
Defined.

End SummaryMore.

(** ** Uploads, payment requests and their results *)

Module RequestsMore.
Import JsString JsNumber App Spec Handlers StringFacts.

(** What is thrown in a [try] block has a non-empty message, unless it
    is an [Error] that was thrown with an empty one, or the [detail] of a
    response that is not [ok] converts to the empty string. *)
Lemma tryBlock_message {Payload : Type} (failed fallback : string)
    (answer : Answer Payload) (err : Thrown) :
  failed ≠ "" → fallback ≠ "" →
  tryBlock failed answer = inl err →
  messageOf fallback err = "" →
  answer = Rejected (ErrorObject "") ∨ answer = NotOk (Truthy "").
Proof.
  intros Hfailed Hfallback Hthrown Hempty.
  destruct answer as [thrown|[|text]|[] [payload|]]; cbn in Hthrown;
    try (injection Hthrown as <-; cbn in Hempty);
    try discriminate Hthrown; try discriminate Hempty.
  - destruct thrown as [message|]; cbn in Hempty.
    + rewrite Hempty. left. reflexivity.
    + contradiction.
  - contradiction.
  - rewrite Hempty. right. reflexivity.
Qed.


(** X14. An upload never touches the registry, the payer, the
    percentages or the payment results, and ends with the loading flag
    down. Only an [ok] answer with a true [success] and an item list
    replaces the items, and then no error is shown; after any other
    answer the items are as before and the error text is not empty - except
    when an [Error] with an empty message was thrown or the [detail] of a
    response that is not [ok] converts to the empty string (an empty
    array), failures that leave no trace. Without a chosen file nothing
    happens. *)
Theorem upload_outcome (answer : Answer (list Item.t)) (st : State) :
  let st' := handleFileChange true answer st in
  people st' = people st
  ∧ paidBy st' = paidBy st
  ∧ taxPercent st' = taxPercent st
  ∧ tipPercent st' = tipPercent st
  ∧ transactions st' = transactions st
  ∧ showTransactions st' = showTransactions st
  ∧ isLoading st' = false
  ∧ match answer with
    | Ok true (Some received) => items st' = received ∧ error st' = ""
    | _ =>
        items st' = items st
        ∧ (error st' = ""
           → answer = Rejected (ErrorObject "") ∨ answer = NotOk (Truthy ""))
    end
  ∧ (wellFormed st → wellFormed st')
  ∧ handleFileChange false answer st = st.
Proof.
  cbv zeta. unfold handleFileChange, handleFileChangeStart, handleFileChangeFinish.
  destruct (tryBlock "Failed to process receipt" answer) as [err|received]
    eqn:Htry.
  - split_and!; try reflexivity.
    + assert (items st = items st
              ∧ (messageOf "Failed to upload receipt" err = ""
                 → answer = Rejected (ErrorObject "")
                   ∨ answer = NotOk (Truthy ""))) as Hfailure.
      { split; [reflexivity|].
        apply (tryBlock_message "Failed to process receipt" _ answer);
          [discriminate|discriminate|exact Htry]. }
      destruct answer as [thrown|detail|[] [payload|]]; try exact Hfailure.
      discriminate Htry.
    + intros [Hids Hnames Hpayer]. split; assumption.
  - destruct answer as [thrown|[|text]|[] [payload|]]; try discriminate Htry.
    injection Htry as <-. split_and!; try reflexivity.
    intros [Hids Hnames Hpayer]. split; assumption.
Qed.


Lemma badge_Failed (t : Transaction.t) :
  badge t = "Failed" ↔ Transaction.status t ≠ "success".
Proof. unfold badge. case_bool_decide; split; congruence. Qed.

(** X16. Under the results, "Successful" and "Failed" count the
    transactions whose status is exactly "success" and "failed", while a
    transaction is badged "Failed" whenever its status is not "success":
    the badges "Failed" number the total less the successes, the two counts
    never exceed the total together, and they add up to it exactly when
    every status is one of the two. *)
Theorem results_counts (results : list Transaction.t) :
  (Settlement.successCount results + Settlement.failureCount results
   ≤ length results)%nat
  ∧ length (filter (λ t, badge t = "Failed") results)
    = (length results - Settlement.successCount results)%nat
  ∧ ((Settlement.successCount results + Settlement.failureCount results
      = length results)%nat
     ↔ Forall (λ t, Transaction.status t = "success"
                    ∨ Transaction.status t = "failed") results).
Proof.
  unfold Settlement.successCount, Settlement.failureCount.
  induction results as [|t l (IHle & IHbadge & IHiff)].
  - split_and!; [reflexivity|reflexivity|]. split; [constructor|reflexivity].
  - rewrite !filter_cons.
    pose proof (length_filter (λ t, Transaction.status t = "success") l) as Hs.
    destruct (decide (Transaction.status t = "success")) as [Hsucc|Hnot].
    + rewrite (decide_False (P := Transaction.status t = "failed")) by congruence.
      rewrite (decide_False (P := badge t = "Failed"))
        by (rewrite badge_Failed; tauto).
      cbn [length]. split_and!; [lia|lia|].
      rewrite Forall_cons, <- IHiff. split; [intros Heq; split; [auto|lia]|].
      intros [_ Heq]. lia.
    + rewrite (decide_True (P := badge t = "Failed"))
        by (rewrite badge_Failed; exact Hnot).
      destruct (decide (Transaction.status t = "failed")) as [Hfail|Hother];
        cbn [length].
      * split_and!; [lia|lia|].
        rewrite Forall_cons, <- IHiff. split; [intros Heq; split; [auto|lia]|].
        intros [_ Heq]. lia.
      * split_and!; [lia|lia|].
        rewrite Forall_cons. split; [lia|]. intros [[?|?] _]; contradiction.
Qed.

End RequestsMore.

(** ** The negotiation front end *)

Module NegotiationMore.
Import JsString JsNumber Handlers NegotiationApp.

(** What holds of the negotiation front end in every state. *)
Lemma step_invariant (e : Event) (st : State) :
  (isNegotiating st = true → finalAmounts st = None) →
  (finalAmounts st = None → transcript st = []) →
  (showTransactions st = false → transactions st = []) →
  (isNegotiating (handle e st) = true → finalAmounts (handle e st) = None)
  ∧ (finalAmounts (handle e st) = None → transcript (handle e st) = [])
  ∧ (showTransactions (handle e st) = false → transactions (handle e st) = []).
Proof.
  intros Hbusy Hamounts Hresults.
  destruct e as [text|text|text| |answer| |answer| |answer]; cbn [handle];
    try (split_and!; assumption);
    try (split_and!; cbn; intros; (reflexivity || assumption)).
  - destruct (tryBlock _ answer) as [err|received]; cbn;
      split_and!; cbn; intros; try reflexivity; auto.
  - destruct (tryBlock _ answer) as [err|[[turns|] [amounts|] billTotal]]; cbn;
      split_and!; cbn; intros; try discriminate; auto.
  - split_and!; cbn; intros; auto.
  - destruct (tryBlock _ answer) as [err|received]; cbn;
      split_and!; cbn; intros; try discriminate; auto.
Qed.

(** X17. In every state of the negotiation front end, whatever the
    order in which clicks and answers arrive: while a negotiation is in
    progress there are no final amounts (so no "Execute Payment" button);
    a transcript is shown only together with final amounts; and payment
    results are kept only while they are flagged as shown. *)
Theorem negotiation_invariants (st : State) :
  reachable st →
  (isNegotiating st = true → finalAmounts st = None)
  ∧ (transcriptShown st = true → amountsShown st = true)
  ∧ (showTransactions st = false → transactions st = []).
Proof.
  intros Hreach.
  assert ((isNegotiating st = true → finalAmounts st = None)
          ∧ (finalAmounts st = None → transcript st = [])
          ∧ (showTransactions st = false → transactions st = []))
    as (Hbusy & Hamounts & Hresults).
  { induction Hreach as [|e st _ (Hbusy & Hamounts & Hresults) _].
    - split_and!; intros; reflexivity.
    - apply step_invariant; assumption. }
  split_and!; [exact Hbusy| |exact Hresults].
  unfold transcriptShown, amountsShown. rewrite !andb_true_iff.
  intros [Hitems Hturns]. split; [exact Hitems|].
  apply bool_decide_eq_true. intros Hnone.
  rewrite (Hamounts Hnone) in Hturns. discriminate Hturns.
Qed.

(** After an upload and an answered negotiation, the transcript and the
    amounts are shown together and no results are kept. *)
Lemma negotiation_invariants_example :
  transcriptShown Samples.negotiated = true
  ∧ amountsShown Samples.negotiated = true
  ∧ transactions Samples.negotiated = [].
Proof.
  destruct (negotiation_invariants Samples.negotiated) as (_ & Hshown & Hkept).
  - unfold Samples.negotiated.
    apply (reachable_step (ArgueAnswered _)); [|exact I].
    apply (reachable_step ArgueClicked); [|split; [reflexivity|discriminate]].
    apply (reachable_step (UploadAnswered _)); [|exact I].
    apply (reachable_step FileChosen); [|reflexivity].
    apply reachable_initial.
  - split; [reflexivity|]. split; [apply Hshown; reflexivity|].
    apply Hkept. reflexivity.
Defined.

(** X18. "Argue" followed by its answer: when the answer is a success
    with a transcript and final amounts, the payment request that
    "Execute Payment" then builds carries exactly the two answered amounts,
    and the transcript and the total are the answered ones; with any other
    answer there is nothing to execute, the amounts and the transcript of
    an earlier negotiation are gone and the total is left as it was. Either
    way the negotiation is no longer in progress, the items are untouched
    and earlier payment results are dropped. *)
Theorem negotiated_amounts_are_requested
    (answer : Answer Negotiation) (st : State) :
  let st' := handle (ArgueAnswered answer) (handle ArgueClicked st) in
  match answer with
  | Ok true (Some (mkNegotiation (Some turns) (Some amounts) billTotal)) =>
      executeRequest st'
      = Some (mkExecuteRequest (person1 amounts) (person2 amounts))
      ∧ transcript st' = turns
      ∧ total st' = billTotal
      ∧ error st' = ""
  | _ =>
      executeRequest st' = None
      ∧ transcriptShown st' = false
      ∧ amountsShown st' = false
      ∧ total st' = total st
  end
  ∧ isNegotiating st' = false
  ∧ items st' = items st
  ∧ transactions st' = []
  ∧ showTransactions st' = false.
Proof.
  destruct answer
    as [err|[|text]|[] [[[turns|] [amounts|] billTotal]|]];
    cbn; unfold transcriptShown, amountsShown; cbn;
    rewrite ?andb_false_r; split_and!; reflexivity.
Qed.

End NegotiationMore.
